(** * cacheX: the progressive-rehashing hash map of [include/hashmap.hpp]

    A shallow embedding of [HNode], [HTab] and [HMap] over an explicit
    memory.  Node records are owned by the caller and linked intrusively
    through their [next] field, so the memory keeps one store for the node
    records and one for the [calloc]ed slot arrays; pointers are 64-bit
    addresses with [0] for [nullptr]. *)

From stdpp Require Import gmap list fin_maps numbers.

Open Scope Z_scope.

(** ** Machine integers *)

(** [size_t] and [uint64_t] arithmetic is modulo [2^64]. *)
Definition wrap (z : Z) : Z := z mod 2 ^ 64.

Definition kRehasingWork : Z := 128.
Definition kMaxLoadFactor : Z := 8.

(** ** Memory *)

Record HNode := { next : Z; hcode : Z }.

Record Mem := {
  nodes : gmap Z HNode;        (* the caller's records, by address *)
  arrays : gmap Z (list Z)     (* live slot arrays, by base address *)
}.

(** The target of a pointer to a slot: the address of a slot of an
    array, or of the [next] field of a node. *)
Inductive link :=
| SlotRef (base : Z) (i : Z)
| NextRef (node : Z).

(** Outcome of running a piece of the program. *)
Inductive res (A : Type) : Type :=
| Ok (a : A)
| Abort      (* a failed [assert], or an access outside live memory *)
| OutOfFuel.  (* the iteration bound given to a loop ran out *)
Arguments Ok {A} a.
Arguments Abort {A}.
Arguments OutOfFuel {A}.

Definition M (A : Type) : Type := Mem → res (A * Mem).

Definition ret {A} (a : A) : M A := λ mem, Ok (a, mem).

Definition bind {A B} (c : M A) (k : A → M B) : M B := λ mem,
  match c mem with
  | Ok (a, mem') => k a mem'
  | Abort => Abort
  | OutOfFuel => OutOfFuel
  end.

Definition abort {A} : M A := λ _, Abort.
Definition out_of_fuel {A} : M A := λ _, OutOfFuel.

Notation "'let*' x := c 'in' k" := (bind c (λ x, k))
  (at level 10, x pattern, c at level 100, k at level 200).
Notation "c ;; k" := (bind c (λ _, k))
  (at level 100, k at level 200, right associativity).

Definition assert (b : bool) : M unit := if b then ret tt else abort.

Definition read_node (a : Z) : M HNode := λ mem,
  match nodes mem !! a with
  | Some n => Ok (n, mem)
  | None => Abort
  end.

Definition write_next (a v : Z) : M unit := λ mem,
  match nodes mem !! a with
  | Some n =>
      Ok (tt, {| nodes := <[a := {| next := v; hcode := hcode n |}]> (nodes mem);
                 arrays := arrays mem |})
  | None => Abort
  end.

Definition read_slot (base i : Z) : M Z := λ mem,
  match arrays mem !! base with
  | Some slots =>
      match slots !! Z.to_nat i with
      | Some p => Ok (p, mem)
      | None => Abort
      end
  | None => Abort
  end.

Definition write_slot (base i v : Z) : M unit := λ mem,
  match arrays mem !! base with
  | Some slots =>
      if decide (Z.to_nat i < length slots)%nat
      then Ok (tt, {| nodes := nodes mem;
                      arrays := <[base := <[Z.to_nat i := v]> slots]> (arrays mem) |})
      else Abort
  | None => Abort
  end.

(** [*from] and [*from = v]. *)
Definition load (from : link) : M Z :=
  match from with
  | SlotRef base i => read_slot base i
  | NextRef a => let* n := read_node a in ret (next n)
  end.

Definition store (from : link) (v : Z) : M unit :=
  match from with
  | SlotRef base i => write_slot base i v
  | NextRef a => write_next a v
  end.

(** [calloc]: a fresh, zero-filled array of [n] slots.  Allocation
    failure is not modelled. *)
Definition calloc (n : Z) : M Z := λ mem,
  let p := fresh ({[0]} ∪ dom (arrays mem)) in
  Ok (p, {| nodes := nodes mem;
            arrays := <[p := replicate (Z.to_nat n) 0]> (arrays mem) |}).

(** [free(p)]: nothing for [nullptr], undefined for a block that is not
    live. *)
Definition free (p : Z) : M unit := λ mem,
  if decide (p = 0) then Ok (tt, mem)
  else match arrays mem !! p with
       | Some _ => Ok (tt, {| nodes := nodes mem; arrays := delete p (arrays mem) |})
       | None => Abort
       end.

(** ** HTab *)

Record HTab := { tab : Z; mask : Z; size : Z }.

(** [HTab{}] *)
Definition HTab0 : HTab := {| tab := 0; mask := 0; size := 0 |}.

Module HTab.

Definition init (n : Z) : M HTab :=
  assert (bool_decide (0 < n) && (Z.land (wrap (n - 1)) n =? 0)) ;;
  let* p := calloc n in
  ret {| tab := p; mask := wrap (n - 1); size := 0 |}.

Definition get_position (t : HTab) (hc : Z) : Z := Z.land hc (mask t).

Definition insert (t : HTab) (node : Z) : M HTab :=
  let* n := read_node node in
  let pos := get_position t (hcode n) in
  let* nxt := read_slot (tab t) pos in
  write_next node nxt ;;
  write_slot (tab t) pos node ;;
  ret {| tab := tab t; mask := mask t; size := wrap (size t + 1) |}.

(** The chain walk of [HTab::lookup]; [from] is the incoming pointer. *)
Fixpoint lookup_loop (fuel : nat) (from : link) (key : Z) (eq : Z → Z → bool)
    : M (option link) :=
  match fuel with
  | O => out_of_fuel
  | S fuel' =>
      let* cur := load from in
      if decide (cur = 0) then ret None
      else
        let* c := read_node cur in
        let* k := read_node key in
        if (hcode c =? hcode k) && eq cur key then ret (Some from)
        else lookup_loop fuel' (NextRef cur) key eq
  end.

Definition lookup (fuel : nat) (t : HTab) (key : Z) (eq : Z → Z → bool)
    : M (option link) :=
  if decide (tab t = 0) then ret None
  else
    let* k := read_node key in
    let pos := get_position t (hcode k) in
    lookup_loop fuel (SlotRef (tab t) pos) key eq.

Definition detach (t : HTab) (from : link) : M (Z * HTab) :=
  let* node := load from in
  let* n := read_node node in
  store from (next n) ;;
  ret (node, {| tab := tab t; mask := mask t; size := wrap (size t - 1) |}).

(** The visitor [f] gets the node and the caller's context and says whether
    to go on. *)
Fixpoint visit_chain {A} (fuel : nat) (node : Z) (f : Z → A → bool * A) (arg : A)
    : M (bool * A) :=
  match fuel with
  | O => out_of_fuel
  | S fuel' =>
      if decide (node = 0) then ret (true, arg)
      else
        let '(go, arg') := f node arg in
        if go then let* n := read_node node in visit_chain fuel' (next n) f arg'
        else ret (false, arg')
  end.

Fixpoint foreach_loop {A} (fuel : nat) (t : HTab) (i : Z) (f : Z → A → bool * A)
    (arg : A) : M (bool * A) :=
  match fuel with
  | O => out_of_fuel
  | S fuel' =>
      if negb (mask t =? 0) && (i <=? mask t) then
        let* head := read_slot (tab t) i in
        let* (go, arg') := visit_chain fuel head f arg in
        if go : bool then foreach_loop fuel' t (wrap (i + 1)) f arg'
        else ret (false, arg')
      else ret (true, arg)
  end.

Definition foreach {A} (fuel : nat) (t : HTab) (f : Z → A → bool * A) (arg : A)
    : M (bool * A) :=
  foreach_loop fuel t 0 f arg.

End HTab.

(** ** HMap *)

Record HMap := { newer : HTab; older : HTab; migrate_pos : Z }.

Definition HMap0 : HMap := {| newer := HTab0; older := HTab0; migrate_pos := 0 |}.

Module HMap.

(** One iteration of the loop of [help_rehashing]. *)
Definition help_body (m : HMap) (nwork : Z) : M (HMap * Z) :=
  let from := SlotRef (tab (older m)) (migrate_pos m) in
  let* p := load from in
  if decide (p = 0) then
    ret ({| newer := newer m; older := older m;
            migrate_pos := wrap (migrate_pos m + 1) |}, nwork)
  else
    let* (node, o) := HTab.detach (older m) from in
    let* n := HTab.insert (newer m) node in
    ret ({| newer := n; older := o; migrate_pos := migrate_pos m |},
         wrap (nwork + 1)).

Fixpoint help_loop (fuel : nat) (m : HMap) (nwork : Z) : M HMap :=
  match fuel with
  | O => out_of_fuel
  | S fuel' =>
      if (nwork <? kRehasingWork) && (0 <? size (older m)) then
        let* (m', nwork') := help_body m nwork in
        help_loop fuel' m' nwork'
      else ret m
  end.

Definition help_rehashing (fuel : nat) (m : HMap) : M HMap :=
  let* m' := help_loop fuel m 0 in
  if (size (older m') =? 0) && negb (tab (older m') =? 0) then
    free (tab (older m')) ;;
    ret {| newer := newer m'; older := HTab0; migrate_pos := migrate_pos m' |}
  else ret m'.

Definition trigger_rehashing (m : HMap) : M HMap :=
  assert (tab (older m) =? 0) ;;
  let* n := HTab.init (wrap (wrap (mask (newer m) + 1) * 2)) in
  ret {| newer := n; older := newer m; migrate_pos := 0 |}.

Definition lookup (fuel : nat) (m : HMap) (key : Z) (eq : Z → Z → bool)
    : M (Z * HMap) :=
  let* m1 := help_rehashing fuel m in
  let* from := HTab.lookup fuel (newer m1) key eq in
  let* from := match from with
                | None => HTab.lookup fuel (older m1) key eq
                | Some _ => ret from
                end in
  match from with
  | Some l => let* p := load l in ret (p, m1)
  | None => ret (0, m1)
  end.

Definition insert (fuel : nat) (m : HMap) (node : Z) : M HMap :=
  let* n0 := (if decide (tab (newer m) = 0) then HTab.init 4 else ret (newer m)) in
  let* n1 := HTab.insert n0 node in
  let m1 := {| newer := n1; older := older m; migrate_pos := migrate_pos m |} in
  let* m2 := (if decide (tab (older m1) = 0) then
                let threshold := wrap (wrap (mask (newer m1) + 1) * kMaxLoadFactor) in
                if threshold <=? size (newer m1) then trigger_rehashing m1 else ret m1
              else ret m1) in
  help_rehashing fuel m2.

Definition hm_delete (fuel : nat) (m : HMap) (key : Z) (eq : Z → Z → bool)
    : M (Z * HMap) :=
  let* m1 := help_rehashing fuel m in
  let* from := HTab.lookup fuel (newer m1) key eq in
  match from with
  | Some l =>
      let* (node, n) := HTab.detach (newer m1) l in
      ret (node, {| newer := n; older := older m1; migrate_pos := migrate_pos m1 |})
  | None =>
      let* from := HTab.lookup fuel (older m1) key eq in
      match from with
      | Some l =>
          let* (node, o) := HTab.detach (older m1) l in
          ret (node, {| newer := newer m1; older := o; migrate_pos := migrate_pos m1 |})
      | None => ret (0, m1)
      end
  end.

Definition clear (m : HMap) : M HMap :=
  free (tab (newer m)) ;;
  free (tab (older m)) ;;
  ret m.

Definition size (m : HMap) : Z := wrap (size (newer m) + size (older m)).

Definition foreach {A} (fuel : nat) (m : HMap) (f : Z → A → bool * A) (arg : A)
    : M A :=
  let* (go, arg1) := HTab.foreach fuel (newer m) f arg in
  if go : bool then let* (_, arg2) := HTab.foreach fuel (older m) f arg1 in ret arg2
  else ret arg1.

End HMap.

(** * Reasoning about runs *)

(** [outcome r enough post]: the run [r] did not abort, it ran out of
    iterations only if [enough] fails, and its result satisfies [post]. *)
Definition outcome {A} (r : res A) (enough : Prop) (post : A → Prop) : Prop :=
  match r with
  | Ok a => post a
  | Abort => False
  | OutOfFuel => ¬ enough
  end.

(** * Linked chains in the node store *)

(** [lseg nd p l q]: following [next] from the pointer [p] visits exactly
    the nodes [l] and then reaches [q]. *)
Fixpoint lseg (nd : gmap Z HNode) (p : Z) (l : list Z) (q : Z) : Prop :=
  match l with
  | [] => p = q
  | a :: l' => p = a ∧ a ≠ 0 ∧ ∃ n, nd !! a = Some n ∧ lseg nd (next n) l' q
  end.

(** A chain is a segment that ends in [nullptr]. *)
Definition chain (nd : gmap Z HNode) (p : Z) (l : list Z) : Prop := lseg nd p l 0.

(** * Representation of a table *)

(** [tab_rep mem t cs]: [t] is an initialised table whose slot [i] heads the
    chain [cs !! i]. *)
Record tab_rep (mem : Mem) (t : HTab) (cs : list (list Z)) : Prop := {
  rep_tab : tab t ≠ 0;
  rep_slots : ∃ slots,
    arrays mem !! tab t = Some slots ∧ Forall2 (chain (nodes mem)) slots cs;
  rep_cap : Z.of_nat (length cs) = mask t + 1;
  rep_mask : 0 ≤ mask t < 2 ^ 64 - 1;
  rep_size : size t = Z.of_nat (length (concat cs));
  rep_size_lt : size t < 2 ^ 64;
  rep_home : ∀ i c a, cs !! i = Some c → a ∈ c →
    ∃ n, nodes mem !! a = Some n ∧ HTab.get_position t (hcode n) = Z.of_nat i
}.

(** A table of the map is either [HTab{}] or initialised. *)
Definition table_ok (mem : Mem) (t : HTab) (cs : list (list Z)) : Prop :=
  (t = HTab0 ∧ cs = []) ∨ tab_rep mem t cs.

(** What a run may change in memory: the [next] field of the nodes in
    [touched] and the slot array at [base]; no [hcode], no other array. *)
Record mem_update (mem mem' : Mem) (touched : list Z) (base : Z) : Prop := {
  upd_nodes : ∀ b, b ∉ touched → nodes mem' !! b = nodes mem !! b;
  upd_hcode : ∀ b, hcode <$> nodes mem' !! b = hcode <$> nodes mem !! b;
  upd_arrays : ∀ p, p ≠ base → arrays mem' !! p = arrays mem !! p
}.

(** The test of [HTab::lookup] on the node [a]. *)
Definition hmatch (mem : Mem) (key : Z) (eq : Z → Z → bool) (a : Z) : bool :=
  match nodes mem !! a, nodes mem !! key with
  | Some c, Some k => (hcode c =? hcode k) && eq a key
  | _, _ => false
  end.

(** The incoming pointer of the node that follows the nodes [l] in a chain
    entered through [from]. *)
Definition link_after (from : link) (l : list Z) : link :=
  match list.last l with
  | Some p => NextRef p
  | None => from
  end.

(** What a traversal does on the nodes [l], in order. *)
Fixpoint visit_list {A} (f : Z → A → bool * A) (l : list Z) (arg : A) : bool * A :=
  match l with
  | [] => (true, arg)
  | a :: l' =>
      let '(go, arg') := f a arg in
      if go then visit_list f l' arg' else (false, arg')
  end.

(** * Representation of the map *)

(** The capacity of a table of the map: a power of two, at least 4. *)
Definition pow2_cap (t : HTab) : Prop := ∃ k, 2 ≤ k ≤ 63 ∧ mask t + 1 = 2 ^ k.

(** [Inv mem m csN csO]: the map [m] is well formed in [mem]; [csN] and
    [csO] are the chains of the active and of the retiring table. *)
Record Inv (mem : Mem) (m : HMap) (csN csO : list (list Z)) : Prop := {
  inv_addr : ∀ a n, nodes mem !! a = Some n → 0 < a < 2 ^ 64;
  inv_newer : table_ok mem (newer m) csN;
  inv_older : table_ok mem (older m) csO;
  inv_first : tab (newer m) = 0 → tab (older m) = 0;
  inv_tabs : tab (older m) ≠ 0 → tab (newer m) ≠ tab (older m);
  inv_nodup : NoDup (concat csN ++ concat csO);
  inv_capN : tab (newer m) ≠ 0 → pow2_cap (newer m);
  inv_capO : tab (older m) ≠ 0 → pow2_cap (older m);
  inv_cursor : 0 ≤ migrate_pos m < 2 ^ 64;
  inv_cursor_le : tab (older m) ≠ 0 → migrate_pos m ≤ mask (older m);
  inv_drained : ∀ i c,
    (i < Z.to_nat (migrate_pos m))%nat → csO !! i = Some c → c = []
}.

(** How an operation may move the map from one well-formed state to the
    next: the nodes stay the same ones, with the same hash codes, and the
    cursor and the arrays of the two tables stay put. *)
Record evolves (mem : Mem) (m : HMap) (csN csO : list (list Z))
    (mem' : Mem) (m' : HMap) (csN' csO' : list (list Z)) : Prop := {
  ev_inv : Inv mem' m' csN' csO';
  ev_perm : concat csN' ++ concat csO' ≡ₚ concat csN ++ concat csO;
  ev_hcode : ∀ b, hcode <$> nodes mem' !! b = hcode <$> nodes mem !! b;
  ev_newer_tab : tab (newer m') = tab (newer m);
  ev_newer_mask : mask (newer m') = mask (newer m);
  ev_older_tab : tab (older m') = tab (older m);
  ev_older_mask : mask (older m') = mask (older m);
  ev_cursor : migrate_pos m ≤ migrate_pos m'
}.

(** Iterations that the loop of [HMap.help_rehashing] may still need. *)
Definition help_bound (m : HMap) (nwork : Z) : Z :=
  (kRehasingWork - nwork) + Z.max 0 (mask (older m) - migrate_pos m) + 1.

(** An iteration bound that is enough for every loop of an operation on [m]. *)
Definition fuel_ok (m : HMap) (fuel : nat) : Prop :=
  size (newer m) + size (older m) + mask (newer m) + mask (older m) + 130
    < Z.of_nat fuel.

(** What one call of [HMap.help_rehashing] achieves. *)
Record migrated (mem : Mem) (m : HMap) (csN csO : list (list Z))
    (mem' : Mem) (m' : HMap) (csN' csO' : list (list Z)) : Prop := {
  mg_inv : Inv mem' m' csN' csO';
  mg_perm : concat csN' ++ concat csO' ≡ₚ concat csN ++ concat csO;
  mg_hcode : ∀ b, hcode <$> nodes mem' !! b = hcode <$> nodes mem !! b;
  mg_newer_tab : tab (newer m') = tab (newer m);
  mg_newer_mask : mask (newer m') = mask (newer m);
  mg_cursor : migrate_pos m ≤ migrate_pos m';
  mg_newer_size :
    size (newer m') = size (newer m) + Z.min kRehasingWork (size (older m));
  mg_older_size :
    size (older m') = size (older m) - Z.min kRehasingWork (size (older m));
  mg_freed : size (older m) ≤ kRehasingWork →
    older m' = HTab0 ∧ csO' = [] ∧
    (tab (older m) ≠ 0 → arrays mem' !! tab (older m) = None);
  mg_kept : kRehasingWork < size (older m) →
    tab (older m') = tab (older m) ∧ mask (older m') = mask (older m)
}.

(** * The caller's view *)

(** The states a caller can bring the map to, starting from [HMap{}], with
    the set [live] of the nodes inserted and not deleted since.  The caller
    hands in records of its own, and links a record into the map at most
    once at a time.  Each run may use any iteration bound; only the runs
    that come to an end produce a state. *)
Inductive reachable : Mem → HMap → gset Z → Prop :=
| reach_empty mem :
    (∀ a n, nodes mem !! a = Some n → 0 < a < 2 ^ 64) →
    reachable mem HMap0 ∅
| reach_insert mem m live fuel node m' mem' :
    reachable mem m live →
    is_Some (nodes mem !! node) → node ∉ live →
    HMap.insert fuel m node mem = Ok (m', mem') →
    reachable mem' m' ({[node]} ∪ live)
| reach_lookup mem m live fuel key eq r m' mem' :
    reachable mem m live →
    is_Some (nodes mem !! key) →
    HMap.lookup fuel m key eq mem = Ok ((r, m'), mem') →
    reachable mem' m' live
| reach_delete mem m live fuel key eq r m' mem' :
    reachable mem m live →
    is_Some (nodes mem !! key) →
    HMap.hm_delete fuel m key eq mem = Ok ((r, m'), mem') →
    reachable mem' m' (live ∖ {[r]}).

(** A visitor that records every node and never stops the traversal. *)
Definition record_node (a : Z) (acc : list Z) : bool * list Z := (true, acc ++ [a]).

(** * Concrete scenarios *)

(** Record number [i] of a scenario sits at address [16 * (i + 1)] and has
    the hash code [i]; a probe record at address [8] has a hash code that no
    other record has. *)
Definition node_addr (i : Z) : Z := 16 * (i + 1).

Definition probe : Z := 8.

Definition scenario_mem (n : Z) : Mem :=
  {| nodes := <[probe := {| next := 0; hcode := 2 ^ 32 |}]>
                (list_to_map ((λ i, (node_addr i, {| next := 0; hcode := i |}))
                                <$> seqZ 0 n));
     arrays := ∅ |}.

(** Records are the same key when they are the same record. *)
Definition same_node (a b : Z) : bool := a =? b.

Fixpoint insert_all (fuel : nat) (m : HMap) (l : list Z) : M HMap :=
  match l with
  | [] => ret m
  | a :: l' => let* m' := HMap.insert fuel m a in insert_all fuel m' l'
  end.

(** [k] lookups in a row, with their results. *)
Fixpoint lookup_times (fuel : nat) (k : nat) (m : HMap) (key : Z)
    (eq : Z → Z → bool) : M (list Z * HMap) :=
  match k with
  | O => ret ([], m)
  | S k' =>
      let* (r, m') := HMap.lookup fuel m key eq in
      let* (rs, m'') := lookup_times fuel k' m' key eq in
      ret (r :: rs, m'')
  end.

(** The map after the first [k] records of a scenario were inserted. *)
Definition inserted (n : Z) (k : Z) : res (HMap * Mem) :=
  insert_all 1000 HMap0 (node_addr <$> seqZ 0 k) (scenario_mem n).

Definition final_map (r : res (HMap * Mem)) : HMap :=
  match r with
  | Ok (m, _) => m
  | _ => HMap0
  end.

Definition final_mem (r : res (HMap * Mem)) : Mem :=
  match r with
  | Ok (_, mem) => mem
  | _ => scenario_mem 0
  end.

(** Scenario B: the records [nodeA] and [nodeB], whose hash codes 1 and 5
    fall into the same slot of a table of capacity 4 (and of capacity 1),
    are inserted in this order into an empty table of capacity [n], which
    is then traversed. *)
Definition nodeA : Z := 16.
Definition nodeB : Z := 32.

Definition scenarioB_mem : Mem :=
  {| nodes := <[nodeA := {| next := 0; hcode := 1 |}]>
                (<[nodeB := {| next := 0; hcode := 5 |}]> ∅);
     arrays := ∅ |}.

Definition scenarioB (n : Z) : M (HTab * (bool * list Z)) :=
  let* t := HTab.init n in
  let* t := HTab.insert t nodeA in
  let* t := HTab.insert t nodeB in
  let* r := HTab.foreach 100 t record_node [] in
  ret (t, r).

Fixpoint tab_insert_all (t : HTab) (l : list Z) : M HTab :=
  match l with
  | [] => ret t
  | a :: l' => let* t' := HTab.insert t a in tab_insert_all t' l'
  end.

(** A map in the middle of a cycle, put together from the tables' own
    operations: the first 129 records of a scenario in a retiring table of
    capacity 4, and an empty active table of capacity 8. *)
Definition migrating_map : M HMap :=
  let* o := HTab.init 4 in
  let* o := tab_insert_all o (node_addr <$> seqZ 0 129) in
  let* n := HTab.init 8 in
  ret {| newer := n; older := o; migrate_pos := 0 |}.

(** The map of scenario A's kind after 256 insertions: the 256th started a
    cycle and migrated 128 of the 256 records. *)
Definition mapM : HMap := final_map (inserted 256 256).
Definition memM : Mem := final_mem (inserted 256 256).
Definition liveM : gset Z := list_to_set (node_addr <$> seqZ 0 256).

(** * Load and capacities *)

(** The margin that keeps the load of the active table below the maximum.
    Outside a cycle the live count of the active table is below
    [kMaxLoadFactor] times its capacity [C].  In a cycle the active table
    has twice the capacity of the retiring one, and [q] further calls are
    enough to drain the retiring table, 128 nodes a call, while the nodes
    of both tables and one insertion for each of these calls stay within
    [4 * C + C / 32 + 1]. *)
Record load_ok (m : HMap) : Prop := {
  lo_stable : tab (older m) = 0 → tab (newer m) ≠ 0 →
    size (newer m) < kMaxLoadFactor * (mask (newer m) + 1);
  lo_cycle : tab (older m) ≠ 0 →
    mask (newer m) + 1 = 2 * (mask (older m) + 1) ∧
    ∃ q, 1 ≤ q ∧ size (older m) ≤ kRehasingWork * q ∧
         32 * (size (newer m) + size (older m) + q)
           ≤ 129 * (mask (newer m) + 1) + 32
}.

(** The map of scenario A after its 33 insertions: no cycle is open. *)
Definition mapS : HMap := final_map (inserted 33 33).
Definition memS : Mem := final_mem (inserted 33 33).
Definition liveS : gset Z := list_to_set (node_addr <$> seqZ 0 33).

(** A table of capacity 4 into which records of scenario B are inserted. *)
Definition table_with (l : list Z) : res (HTab * Mem) :=
  (let* t := HTab.init 4 in tab_insert_all t l) scenarioB_mem.

(** * Lemmas *)

(** ** Runs *)

Section outcome.
Context {A B : Type}.
Implicit Types (E : Prop) (mem : Mem).

Lemma outcome_bind (c : M A) (k : A → M B) mem E
    (P : A * Mem → Prop) (Q : B * Mem → Prop) :
  outcome (c mem) E P →
  (∀ a mem', P (a, mem') → outcome (k a mem') E Q) →
  outcome (bind c k mem) E Q.
Proof.
  unfold bind. destruct (c mem) as [[a mem']| |]; simpl; auto.
Qed.

Lemma outcome_weaken (r : res A) E E' (P Q : A → Prop) :
  outcome r E' P → (E → E') → (∀ a, P a → Q a) → outcome r E Q.
Proof. destruct r; simpl; auto. Qed.

Lemma outcome_total (r : res A) E (P : A → Prop) :
  outcome r E P → E → ∃ a, r = Ok a ∧ P a.
Proof. destruct r; simpl; [eauto|done..]. Qed.

Lemma bind_Ok (c : M A) (k : A → M B) mem a mem' :
  c mem = Ok (a, mem') → bind c k mem = k a mem'.
Proof. unfold bind. by intros ->. Qed.

End outcome.

(** ** Lists of chains *)

Lemma concat_insert_perm {A} (cs : list (list A)) i c c' :
  cs !! i = Some c →
  ∃ rest, concat cs ≡ₚ c ++ rest ∧ concat (<[i:=c']> cs) ≡ₚ c' ++ rest.
Proof.
  intros Hi. exists (concat (take i cs) ++ concat (drop (S i) cs)).
  pose proof (lookup_lt_Some _ _ _ Hi) as Hlt.
  rewrite insert_take_drop by done.
  rewrite <- (take_drop_middle cs i c Hi) at 1.
  rewrite !concat_app. simpl.
  split.
  - by rewrite !app_assoc, (Permutation_app_comm (concat (take i cs)) c).
  - by rewrite !app_assoc, (Permutation_app_comm (concat (take i cs)) c').
Qed.

Lemma elem_of_concat {A} (cs : list (list A)) a :
  a ∈ concat cs ↔ ∃ c, c ∈ cs ∧ a ∈ c.
Proof.
  induction cs as [|c cs IH]; simpl.
  - split; [by intros ?%elem_of_nil|by intros (c & ?%elem_of_nil & _)].
  - rewrite elem_of_app, IH. split.
    + intros [Ha|(c' & Hc' & Ha)]; [exists c|exists c'];
        (split; [apply elem_of_cons; auto|done]).
    + intros (c' & [->|Hc']%elem_of_cons & Ha); eauto.
Qed.

Lemma elem_of_concat_lookup {A} (cs : list (list A)) a :
  a ∈ concat cs ↔ ∃ i c, cs !! i = Some c ∧ a ∈ c.
Proof.
  rewrite elem_of_concat. split.
  - intros (c & Hc & Ha). apply list_elem_of_lookup in Hc as [i Hi]. eauto.
  - intros (i & c & Hi & Ha). exists c. split; [|done].
    apply list_elem_of_lookup. eauto.
Qed.

(** ** Segments *)

Lemma lseg_frame nd nd' p l q :
  (∀ a, a ∈ l → nd' !! a = nd !! a) → lseg nd p l q → lseg nd' p l q.
Proof.
  revert p. induction l as [|a l IH]; simpl; [done|].
  intros p Hfr (-> & Hnz & n & Hn & Hc). split_and!; [done..|].
  exists n. split.
  - rewrite Hfr; [done|]. apply elem_of_cons; auto.
  - apply IH; [|done]. intros b Hb. apply Hfr, elem_of_cons; auto.
Qed.

Lemma lseg_app nd p l1 l2 r :
  lseg nd p (l1 ++ l2) r ↔ ∃ q, lseg nd p l1 q ∧ lseg nd q l2 r.
Proof.
  revert p. induction l1 as [|a l1 IH]; simpl; intros p.
  - split; [eauto|]. by intros (q & -> & ?).
  - split.
    + intros (-> & Hnz & n & Hn & (q & H1 & H2)%IH). exists q. eauto 10.
    + intros (q & (-> & Hnz & n & Hn & H1) & H2). split_and!; [done..|].
      exists n. split; [done|]. apply IH; eauto.
Qed.

Lemma lseg_valid nd p l q a :
  lseg nd p l q → a ∈ l → a ≠ 0 ∧ is_Some (nd !! a).
Proof.
  revert p. induction l as [|b l IH]; simpl; intros p Hc Ha.
  - by apply elem_of_nil in Ha.
  - destruct Hc as (-> & Hnz & n & Hn & Hc).
    apply elem_of_cons in Ha as [->|Ha]; [eauto|].
    by eapply IH.
Qed.

(** ** Machine integers *)

Lemma wrap_small z : 0 ≤ z < 2 ^ 64 → wrap z = z.
Proof. intros. unfold wrap. by apply Z.mod_small. Qed.

Lemma land_mask_range hc m : 0 ≤ m → 0 ≤ Z.land hc m ≤ m.
Proof.
  intros Hm. split; [apply Z.land_nonneg; auto|].
  assert (Z.ldiff (Z.land hc m) m = 0) as Hd.
  { apply Z.bits_inj'. intros n Hn.
    rewrite Z.ldiff_spec, Z.land_spec, Z.bits_0.
    by destruct (Z.testbit hc n), (Z.testbit m n). }
  pose proof (Z.sub_nocarry_ldiff _ _ Hd) as Hs.
  assert (0 ≤ Z.ldiff m (Z.land hc m)) by (apply Z.ldiff_nonneg; auto).
  lia.
Qed.

(** ** Memory updates *)

Lemma mem_update_dom mem mem' touched base a :
  mem_update mem mem' touched base →
  is_Some (nodes mem' !! a) ↔ is_Some (nodes mem !! a).
Proof.
  intros H. rewrite <- !(fmap_is_Some hcode). by rewrite (upd_hcode _ _ _ _ H).
Qed.

(** ** Representation and frames *)

Lemma tab_rep_frame mem mem' t cs :
  tab_rep mem t cs →
  arrays mem' !! tab t = arrays mem !! tab t →
  (∀ a, a ∈ concat cs → nodes mem' !! a = nodes mem !! a) →
  tab_rep mem' t cs.
Proof.
  intros [Ht (slots & Hs & Hch) Hcap Hm Hsz Hlt Hhome] Harr Hnd. split; try done.
  - exists slots. split; [congruence|].
    apply Forall2_same_length_lookup. split; [by eapply Forall2_length|].
    intros i p c Hp Hc. eapply lseg_frame.
    + intros a Ha. apply Hnd, elem_of_concat_lookup. eauto.
    + exact (Forall2_lookup_lr _ _ _ _ _ _ Hch Hp Hc).
  - intros i c a Hc Ha. destruct (Hhome i c a Hc Ha) as (n & Hn & Hpos).
    exists n. split; [|done]. rewrite Hnd; [done|].
    apply elem_of_concat_lookup. eauto.
Qed.

Lemma tab_rep_update mem mem' touched base t cs :
  tab_rep mem t cs → mem_update mem mem' touched base →
  tab t ≠ base → (∀ a, a ∈ touched → a ∉ concat cs) →
  tab_rep mem' t cs.
Proof.
  intros Hrep Hupd Hb Ht. eapply tab_rep_frame; [done|..].
  - by apply (upd_arrays _ _ _ _ Hupd).
  - intros a Ha. apply (upd_nodes _ _ _ _ Hupd). intros Hin. by eapply Ht.
Qed.

Lemma table_ok_update mem mem' touched base t cs :
  table_ok mem t cs → mem_update mem mem' touched base →
  tab t ≠ base → (∀ a, a ∈ touched → a ∉ concat cs) →
  table_ok mem' t cs.
Proof.
  intros [?|Hrep] ???; [by left|right]. by eapply tab_rep_update.
Qed.

Lemma tab_rep_slot mem t cs i c :
  tab_rep mem t cs → cs !! i = Some c →
  ∃ slots p, arrays mem !! tab t = Some slots ∧ slots !! i = Some p ∧
    chain (nodes mem) p c ∧ length slots = length cs.
Proof.
  intros [_ (slots & Hs & Hch) _ _ _ _ _] Hc.
  destruct (Forall2_lookup_r _ _ _ _ _ Hch Hc) as (p & Hp & Hpc).
  exists slots, p. split_and!; try done. by eapply Forall2_length.
Qed.

Lemma tab_rep_position mem t cs hc :
  tab_rep mem t cs →
  0 ≤ HTab.get_position t hc ≤ mask t ∧
  is_Some (cs !! Z.to_nat (HTab.get_position t hc)).
Proof.
  intros Hrep. pose proof (rep_cap _ _ _ Hrep) as Hcap.
  pose proof (rep_mask _ _ _ Hrep) as Hmask.
  pose proof (land_mask_range hc (mask t)). unfold HTab.get_position.
  split; [lia|]. apply lookup_lt_is_Some. lia.
Qed.

Lemma NoDup_concat_lookup {A} (cs : list (list A)) i j c c' x :
  NoDup (concat cs) → cs !! i = Some c → cs !! j = Some c' → i ≠ j →
  x ∈ c → x ∉ c'.
Proof.
  intros Hnd Hi Hj Hij Hx Hx'.
  destruct (concat_insert_perm cs i c [] Hi) as (rest & H1 & H2).
  rewrite H1 in Hnd. apply list.NoDup_app in Hnd as (_ & Hdisj & _).
  apply (Hdisj x Hx). simpl in H2. rewrite <- H2.
  apply elem_of_concat_lookup. exists j, c'. split; [|done].
  by rewrite list_lookup_insert_ne.
Qed.

Lemma length_concat_insert {A} (cs : list (list A)) i c c' :
  cs !! i = Some c →
  (length (concat (<[i:=c']> cs)) + length c = length (concat cs) + length c')%nat.
Proof.
  intros Hi. destruct (concat_insert_perm cs i c c' Hi) as (rest & H1 & H2).
  rewrite H1, H2, !length_app. lia.
Qed.

(** Rebuilding the representation after slot [i] got a new chain. *)
Lemma tab_rep_set_slot mem mem' t t' cs i c c' slots p' :
  tab_rep mem t cs → cs !! i = Some c →
  arrays mem !! tab t = Some slots →
  arrays mem' !! tab t = Some (<[i:=p']> slots) →
  chain (nodes mem') p' c' →
  (∀ j cj a, j ≠ i → cs !! j = Some cj → a ∈ cj →
     nodes mem' !! a = nodes mem !! a) →
  (∀ a, a ∈ c' →
     ∃ n, nodes mem' !! a = Some n ∧ HTab.get_position t (hcode n) = Z.of_nat i) →
  tab t' = tab t → mask t' = mask t →
  size t' = Z.of_nat (length (concat (<[i:=c']> cs))) → size t' < 2 ^ 64 →
  tab_rep mem' t' (<[i:=c']> cs).
Proof.
  intros [Ht (slots0 & Hs & Hch) Hcap Hm Hsz Hszlt Hhome] Hi Hs' Harr Hc' Hfr Hhome'
    Etab Emask Esize Esizelt.
  assert (slots0 = slots) as -> by congruence.
  assert (length slots = length cs) as Hlen by (by eapply Forall2_length).
  split.
  - congruence.
  - exists (<[i:=p']> slots). split; [congruence|].
    apply Forall2_same_length_lookup. split.
    { by rewrite !length_insert. }
    intros j p cj Hp Hcj. destruct (decide (j = i)) as [->|Hne].
    + pose proof (lookup_lt_Some _ _ _ Hi) as Hlt.
      rewrite list_lookup_insert_eq in Hcj by done.
      rewrite list_lookup_insert_eq in Hp by lia.
      by simplify_eq.
    + rewrite list_lookup_insert_ne in Hcj by done.
      rewrite list_lookup_insert_ne in Hp by done.
      eapply lseg_frame; [|exact (Forall2_lookup_lr _ _ _ _ _ _ Hch Hp Hcj)].
      intros a Ha. by eapply Hfr.
  - rewrite length_insert. congruence.
  - congruence.
  - done.
  - done.
  - intros j cj a Hcj Ha. destruct (decide (j = i)) as [->|Hne].
    + pose proof (lookup_lt_Some _ _ _ Hi) as Hlt.
      rewrite list_lookup_insert_eq in Hcj by done. simplify_eq.
      destruct (Hhome' a Ha) as (n & Hn & Hp). exists n.
      split; [done|]. unfold HTab.get_position in *. by rewrite Emask.
    + rewrite list_lookup_insert_ne in Hcj by done.
      destruct (Hhome j cj a Hcj Ha) as (n & Hn & Hp). exists n.
      split; [by erewrite Hfr|]. unfold HTab.get_position in *. by rewrite Emask.
Qed.

(** ** HTab::init *)

Lemma HTab_init_Ok n mem t mem' :
  HTab.init n mem = Ok (t, mem') →
  0 < n ∧
  t = {| tab := fresh ({[0]} ∪ dom (arrays mem)); mask := wrap (n - 1); size := 0 |} ∧
  mem' = {| nodes := nodes mem;
            arrays := <[tab t := replicate (Z.to_nat n) 0]> (arrays mem) |}.
Proof.
  unfold HTab.init, bind, assert, calloc, ret, abort.
  destruct (bool_decide (0 < n)) eqn:Hn; simpl; [|done].
  destruct (Z.land (wrap (n - 1)) n =? 0); simpl; [|done].
  intros [= <- <-]. apply bool_decide_eq_true in Hn. done.
Qed.

Lemma HTab_init_rep n mem t mem' :
  HTab.init n mem = Ok (t, mem') → n < 2 ^ 64 →
  tab_rep mem' t (replicate (Z.to_nat n) []) ∧
  tab t ≠ 0 ∧ arrays mem !! tab t = None ∧ mask t = n - 1 ∧ size t = 0 ∧
  mem_update mem mem' [] (tab t).
Proof.
  intros (Hn & -> & ->)%HTab_init_Ok Hlt. simpl.
  set (p := fresh ({[0]} ∪ dom (arrays mem))).
  assert (p ∉ ({[0]} ∪ dom (arrays mem) : gset Z)) as Hp by apply is_fresh.
  apply not_elem_of_union in Hp as [Hp0 Hpd].
  apply not_elem_of_singleton in Hp0. apply not_elem_of_dom in Hpd.
  rewrite wrap_small by lia.
  split_and!; try done.
  - split; simpl; try done.
    + exists (replicate (Z.to_nat n) 0). split; [by rewrite lookup_insert_eq|].
      by apply Forall2_replicate.
    + rewrite length_replicate. lia.
    + lia.
    + clear. induction (Z.to_nat n); simpl; auto.
    + intros i c a [-> _]%lookup_replicate Ha. by apply elem_of_nil in Ha.
  - split; simpl; try done. intros q Hq. by rewrite lookup_insert_ne.
Qed.

(** ** HTab::insert *)

Lemma HTab_insert_spec mem t cs a n :
  tab_rep mem t cs → nodes mem !! a = Some n → a ≠ 0 → a ∉ concat cs →
  Z.of_nat (length (concat cs)) + 1 < 2 ^ 64 →
  ∃ t' mem' c,
    HTab.insert t a mem = Ok (t', mem') ∧
    cs !! Z.to_nat (HTab.get_position t (hcode n)) = Some c ∧
    tab_rep mem' t' (<[Z.to_nat (HTab.get_position t (hcode n)) := a :: c]> cs) ∧
    t' = {| tab := tab t; mask := mask t; size := size t + 1 |} ∧
    mem_update mem mem' [a] (tab t).
Proof.
  intros Hrep Hn Hnz Hfresh Hbound.
  destruct (tab_rep_position mem t cs (hcode n) Hrep) as (Hpos & c & Hc).
  set (i := Z.to_nat (HTab.get_position t (hcode n))) in *.
  destruct (tab_rep_slot _ _ _ _ _ Hrep Hc) as (slots & p & Hs & Hp & Hpc & Hlen).
  pose proof (lookup_lt_Some _ _ _ Hp) as Hlt.
  set (mem' := {| nodes := <[a := {| next := p; hcode := hcode n |}]> (nodes mem);
                  arrays := <[tab t := <[i := a]> slots]> (arrays mem) |}).
  exists {| tab := tab t; mask := mask t; size := size t + 1 |}, mem', c.
  assert (∀ b, b ∈ concat cs → nodes mem' !! b = nodes mem !! b) as Hfr.
  { intros b Hb. simpl. rewrite lookup_insert_ne; [done|]. by intros ->. }
  split_and!; try done.
  - unfold HTab.insert, bind, read_node, read_slot, write_next, write_slot, ret.
    rewrite Hn. simpl. rewrite Hs. fold i. rewrite Hp. simpl. rewrite Hn.
    simpl. rewrite Hs. rewrite decide_True by done.
    rewrite wrap_small; [done|]. rewrite (rep_size _ _ _ Hrep). lia.
  - eapply tab_rep_set_slot; try done.
    + simpl. by rewrite lookup_insert_eq.
    + split_and!; [done..|]. eexists. split; [apply lookup_insert_eq|].
      simpl. eapply lseg_frame; [|exact Hpc].
      intros b Hb. apply Hfr, elem_of_concat_lookup. eauto.
    + intros j cj b _ Hcj Hb. apply Hfr, elem_of_concat_lookup. eauto.
    + intros b [->|Hb]%elem_of_cons.
      * eexists. split; [apply lookup_insert_eq|]. simpl. subst i. lia.
      * destruct (rep_home _ _ _ Hrep _ _ _ Hc Hb) as (nb & Hnb & Hposb).
        exists nb. split; [|done]. rewrite Hfr; [done|].
        apply elem_of_concat_lookup. eauto.
    + simpl. rewrite (rep_size _ _ _ Hrep).
      pose proof (length_concat_insert cs i c (a :: c) Hc). simpl in *. lia.
    + simpl. rewrite (rep_size _ _ _ Hrep). lia.
  - split; simpl.
    + intros b Hb. rewrite lookup_insert_ne; [done|].
      intros ->. apply Hb, list_elem_of_singleton. done.
    + intros b. destruct (decide (b = a)) as [->|Hne].
      * by rewrite lookup_insert_eq, Hn.
      * by rewrite lookup_insert_ne.
    + intros q Hq. by rewrite lookup_insert_ne.
Qed.

(** ** HTab::detach *)

Lemma HTab_detach_spec mem t cs i l1 a l2 :
  tab_rep mem t cs → NoDup (concat cs) → cs !! i = Some (l1 ++ a :: l2) →
  ∃ t' mem',
    HTab.detach t (link_after (SlotRef (tab t) (Z.of_nat i)) l1) mem
      = Ok ((a, t'), mem') ∧
    tab_rep mem' t' (<[i := l1 ++ l2]> cs) ∧
    t' = {| tab := tab t; mask := mask t; size := size t - 1 |} ∧
    mem_update mem mem' l1 (tab t).
Proof.
  intros Hrep Hnd Hc.
  destruct (tab_rep_slot _ _ _ _ _ Hrep Hc) as (slots & p & Hs & Hp & Hpc & Hlen).
  pose proof (lookup_lt_Some _ _ _ Hp) as Hlt.
  pose proof (length_concat_insert cs i _ (l1 ++ l2) Hc) as Hlc.
  rewrite !length_app in Hlc. simpl in Hlc.
  pose proof (rep_size _ _ _ Hrep) as Hsz.
  pose proof (rep_mask _ _ _ Hrep) as Hmask.
  pose proof (rep_size_lt _ _ _ Hrep) as Hsmall.
  unfold chain in Hpc. apply lseg_app in Hpc as (q & Hl1 & Ha).
  destruct Ha as (-> & Hanz & na & Hna & Hl2).
  assert (NoDup (l1 ++ a :: l2)) as Hndc.
  { destruct (concat_insert_perm cs i _ [] Hc) as (rest & H1 & _).
    rewrite H1 in Hnd. by apply list.NoDup_app in Hnd as (? & _). }
  exists {| tab := tab t; mask := mask t; size := size t - 1 |}.
  destruct (list.last l1) as [pred|] eqn:Hlast.
  - apply last_Some in Hlast as (l1' & ->).
    apply lseg_app in Hl1 as (q' & Hl1' & Hpred).
    destruct Hpred as (-> & Hpnz & pn & Hpn & Hnext). simpl in Hnext.
    rewrite <- app_assoc in Hndc. simpl in Hndc.
    apply list.NoDup_app in Hndc as (_ & Hd1 & Hndc).
    apply list.NoDup_cons in Hndc as (Hd2 & Hndc).
    set (mem' := {| nodes := <[pred := {| next := next na; hcode := hcode pn |}]> (nodes mem);
                    arrays := arrays mem |}).
    exists mem'. split_and!; try done.
    + unfold HTab.detach, link_after, bind, load, store, read_node, write_next, ret.
      rewrite last_snoc. unfold bind, read_node, ret.
      rewrite Hpn. simpl. rewrite Hnext, Hna. rewrite Hpn.
      rewrite wrap_small; [done|]. lia.
    + eapply tab_rep_set_slot; try done.
      * simpl. rewrite Hs. f_equal. symmetry. by apply list_insert_id.
      * unfold chain. rewrite <- app_assoc. apply lseg_app. exists pred. split.
        -- eapply lseg_frame; [|exact Hl1']. intros b Hb. simpl.
           rewrite lookup_insert_ne; [done|]. intros ->.
           apply (Hd1 b Hb). apply elem_of_cons; auto.
        -- simpl. split_and!; [done..|]. eexists.
           split; [apply lookup_insert_eq|]. simpl.
           eapply lseg_frame; [|exact Hl2]. intros b Hb.
           rewrite lookup_insert_ne; [done|]. intros ->.
           apply Hd2. apply elem_of_cons; auto.
      * intros j cj b Hj Hcj Hb. simpl. rewrite lookup_insert_ne; [done|].
        intros ->. eapply (NoDup_concat_lookup cs i j); eauto.
        apply elem_of_app. left. apply elem_of_app. right.
        by apply list_elem_of_singleton.
      * intros b Hb.
        assert (b ∈ (l1' ++ [pred]) ++ a :: l2) as Hb'.
        { apply elem_of_app in Hb as [?|?]; apply elem_of_app; auto.
          right. apply elem_of_cons; auto. }
        destruct (rep_home _ _ _ Hrep _ _ _ Hc Hb') as (nb & Hnb & Hposb).
        simpl. destruct (decide (b = pred)) as [->|Hne].
        -- eexists. split; [apply lookup_insert_eq|]. simpl. congruence.
        -- exists nb. by rewrite lookup_insert_ne.
      * simpl. rewrite Hsz. rewrite ?length_app in Hlc. simpl in Hlc. lia.
      * simpl. lia.
    + split; simpl; [| |done].
      * intros b Hb. rewrite lookup_insert_ne; [done|]. intros ->.
        apply Hb. apply elem_of_app. right. by apply list_elem_of_singleton.
      * intros b. destruct (decide (b = pred)) as [->|Hne].
        -- by rewrite lookup_insert_eq, Hpn.
        -- by rewrite lookup_insert_ne.
  - apply last_None in Hlast as ->. simpl in *. subst p.
    set (mem' := {| nodes := nodes mem;
                    arrays := <[tab t := <[i := next na]> slots]> (arrays mem) |}).
    exists mem'. split_and!; try done.
    + unfold HTab.detach, link_after, bind, load, store, read_slot, read_node,
        write_slot, ret. simpl. rewrite Hs, Nat2Z.id, Hp. simpl. rewrite Hna.
      rewrite Hs. rewrite decide_True by done.
      rewrite wrap_small; [done|]. lia.
    + eapply tab_rep_set_slot; try done.
      * simpl. by rewrite lookup_insert_eq.
      * intros b Hb.
        apply (rep_home _ _ _ Hrep _ _ _ Hc). apply elem_of_cons; auto.
      * simpl. rewrite Hsz. lia.
      * simpl. lia.
    + split; simpl; try done. intros q Hq. by rewrite lookup_insert_ne.
Qed.

(** ** HTab::lookup *)

Lemma link_after_cons from a l :
  link_after (NextRef a) l = link_after from (a :: l).
Proof.
  unfold link_after. rewrite (last_cons a l). by destruct (list.last l).
Qed.

Lemma lookup_loop_spec mem key eq kn :
  nodes mem !! key = Some kn →
  ∀ c from p fuel,
    load from mem = Ok (p, mem) → chain (nodes mem) p c →
    outcome (HTab.lookup_loop fuel from key eq mem) (length c < fuel)%nat
      (λ '(r, mem'), mem' = mem ∧
         match r with
         | None => Forall (λ x, hmatch mem key eq x = false) c
         | Some l => ∃ l1 a l2,
             c = l1 ++ a :: l2 ∧
             Forall (λ x, hmatch mem key eq x = false) l1 ∧
             hmatch mem key eq a = true ∧ l = link_after from l1
         end).
Proof.
  intros Hk. induction c as [|a c IH]; intros from p fuel Hload Hc.
  - destruct fuel as [|fuel]; simpl; [lia|].
    rewrite (bind_Ok _ _ _ _ _ Hload). unfold chain in Hc. simpl in Hc. subst p.
    rewrite decide_True by done. simpl. auto.
  - destruct fuel as [|fuel]; simpl; [lia|].
    rewrite (bind_Ok _ _ _ _ _ Hload).
    destruct Hc as (-> & Hnz & n & Hn & Hc).
    rewrite decide_False by done.
    unfold bind at 1, read_node at 1. rewrite Hn.
    unfold bind at 1, read_node at 1. rewrite Hk.
    assert (hmatch mem key eq a = ((hcode n =? hcode kn) && eq a key)) as Hm.
    { unfold hmatch. by rewrite Hn, Hk. }
    destruct ((hcode n =? hcode kn) && eq a key) eqn:Htest.
    + simpl. split; [done|]. exists [], a, c. by split_and!.
    + eapply outcome_weaken.
      * apply (IH (NextRef a) (next n)); [|done].
        unfold load, bind, read_node, ret. by rewrite Hn.
      * simpl. lia.
      * intros [[l|] mem'] [-> Hr]; (split; [done|]).
        -- destruct Hr as (l1 & b & l2 & -> & Hl1 & Hb & ->).
           exists (a :: l1), b, l2. split_and!; try done.
           ++ by constructor.
           ++ apply link_after_cons.
        -- by constructor.
Qed.

Lemma HTab_lookup_spec mem t cs key eq kn fuel :
  tab_rep mem t cs → nodes mem !! key = Some kn →
  ∃ c, cs !! Z.to_nat (HTab.get_position t (hcode kn)) = Some c ∧
  outcome (HTab.lookup fuel t key eq mem) (length c < fuel)%nat
    (λ '(r, mem'), mem' = mem ∧
       match r with
       | None => Forall (λ x, hmatch mem key eq x = false) c
       | Some l => ∃ l1 a l2,
           c = l1 ++ a :: l2 ∧
           Forall (λ x, hmatch mem key eq x = false) l1 ∧
           hmatch mem key eq a = true ∧
           l = link_after (SlotRef (tab t) (HTab.get_position t (hcode kn))) l1
       end).
Proof.
  intros Hrep Hk.
  destruct (tab_rep_position mem t cs (hcode kn) Hrep) as (Hpos & c & Hc).
  exists c. split; [done|].
  destruct (tab_rep_slot _ _ _ _ _ Hrep Hc) as (slots & p & Hs & Hp & Hpc & Hlen).
  unfold HTab.lookup. rewrite decide_False by apply (rep_tab _ _ _ Hrep).
  unfold bind at 1, read_node at 1. rewrite Hk.
  eapply lookup_loop_spec; [done| |done].
  unfold load, read_slot. by rewrite Hs, Hp.
Qed.

(** ** HTab::foreach *)

Lemma visit_list_app {A} (f : Z → A → bool * A) l1 l2 arg :
  visit_list f (l1 ++ l2) arg =
  let '(go, arg') := visit_list f l1 arg in
  if go then visit_list f l2 arg' else (false, arg').
Proof.
  revert arg. induction l1 as [|a l1 IH]; intros arg; simpl.
  - by destruct (visit_list f l2 arg).
  - destruct (f a arg) as [[] arg']; [apply IH|done].
Qed.

Lemma visit_chain_spec {A} mem (f : Z → A → bool * A) c :
  ∀ p fuel arg,
    chain (nodes mem) p c →
    outcome (HTab.visit_chain fuel p f arg mem) (length c < fuel)%nat
      (λ r, r = (visit_list f c arg, mem)).
Proof.
  induction c as [|a c IH]; intros p fuel arg Hc.
  - destruct fuel as [|fuel]; simpl; [lia|].
    unfold chain in Hc. simpl in Hc. subst p.
    by rewrite decide_True.
  - destruct fuel as [|fuel]; simpl; [lia|].
    destruct Hc as (-> & Hnz & n & Hn & Hc).
    rewrite decide_False by done.
    destruct (f a arg) as [[] arg']; [|done].
    unfold bind at 1, read_node at 1. rewrite Hn.
    eapply outcome_weaken; [by apply IH|lia|done].
Qed.

Lemma foreach_loop_spec {A} mem t cs (f : Z → A → bool * A) :
  tab_rep mem t cs → mask t ≠ 0 →
  ∀ fuel i arg,
    (i ≤ length cs)%nat →
    outcome (HTab.foreach_loop fuel t (Z.of_nat i) f arg mem)
      (length cs - i + length (concat cs) < fuel)%nat
      (λ r, r = (visit_list f (concat (drop i cs)) arg, mem)).
Proof.
  intros Hrep Hmask.
  pose proof (rep_cap _ _ _ Hrep) as Hcap.
  pose proof (rep_mask _ _ _ Hrep) as Hm.
  induction fuel as [|fuel IH]; intros i arg Hi; simpl; [lia|].
  replace (mask t =? 0) with false by (symmetry; by apply Z.eqb_neq).
  simpl. destruct (Z.leb_spec (Z.of_nat i) (mask t)) as [Hle|Hgt].
  - destruct (lookup_lt_is_Some_2 cs i) as [c Hc]; [lia|].
    destruct (tab_rep_slot _ _ _ _ _ Hrep Hc) as (slots & p & Hs & Hp & Hpc & _).
    unfold bind at 1, read_slot at 1. rewrite Hs, Nat2Z.id, Hp.
    assert (length c ≤ length (concat cs))%nat as Hlc.
    { destruct (concat_insert_perm cs i c [] Hc) as (rest & -> & _).
      rewrite length_app. lia. }
    eapply outcome_bind.
    { eapply outcome_weaken; [by apply (visit_chain_spec mem f c p (S fuel) arg)| |].
      - lia.
      - intros r Hr. exact Hr. }
    intros [go arg'] mem' [= Hv ->]. simpl.
    rewrite (drop_S _ _ _ Hc). simpl. rewrite visit_list_app, <- Hv.
    destruct go; [|done].
    rewrite wrap_small by lia. replace (Z.of_nat i + 1) with (Z.of_nat (S i)) by lia.
    eapply outcome_weaken; [apply IH; lia|lia|done].
  - rewrite drop_ge by lia. done.
Qed.

Lemma HTab_foreach_spec {A} mem t cs (f : Z → A → bool * A) fuel arg :
  tab_rep mem t cs → mask t ≠ 0 →
  outcome (HTab.foreach fuel t f arg mem)
    (length cs + length (concat cs) < fuel)%nat
    (λ r, r = (visit_list f (concat cs) arg, mem)).
Proof.
  intros Hrep Hmask. unfold HTab.foreach.
  eapply outcome_weaken.
  - apply (foreach_loop_spec mem t cs f Hrep Hmask fuel 0%nat arg). lia.
  - lia.
  - done.
Qed.

Lemma HTab_foreach_null {A} mem (f : Z → A → bool * A) fuel arg :
  outcome (HTab.foreach fuel HTab0 f arg mem) (0 < fuel)%nat
    (λ r, r = (true, arg, mem)).
Proof. destruct fuel; simpl; [lia|done]. Qed.

(** The traversal order of an initialised table with a non-zero mask: slot
    by slot, and in a slot the node inserted last comes first. *)
Lemma foreach_after_insert {A} mem t cs a n (f : Z → A → bool * A) fuel arg :
  tab_rep mem t cs → mask t ≠ 0 →
  nodes mem !! a = Some n → a ≠ 0 → a ∉ concat cs →
  Z.of_nat (length (concat cs)) + 1 < 2 ^ 64 →
  ∃ t' mem' c,
    HTab.insert t a mem = Ok (t', mem') ∧
    cs !! Z.to_nat (HTab.get_position t (hcode n)) = Some c ∧
    outcome (HTab.foreach fuel t' f arg mem')
      (length cs + S (length (concat cs)) < fuel)%nat
      (λ r, r = (visit_list f
                   (concat (<[Z.to_nat (HTab.get_position t (hcode n)) := a :: c]> cs))
                   arg, mem')).
Proof.
  intros Hrep Hmask Hn Hnz Hfresh Hbound.
  destruct (HTab_insert_spec mem t cs a n Hrep Hn Hnz Hfresh Hbound)
    as (t' & mem' & c & Hins & Hc & Hrep' & Et' & _).
  exists t', mem', c. split_and!; [done..|].
  assert (mask t' ≠ 0) as Hmask' by (by subst t').
  eapply outcome_weaken;
    [by apply (HTab_foreach_spec mem' t' _ f fuel arg Hrep' Hmask')| |done].
  pose proof (length_concat_insert cs _ c (a :: c) Hc) as Hl. simpl in Hl.
  rewrite length_insert. lia.
Qed.

(** ** The map invariant *)

Lemma NoDup_bounded_length (l : list Z) B :
  NoDup l → (∀ a, a ∈ l → 0 < a < B) → Z.of_nat (length l) ≤ Z.max 0 (B - 1).
Proof.
  intros Hnd Hr.
  assert (l ⊆+ seqZ 1 (B - 1)) as Hsub.
  { apply NoDup_submseteq; [done|]. intros a Ha. apply elem_of_seqZ.
    specialize (Hr a Ha). lia. }
  apply submseteq_length in Hsub. rewrite length_seqZ in Hsub. lia.
Qed.

Lemma table_ok_valid mem t cs a :
  table_ok mem t cs → a ∈ concat cs → a ≠ 0 ∧ is_Some (nodes mem !! a).
Proof.
  intros [[_ ->]|Hrep] Ha; [by apply elem_of_nil in Ha|].
  apply elem_of_concat_lookup in Ha as (i & c & Hc & Ha).
  destruct (tab_rep_slot _ _ _ _ _ Hrep Hc) as (slots & p & _ & _ & Hpc & _).
  by eapply lseg_valid.
Qed.

Lemma Inv_valid mem m csN csO a :
  Inv mem m csN csO → a ∈ concat csN ++ concat csO →
  0 < a < 2 ^ 64 ∧ is_Some (nodes mem !! a).
Proof.
  intros HI Ha.
  assert (is_Some (nodes mem !! a)) as [n Hn].
  { apply elem_of_app in Ha as [Ha|Ha].
    - by eapply table_ok_valid; [apply (inv_newer _ _ _ _ HI)|].
    - by eapply table_ok_valid; [apply (inv_older _ _ _ _ HI)|]. }
  split; [|eauto]. by eapply inv_addr.
Qed.

Lemma Inv_bound mem m csN csO :
  Inv mem m csN csO →
  Z.of_nat (length (concat csN ++ concat csO)) ≤ 2 ^ 64 - 1.
Proof.
  intros HI.
  pose proof (NoDup_bounded_length _ (2 ^ 64) (inv_nodup _ _ _ _ HI)) as H.
  etrans; [apply H|lia]. intros a Ha. by eapply Inv_valid.
Qed.

Lemma Inv_bound_fresh mem m csN csO a n :
  Inv mem m csN csO → nodes mem !! a = Some n → a ∉ concat csN ++ concat csO →
  Z.of_nat (length (concat csN ++ concat csO)) + 1 ≤ 2 ^ 64 - 1.
Proof.
  intros HI Hn Ha.
  assert (NoDup (a :: concat csN ++ concat csO)) as Hnd.
  { apply list.NoDup_cons. split; [done|]. apply (inv_nodup _ _ _ _ HI). }
  pose proof (NoDup_bounded_length _ (2 ^ 64) Hnd) as H. simpl length in H.
  etrans; [|etrans; [apply H|lia]]; [lia|].
  intros b [->|Hb]%elem_of_cons.
  - by eapply inv_addr.
  - by eapply Inv_valid.
Qed.

Lemma table_ok_size mem t cs :
  table_ok mem t cs → size t = Z.of_nat (length (concat cs)).
Proof. intros [[-> ->]|Hrep]; [done|]. apply (rep_size _ _ _ Hrep). Qed.

Lemma table_ok_rep mem t cs : table_ok mem t cs → tab t ≠ 0 → tab_rep mem t cs.
Proof. by intros [[-> ->]|Hrep] Ht. Qed.

Lemma table_ok_null mem t cs : table_ok mem t cs → tab t = 0 → t = HTab0 ∧ cs = [].
Proof.
  intros [?|Hrep] Ht; [done|]. by destruct (rep_tab _ _ _ Hrep).
Qed.

Lemma Inv_size mem m csN csO :
  Inv mem m csN csO →
  size (newer m) + size (older m) = Z.of_nat (length (concat csN ++ concat csO)) ∧
  HMap.size m = size (newer m) + size (older m).
Proof.
  intros HI. pose proof (Inv_bound _ _ _ _ HI) as Hb.
  rewrite (table_ok_size _ _ _ (inv_newer _ _ _ _ HI)).
  rewrite (table_ok_size _ _ _ (inv_older _ _ _ _ HI)).
  unfold HMap.size.
  rewrite (table_ok_size _ _ _ (inv_newer _ _ _ _ HI)).
  rewrite (table_ok_size _ _ _ (inv_older _ _ _ _ HI)).
  rewrite length_app in *. split; [lia|]. apply wrap_small. lia.
Qed.

Lemma Inv_migrating mem m csN csO :
  Inv mem m csN csO → tab (older m) ≠ 0 →
  tab_rep mem (newer m) csN ∧ tab_rep mem (older m) csO ∧
  tab (newer m) ≠ tab (older m).
Proof.
  intros HI Ho. split_and!.
  - apply table_ok_rep; [apply (inv_newer _ _ _ _ HI)|].
    intros Hn. by apply (inv_first _ _ _ _ HI) in Hn.
  - apply table_ok_rep; [apply (inv_older _ _ _ _ HI)|done].
  - by apply (inv_tabs _ _ _ _ HI).
Qed.

Lemma Inv_older_tab mem m csN csO :
  Inv mem m csN csO → 0 < size (older m) → tab (older m) ≠ 0.
Proof.
  intros HI Hs Ht.
  destruct (table_ok_null _ _ _ (inv_older _ _ _ _ HI) Ht) as [Ho _].
  rewrite Ho in Hs. simpl in Hs. lia.
Qed.

(** While the retiring table holds a node, the cursor has not passed it. *)
Lemma Inv_cursor_slot mem m csN csO :
  Inv mem m csN csO → tab (older m) ≠ 0 →
  ∃ c, csO !! Z.to_nat (migrate_pos m) = Some c.
Proof.
  intros HI Ho. destruct (Inv_migrating _ _ _ _ HI Ho) as (_ & HrO & _).
  pose proof (rep_cap _ _ _ HrO). pose proof (inv_cursor _ _ _ _ HI).
  pose proof (inv_cursor_le _ _ _ _ HI Ho).
  apply lookup_lt_is_Some. lia.
Qed.

Lemma Inv_cursor_next mem m csN csO :
  Inv mem m csN csO → 0 < size (older m) →
  csO !! Z.to_nat (migrate_pos m) = Some [] →
  migrate_pos m + 1 ≤ mask (older m).
Proof.
  intros HI Hs Hc.
  pose proof (Inv_older_tab _ _ _ _ HI Hs) as Ho.
  destruct (Inv_migrating _ _ _ _ HI Ho) as (_ & HrO & _).
  pose proof (rep_cap _ _ _ HrO) as Hcap.
  pose proof (inv_cursor _ _ _ _ HI) as Hcur.
  rewrite (rep_size _ _ _ HrO) in Hs.
  destruct (concat csO) as [|a l] eqn:Hcat; [simpl in Hs; lia|].
  assert (a ∈ concat csO) as Ha by (rewrite Hcat; apply elem_of_cons; auto).
  apply elem_of_concat_lookup in Ha as (j & cj & Hj & Ha).
  pose proof (lookup_lt_Some _ _ _ Hj) as Hjlt.
  destruct (decide (j < Z.to_nat (migrate_pos m))%nat) as [Hlt|Hge].
  { rewrite (inv_drained _ _ _ _ HI j cj Hlt Hj) in Ha.
    by apply elem_of_nil in Ha. }
  destruct (decide (j = Z.to_nat (migrate_pos m))) as [->|Hne].
  { rewrite Hc in Hj. simplify_eq. by apply elem_of_nil in Ha. }
  lia.
Qed.

Lemma evolves_refl mem m csN csO :
  Inv mem m csN csO → evolves mem m csN csO mem m csN csO.
Proof. intros. split; try done. Qed.

Lemma evolves_trans mem m csN csO mem1 m1 csN1 csO1 mem2 m2 csN2 csO2 :
  evolves mem m csN csO mem1 m1 csN1 csO1 →
  evolves mem1 m1 csN1 csO1 mem2 m2 csN2 csO2 →
  evolves mem m csN csO mem2 m2 csN2 csO2.
Proof.
  intros [] []. split; try done; try congruence.
  - etrans; eauto.
  - lia.
Qed.

(** ** One iteration of the migration loop *)

Lemma help_body_spec mem m csN csO nwork :
  Inv mem m csN csO → 0 < size (older m) → 0 ≤ nwork < kRehasingWork →
  ∃ c, csO !! Z.to_nat (migrate_pos m) = Some c ∧
  match c with
  | [] =>
      let m' := {| newer := newer m; older := older m;
                   migrate_pos := migrate_pos m + 1 |} in
      HMap.help_body m nwork mem = Ok ((m', nwork), mem) ∧
      evolves mem m csN csO mem m' csN csO
  | a :: c' =>
      ∃ n cN m' mem',
        nodes mem !! a = Some n ∧
        csN !! Z.to_nat (HTab.get_position (newer m) (hcode n)) = Some cN ∧
        HMap.help_body m nwork mem = Ok ((m', nwork + 1), mem') ∧
        evolves mem m csN csO mem' m'
          (<[Z.to_nat (HTab.get_position (newer m) (hcode n)) := a :: cN]> csN)
          (<[Z.to_nat (migrate_pos m) := c']> csO) ∧
        migrate_pos m' = migrate_pos m ∧
        size (older m') = size (older m) - 1 ∧
        size (newer m') = size (newer m) + 1
  end.
Proof.
  intros HI Hs Hw.
  pose proof (Inv_older_tab _ _ _ _ HI Hs) as Ho.
  destruct (Inv_migrating _ _ _ _ HI Ho) as (HrN & HrO & Hne).
  destruct (Inv_cursor_slot _ _ _ _ HI Ho) as [c Hc].
  pose proof (inv_cursor _ _ _ _ HI) as Hcur.
  exists c. split; [done|].
  destruct (tab_rep_slot _ _ _ _ _ HrO Hc) as (slots & p & Hsl & Hp & Hpc & Hlen).
  destruct c as [|a c'].
  - pose proof (Inv_cursor_next _ _ _ _ HI Hs Hc) as Hnext.
    pose proof (rep_mask _ _ _ HrO) as Hmask.
    unfold chain in Hpc. simpl in Hpc. subst p. split.
    + unfold HMap.help_body, load, bind, read_slot, ret. rewrite Hsl, Hp.
      rewrite decide_True by done. by rewrite wrap_small by lia.
    + split; simpl; try done; [|lia].
      destruct HI. split; simpl; try done; try lia.
      intros i c Hi Hic. destruct (decide (i = Z.to_nat (migrate_pos m))) as [->|?].
      * congruence.
      * apply (inv_drained0 i c); [lia|done].
  - destruct Hpc as (-> & Hanz & n & Hn & Hc').
    assert (a ∈ concat csO) as HaO.
    { apply elem_of_concat_lookup. exists (Z.to_nat (migrate_pos m)), (a :: c').
      split; [done|]. apply elem_of_cons; auto. }
    pose proof (inv_nodup _ _ _ _ HI) as Hnd.
    apply list.NoDup_app in Hnd as (HndN & Hdisj & HndO).
    assert (a ∉ concat csN) as HaN by (intros HaN; by apply (Hdisj a)).
    (* detach the head of the slot under the cursor *)
    destruct (HTab_detach_spec mem (older m) csO _ [] a c' HrO HndO Hc)
      as (o' & mem1 & Hdet & HrO1 & Eo' & Hupd1).
    unfold link_after in Hdet. simpl in Hdet. rewrite Z2Nat.id in Hdet by lia.
    pose proof (tab_rep_update _ _ _ _ _ _ HrN Hupd1 Hne
                  ltac:(by intros ? ?%elem_of_nil)) as HrN1.
    assert (nodes mem1 !! a = Some n) as Hn1.
    { rewrite (upd_nodes _ _ _ _ Hupd1); [done|]. by intros ?%elem_of_nil. }
    (* and push it on the active table *)
    pose proof (Inv_bound _ _ _ _ HI) as Hbound.
    destruct (concat_insert_perm csO _ _ c' Hc) as (restO & HpO & HpO').
    assert (Z.of_nat (length (concat csN)) + 1 < 2 ^ 64) as HboundN.
    { rewrite length_app, HpO, length_app in Hbound. simpl in Hbound. lia. }
    destruct (HTab_insert_spec mem1 (newer m) csN a n HrN1 Hn1 Hanz HaN HboundN)
      as (n' & mem2 & cN & Hins & HcN & HrN2 & En' & Hupd2).
    exists n, cN, {| newer := n'; older := o'; migrate_pos := migrate_pos m |}, mem2.
    destruct (concat_insert_perm csN _ _ (a :: cN) HcN) as (restN & HpN & HpN').
    assert (a ∉ c' ++ restO) as HaO'.
    { rewrite HpO in HndO. simpl in HndO. by apply list.NoDup_cons in HndO as []. }
    assert (concat (<[Z.to_nat (HTab.get_position (newer m) (hcode n)) := a :: cN]> csN) ++
            concat (<[Z.to_nat (migrate_pos m) := c']> csO)
            ≡ₚ concat csN ++ concat csO) as Hperm.
    { rewrite HpN', HpO', HpN, HpO. simpl.
      rewrite <- !app_assoc. simpl. rewrite <- !Permutation_middle. done. }
    split_and!; try done.
    + unfold HMap.help_body, load, bind, read_slot, ret. rewrite Hsl, Hp.
      rewrite decide_False by done.
      unfold bind in Hdet. rewrite Hdet. rewrite Hins.
      by rewrite wrap_small by (unfold kRehasingWork in *; lia).
    + assert (tab_rep mem2 o' (<[Z.to_nat (migrate_pos m) := c']> csO)) as HrO2.
      { eapply tab_rep_update; [exact HrO1|exact Hupd2| |].
        - subst o'. simpl. congruence.
        - intros b ->%list_elem_of_singleton. by rewrite HpO'. }
      split; simpl; try (subst n' o'; simpl; done || lia).
      * split; simpl.
        -- intros b nb Hb.
           assert (is_Some (nodes mem !! b)) as [nb' Hb'].
           { rewrite <- (mem_update_dom _ _ _ _ b Hupd1).
             rewrite <- (mem_update_dom _ _ _ _ b Hupd2). eauto. }
           by eapply inv_addr.
        -- by right.
        -- by right.
        -- subst n'. simpl. intros Hz. by destruct (rep_tab _ _ _ HrN).
        -- subst n' o'. simpl. done.
        -- rewrite Hperm. apply (inv_nodup _ _ _ _ HI).
        -- subst n'. simpl. intros _. unfold pow2_cap. simpl.
           apply (inv_capN _ _ _ _ HI). apply (rep_tab _ _ _ HrN).
        -- subst o'. simpl. intros _. unfold pow2_cap. simpl.
           by apply (inv_capO _ _ _ _ HI).
        -- done.
        -- subst o'. simpl. intros _. by apply (inv_cursor_le _ _ _ _ HI).
        -- intros i c Hi Hic. rewrite list_lookup_insert_ne in Hic by lia.
           by eapply (inv_drained _ _ _ _ HI).
      * intros b. rewrite (upd_hcode _ _ _ _ Hupd2). apply (upd_hcode _ _ _ _ Hupd1).
    + by subst o'.
    + by subst n'.
Qed.

(** ** The migration loop *)

Lemma Inv_older_size mem m csN csO : Inv mem m csN csO → 0 ≤ size (older m).
Proof.
  intros HI. rewrite (table_ok_size _ _ _ (inv_older _ _ _ _ HI)). lia.
Qed.

Lemma help_loop_spec fuel :
  ∀ mem m csN csO nwork,
    Inv mem m csN csO → 0 ≤ nwork ≤ kRehasingWork →
    outcome (HMap.help_loop fuel m nwork mem) (help_bound m nwork ≤ Z.of_nat fuel)
      (λ '(m', mem'), ∃ csN' csO',
         evolves mem m csN csO mem' m' csN' csO' ∧
         let k := Z.min (kRehasingWork - nwork) (size (older m)) in
         size (older m') = size (older m) - k ∧
         size (newer m') = size (newer m) + k).
Proof.
  induction fuel as [|fuel IH]; intros mem m csN csO nwork HI Hw.
  { simpl. unfold help_bound. lia. }
  pose proof (Inv_older_size _ _ _ _ HI) as Hs0.
  simpl.
  destruct (Z.ltb_spec nwork kRehasingWork) as [Hlt|Hge];
    [destruct (Z.ltb_spec 0 (size (older m))) as [Hs|Hs]|]; simpl.
  - destruct (help_body_spec mem m csN csO nwork HI Hs ltac:(lia)) as (c & Hc & Hbody).
    destruct c as [|a c'].
    + destruct Hbody as [Hrun Hev]. rewrite (bind_Ok _ _ _ _ _ Hrun).
      pose proof (Inv_cursor_next _ _ _ _ HI Hs Hc) as Hnext.
      eapply outcome_weaken.
      * apply (IH _ _ csN csO); [apply (ev_inv _ _ _ _ _ _ _ _ Hev)|done].
      * unfold help_bound. simpl. lia.
      * intros [m' mem'] (csN' & csO' & Hev' & Hso & Hsn). simpl in *.
        exists csN', csO'. split_and!; [|done..].
        by eapply evolves_trans.
    + destruct Hbody as (n & cN & m1 & mem1 & Hn & HcN & Hrun & Hev & Hpos & Hso1 & Hsn1).
      rewrite (bind_Ok _ _ _ _ _ Hrun).
      eapply outcome_weaken.
      * apply (IH _ _ _ _ (nwork + 1) (ev_inv _ _ _ _ _ _ _ _ Hev)). lia.
      * unfold help_bound. rewrite Hpos, (ev_older_mask _ _ _ _ _ _ _ _ Hev). lia.
      * intros [m' mem'] (csN' & csO' & Hev' & Hso & Hsn). simpl in *.
        exists csN', csO'. split_and!; [by eapply evolves_trans|lia|lia].
  - exists csN, csO. split; [by apply evolves_refl|]. simpl. lia.
  - exists csN, csO. split; [by apply evolves_refl|]. simpl. lia.
Qed.

Lemma concat_nil_of_length {A} (cs : list (list A)) :
  length (concat cs) = 0%nat → concat cs = [].
Proof. by destruct (concat cs). Qed.

Lemma help_rehashing_spec fuel mem m csN csO :
  Inv mem m csN csO →
  outcome (HMap.help_rehashing fuel m mem) (help_bound m 0 ≤ Z.of_nat fuel)
    (λ '(m', mem'), ∃ csN' csO', migrated mem m csN csO mem' m' csN' csO').
Proof.
  intros HI. unfold HMap.help_rehashing.
  pose proof (Inv_older_size _ _ _ _ HI) as Hs0.
  eapply outcome_bind.
  { apply (help_loop_spec fuel mem m csN csO 0 HI). unfold kRehasingWork. lia. }
  intros m1 mem1 (csN1 & csO1 & Hev & Hso & Hsn). simpl in Hso, Hsn.
  rewrite Z.sub_0_r in Hso, Hsn.
  pose proof (ev_inv _ _ _ _ _ _ _ _ Hev) as HI1.
  destruct (Z.eqb_spec (size (older m1)) 0) as [Hz|Hnz]; simpl;
    [destruct (Z.eqb_spec (tab (older m1)) 0) as [Ht|Ht]; simpl|].
  - (* nothing was retiring *)
    destruct (table_ok_null _ _ _ (inv_older _ _ _ _ HI1) Ht) as [Ho1 ->].
    exists csN1, []. destruct Hev. split; try done; try lia.
    intros _. split_and!; [done..|]. congruence.
  - (* the retiring table is drained: free it *)
    destruct (Inv_migrating _ _ _ _ HI1 Ht) as (HrN & HrO & Hne).
    destruct (rep_slots _ _ _ HrO) as (slots & Hsl & _).
    unfold bind at 1, free at 1. rewrite decide_False by done. rewrite Hsl. simpl.
    set (mem' := {| nodes := nodes mem1; arrays := delete (tab (older m1)) (arrays mem1) |}).
    assert (concat csO1 = []) as HcO.
    { apply concat_nil_of_length. pose proof (rep_size _ _ _ HrO). lia. }
    exists csN1, []. destruct Hev. split; simpl; try done; try lia.
    + destruct HI1. split; simpl; try done.
      * right. eapply tab_rep_frame; [exact HrN| |done].
        simpl. by rewrite lookup_delete_ne.
      * by left.
      * by rewrite HcO in inv_nodup0.
    + by rewrite HcO in ev_perm0.
    + intros _. split_and!; [done..|]. intros _. rewrite <- ev_older_tab0.
      apply lookup_delete_eq.
  - exists csN1, csO1. destruct Hev. split; simpl; try done; try lia.
Qed.

Lemma bind_Ok_inv {A B} (c : M A) (k : A → M B) mem r :
  bind c k mem = Ok r → ∃ a mem', c mem = Ok (a, mem') ∧ k a mem' = Ok r.
Proof.
  unfold bind. destruct (c mem) as [[a mem']| |]; [eauto|done..].
Qed.

(** ** Finding a node in a table of the map *)

Lemma load_link_after mem t cs i l1 a l2 :
  tab_rep mem t cs → cs !! i = Some (l1 ++ a :: l2) →
  load (link_after (SlotRef (tab t) (Z.of_nat i)) l1) mem = Ok (a, mem).
Proof.
  intros Hrep Hc.
  destruct (tab_rep_slot _ _ _ _ _ Hrep Hc) as (slots & p & Hs & Hp & Hpc & _).
  unfold chain in Hpc. apply lseg_app in Hpc as (q & Hl1 & Ha).
  destruct Ha as (-> & _). unfold link_after.
  destruct (list.last l1) as [pred|] eqn:Hlast.
  - apply last_Some in Hlast as (l1' & ->).
    apply lseg_app in Hl1 as (q' & _ & Hpred).
    destruct Hpred as (-> & _ & pn & Hpn & Hnext). simpl in Hnext.
    unfold load, bind, read_node, ret. by rewrite Hpn, Hnext.
  - apply last_None in Hlast as ->. simpl in Hl1. subst p.
    unfold load, read_slot. by rewrite Hs, Nat2Z.id, Hp.
Qed.

Lemma tab_rep_no_match mem t cs key eq kn c :
  tab_rep mem t cs → nodes mem !! key = Some kn →
  cs !! Z.to_nat (HTab.get_position t (hcode kn)) = Some c →
  Forall (λ x, hmatch mem key eq x = false) c →
  ∀ x, x ∈ concat cs → hmatch mem key eq x = false.
Proof.
  intros Hrep Hk Hc Hall x (j & cj & Hj & Hx)%elem_of_concat_lookup.
  destruct (decide (j = Z.to_nat (HTab.get_position t (hcode kn)))) as [->|Hne].
  - rewrite Hc in Hj. simplify_eq. rewrite list.Forall_forall in Hall. by apply Hall.
  - destruct (rep_home _ _ _ Hrep _ _ _ Hj Hx) as (nx & Hnx & Hpos).
    unfold hmatch. rewrite Hnx, Hk.
    destruct (Z.eqb_spec (hcode nx) (hcode kn)) as [Heq|]; [|done].
    rewrite Heq in Hpos. lia.
Qed.

Lemma length_chain_le {A} (cs : list (list A)) i c :
  cs !! i = Some c → (length c ≤ length (concat cs))%nat.
Proof.
  intros Hc. destruct (concat_insert_perm cs i c [] Hc) as (rest & -> & _).
  rewrite length_app. lia.
Qed.

Lemma HTab_find_spec mem t cs key eq kn fuel :
  table_ok mem t cs → nodes mem !! key = Some kn →
  outcome (HTab.lookup fuel t key eq mem) (length (concat cs) < fuel)%nat
    (λ '(r, mem'), mem' = mem ∧
       match r with
       | None => ∀ x, x ∈ concat cs → hmatch mem key eq x = false
       | Some l => ∃ i l1 a l2,
           cs !! i = Some (l1 ++ a :: l2) ∧
           l = link_after (SlotRef (tab t) (Z.of_nat i)) l1 ∧
           hmatch mem key eq a = true ∧
           load l mem = Ok (a, mem)
       end).
Proof.
  intros [[-> ->]|Hrep] Hk.
  - simpl. split; [done|]. by intros x ?%elem_of_nil.
  - destruct (HTab_lookup_spec mem t cs key eq kn fuel Hrep Hk) as (c & Hc & Hout).
    destruct (tab_rep_position mem t cs (hcode kn) Hrep) as (Hpos & _).
    eapply outcome_weaken; [exact Hout| |].
    + pose proof (length_chain_le _ _ _ Hc). lia.
    + intros [[l|] mem'] [-> Hr]; (split; [done|]).
      * destruct Hr as (l1 & a & l2 & -> & Hl1 & Ha & ->).
        exists (Z.to_nat (HTab.get_position t (hcode kn))), l1, a, l2.
        rewrite Z2Nat.id by lia. split_and!; try done.
        rewrite <- (Z2Nat.id (HTab.get_position t (hcode kn))) by lia.
        by eapply load_link_after.
      * by eapply tab_rep_no_match.
Qed.

(** ** HMap::lookup *)

Lemma hmatch_hcode mem mem' key eq a :
  (∀ b, hcode <$> nodes mem' !! b = hcode <$> nodes mem !! b) →
  hmatch mem' key eq a = hmatch mem key eq a.
Proof.
  intros H. unfold hmatch.
  pose proof (H a) as Ha. pose proof (H key) as Hk.
  destruct (nodes mem' !! a), (nodes mem !! a),
    (nodes mem' !! key), (nodes mem !! key); simplify_eq/=; congruence.
Qed.

Lemma hcode_preserved mem mem' a n :
  (∀ b, hcode <$> nodes mem' !! b = hcode <$> nodes mem !! b) →
  nodes mem !! a = Some n →
  ∃ n', nodes mem' !! a = Some n' ∧ hcode n' = hcode n.
Proof.
  intros H Hn. specialize (H a). rewrite Hn in H. simpl in H.
  destruct (nodes mem' !! a) as [n'|]; simplify_eq/=. eauto.
Qed.

Lemma table_ok_mask mem t cs : table_ok mem t cs → 0 ≤ mask t ∧ 0 ≤ size t.
Proof.
  intros [[-> ->]|Hrep]; [done|].
  pose proof (rep_mask _ _ _ Hrep). pose proof (rep_size _ _ _ Hrep). lia.
Qed.

Lemma fuel_ok_help mem m csN csO fuel :
  Inv mem m csN csO → fuel_ok m fuel → help_bound m 0 ≤ Z.of_nat fuel.
Proof.
  intros HI. unfold fuel_ok, help_bound, kRehasingWork.
  pose proof (table_ok_mask _ _ _ (inv_newer _ _ _ _ HI)).
  pose proof (table_ok_mask _ _ _ (inv_older _ _ _ _ HI)).
  pose proof (inv_cursor _ _ _ _ HI). lia.
Qed.

Lemma fuel_ok_chains mem m csN csO mem' m' csN' csO' fuel :
  Inv mem m csN csO → migrated mem m csN csO mem' m' csN' csO' →
  fuel_ok m fuel →
  (length (concat csN') < fuel)%nat ∧ (length (concat csO') < fuel)%nat ∧
  (length csN' + length (concat csN') < fuel)%nat ∧
  (length csO' + length (concat csO') < fuel)%nat.
Proof.
  intros HI Hmg. unfold fuel_ok.
  pose proof (table_ok_mask _ _ _ (inv_newer _ _ _ _ HI)).
  pose proof (table_ok_mask _ _ _ (inv_older _ _ _ _ HI)).
  pose proof (mg_inv _ _ _ _ _ _ _ _ Hmg) as HI'.
  pose proof (table_ok_size _ _ _ (inv_newer _ _ _ _ HI')) as HsN.
  pose proof (table_ok_size _ _ _ (inv_older _ _ _ _ HI')) as HsO.
  pose proof (mg_newer_size _ _ _ _ _ _ _ _ Hmg).
  pose proof (mg_older_size _ _ _ _ _ _ _ _ Hmg).
  pose proof (mg_newer_mask _ _ _ _ _ _ _ _ Hmg) as HmN.
  assert (Z.of_nat (length csN') ≤ mask (newer m) + 1) as HlN.
  { destruct (inv_newer _ _ _ _ HI') as [[_ ->]|Hrep]; [simpl; lia|].
    rewrite (rep_cap _ _ _ Hrep). lia. }
  assert (Z.of_nat (length csO') ≤ mask (older m) + 1) as HlO.
  { destruct (inv_older _ _ _ _ HI') as [[_ ->]|Hrep]; [simpl; lia|].
    rewrite (rep_cap _ _ _ Hrep).
    destruct (decide (size (older m) ≤ kRehasingWork)) as [Hle|Hgt].
    - destruct (mg_freed _ _ _ _ _ _ _ _ Hmg Hle) as (Ho & _).
      rewrite Ho. simpl. lia.
    - destruct (mg_kept _ _ _ _ _ _ _ _ Hmg ltac:(lia)) as (_ & ->). lia. }
  unfold kRehasingWork in *. lia.
Qed.

Lemma HMap_lookup_spec fuel mem m csN csO key eq kn :
  Inv mem m csN csO → nodes mem !! key = Some kn →
  outcome (HMap.lookup fuel m key eq mem) (fuel_ok m fuel)
    (λ '((r, m'), mem'), ∃ csN' csO',
       migrated mem m csN csO mem' m' csN' csO' ∧
       ((r = 0 ∧ ∀ x, x ∈ concat csN' ++ concat csO' → hmatch mem key eq x = false)
        ∨ (r ∈ concat csN' ∧ hmatch mem key eq r = true)
        ∨ (r ∈ concat csO' ∧ hmatch mem key eq r = true ∧
           ∀ x, x ∈ concat csN' → hmatch mem key eq x = false))).
Proof.
  intros HI Hk. unfold HMap.lookup.
  eapply outcome_bind.
  { eapply outcome_weaken; [by apply help_rehashing_spec| |done].
    by eapply fuel_ok_help. }
  intros m1 mem1 (csN1 & csO1 & Hmg).
  pose proof (mg_inv _ _ _ _ _ _ _ _ Hmg) as HI1.
  pose proof (mg_hcode _ _ _ _ _ _ _ _ Hmg) as Hh.
  destruct (hcode_preserved mem mem1 key kn Hh Hk) as (kn1 & Hk1 & _).
  eapply outcome_bind.
  { eapply outcome_weaken;
      [apply (HTab_find_spec mem1 (newer m1) csN1 key eq kn1 fuel
                (inv_newer _ _ _ _ HI1) Hk1)| |done].
    intros Hf. by destruct (fuel_ok_chains _ _ _ _ _ _ _ _ fuel HI Hmg Hf). }
  intros [l|] mem2 [-> Hr].
  - (* found in the active table *)
    destruct Hr as (i & l1 & a & l2 & Hc & -> & Ha & Hload).
    unfold bind at 1, ret at 1. rewrite (bind_Ok _ _ _ _ _ Hload). simpl.
    exists csN1, csO1. split; [done|]. right. left.
    rewrite <- (hmatch_hcode mem mem1) by done. split; [|done].
    apply elem_of_concat_lookup. exists i, (l1 ++ a :: l2). split; [done|].
    apply elem_of_app. right. apply elem_of_cons. auto.
  - (* fall back to the retiring table *)
    eapply outcome_bind.
    { eapply outcome_weaken;
        [apply (HTab_find_spec mem1 (older m1) csO1 key eq kn1 fuel
                  (inv_older _ _ _ _ HI1) Hk1)| |done].
      intros Hf. by destruct (fuel_ok_chains _ _ _ _ _ _ _ _ fuel HI Hmg Hf) as (_ & ? & _). }
    intros [l|] mem2 [-> Hr'].
    + destruct Hr' as (i & l1 & a & l2 & Hc & -> & Ha & Hload).
      rewrite (bind_Ok _ _ _ _ _ Hload). simpl.
      exists csN1, csO1. split; [done|]. right. right.
      rewrite <- (hmatch_hcode mem mem1) by done. split_and!; [|done|].
      * apply elem_of_concat_lookup. exists i, (l1 ++ a :: l2). split; [done|].
        apply elem_of_app. right. apply elem_of_cons. auto.
      * intros x Hx. rewrite <- (hmatch_hcode mem mem1) by done. by apply Hr.
    + simpl. exists csN1, csO1. split; [done|]. left. split; [done|].
      intros x Hx. rewrite <- (hmatch_hcode mem mem1) by done.
      apply elem_of_app in Hx as [Hx|Hx]; auto.
Qed.

(** ** Unlinking a node of the map *)

Lemma table_ok_lookup_rep mem t cs i c :
  table_ok mem t cs → cs !! i = Some c → tab_rep mem t cs.
Proof. intros [[_ ->]|Hrep] Hc; [by rewrite lookup_nil in Hc|done]. Qed.

Lemma mem_update_addr mem mem' touched base :
  mem_update mem mem' touched base →
  (∀ a n, nodes mem !! a = Some n → 0 < a < 2 ^ 64) →
  ∀ a n, nodes mem' !! a = Some n → 0 < a < 2 ^ 64.
Proof.
  intros Hupd Haddr a n Hn.
  assert (is_Some (nodes mem !! a)) as [n' Hn'].
  { rewrite <- (mem_update_dom _ _ _ _ a Hupd). eauto. }
  by eapply Haddr.
Qed.

Lemma concat_remove_perm {A} (cs : list (list A)) i l1 a l2 :
  cs !! i = Some (l1 ++ a :: l2) →
  concat cs ≡ₚ a :: concat (<[i := l1 ++ l2]> cs).
Proof.
  intros Hc.
  destruct (concat_insert_perm cs i _ (l1 ++ l2) Hc) as (rest & H1 & H2).
  rewrite H1, H2. rewrite <- !app_assoc. simpl.
  by rewrite <- Permutation_middle.
Qed.

Lemma Inv_detach_newer mem m csN csO i l1 a l2 :
  Inv mem m csN csO → csN !! i = Some (l1 ++ a :: l2) →
  ∃ n' mem',
    HTab.detach (newer m) (link_after (SlotRef (tab (newer m)) (Z.of_nat i)) l1) mem
      = Ok ((a, n'), mem') ∧
    n' = {| tab := tab (newer m); mask := mask (newer m);
            size := size (newer m) - 1 |} ∧
    Inv mem' {| newer := n'; older := older m; migrate_pos := migrate_pos m |}
      (<[i := l1 ++ l2]> csN) csO ∧
    (∀ b, hcode <$> nodes mem' !! b = hcode <$> nodes mem !! b) ∧
    (tab (older m) ≠ 0 → arrays mem' !! tab (older m) = arrays mem !! tab (older m)).
Proof.
  intros HI Hc.
  pose proof (table_ok_lookup_rep _ _ _ _ _ (inv_newer _ _ _ _ HI) Hc) as HrN.
  pose proof (inv_nodup _ _ _ _ HI) as Hnd.
  pose proof Hnd as Hnd'.
  apply list.NoDup_app in Hnd' as (HndN & Hdisj & HndO).
  destruct (HTab_detach_spec mem (newer m) csN i l1 a l2 HrN HndN Hc)
    as (n' & mem' & Hdet & HrN' & En' & Hupd).
  exists n', mem'. split_and!; try done.
  - assert (∀ b, b ∈ l1 → b ∉ concat csO) as Hl1.
    { intros b Hb. apply Hdisj. apply elem_of_concat_lookup.
      exists i, (l1 ++ a :: l2). split; [done|]. apply elem_of_app. auto. }
    split; simpl.
    + eapply mem_update_addr; [done|]. apply (inv_addr _ _ _ _ HI).
    + by right.
    + destruct (decide (tab (older m) = 0)) as [Ho|Ho].
      * left. by apply (table_ok_null _ _ _ (inv_older _ _ _ _ HI)).
      * eapply table_ok_update; [apply (inv_older _ _ _ _ HI)|done| |done].
        apply not_eq_sym. by apply (inv_tabs _ _ _ _ HI).
    + subst n'. simpl. apply (inv_first _ _ _ _ HI).
    + subst n'. simpl. apply (inv_tabs _ _ _ _ HI).
    + rewrite (concat_remove_perm csN i l1 a l2 Hc) in Hnd. simpl in Hnd.
      by apply list.NoDup_cons in Hnd as [].
    + subst n'. simpl. apply (inv_capN _ _ _ _ HI).
    + apply (inv_capO _ _ _ _ HI).
    + apply (inv_cursor _ _ _ _ HI).
    + apply (inv_cursor_le _ _ _ _ HI).
    + apply (inv_drained _ _ _ _ HI).
  - apply (upd_hcode _ _ _ _ Hupd).
  - intros Ho. apply (upd_arrays _ _ _ _ Hupd).
    apply not_eq_sym. by apply (inv_tabs _ _ _ _ HI).
Qed.

Lemma Inv_detach_older mem m csN csO i l1 a l2 :
  Inv mem m csN csO → csO !! i = Some (l1 ++ a :: l2) →
  ∃ o' mem',
    HTab.detach (older m) (link_after (SlotRef (tab (older m)) (Z.of_nat i)) l1) mem
      = Ok ((a, o'), mem') ∧
    o' = {| tab := tab (older m); mask := mask (older m);
            size := size (older m) - 1 |} ∧
    Inv mem' {| newer := newer m; older := o'; migrate_pos := migrate_pos m |}
      csN (<[i := l1 ++ l2]> csO) ∧
    (∀ b, hcode <$> nodes mem' !! b = hcode <$> nodes mem !! b) ∧
    is_Some (arrays mem' !! tab (older m)).
Proof.
  intros HI Hc.
  pose proof (table_ok_lookup_rep _ _ _ _ _ (inv_older _ _ _ _ HI) Hc) as HrO.
  pose proof (rep_tab _ _ _ HrO) as Ho.
  destruct (Inv_migrating _ _ _ _ HI Ho) as (HrN & _ & Hne).
  pose proof (inv_nodup _ _ _ _ HI) as Hnd.
  pose proof Hnd as Hnd'.
  apply list.NoDup_app in Hnd' as (HndN & Hdisj & HndO).
  destruct (HTab_detach_spec mem (older m) csO i l1 a l2 HrO HndO Hc)
    as (o' & mem' & Hdet & HrO' & Eo' & Hupd).
  exists o', mem'. split_and!; try done.
  - assert (∀ b, b ∈ l1 → b ∉ concat csN) as Hl1.
    { intros b Hb HbN. apply (Hdisj b HbN). apply elem_of_concat_lookup.
      exists i, (l1 ++ a :: l2). split; [done|]. apply elem_of_app. auto. }
    split; simpl.
    + eapply mem_update_addr; [done|]. apply (inv_addr _ _ _ _ HI).
    + right. by eapply tab_rep_update.
    + by right.
    + subst o'. simpl. apply (inv_first _ _ _ _ HI).
    + subst o'. simpl. apply (inv_tabs _ _ _ _ HI).
    + rewrite (concat_remove_perm csO i l1 a l2 Hc) in Hnd.
      rewrite <- Permutation_middle in Hnd.
      by apply list.NoDup_cons in Hnd as [].
    + apply (inv_capN _ _ _ _ HI).
    + subst o'. simpl. apply (inv_capO _ _ _ _ HI).
    + apply (inv_cursor _ _ _ _ HI).
    + subst o'. simpl. apply (inv_cursor_le _ _ _ _ HI).
    + intros j c Hj Hjc. destruct (decide (j = i)) as [->|Hji].
      * pose proof (inv_drained _ _ _ _ HI i _ Hj Hc) as Hnil.
        by destruct l1.
      * rewrite list_lookup_insert_ne in Hjc by done.
        by eapply (inv_drained _ _ _ _ HI).
  - apply (upd_hcode _ _ _ _ Hupd).
  - destruct (rep_slots _ _ _ HrO') as (slots & Hs & _). subst o'. simpl in Hs. eauto.
Qed.

(** ** HMap::hm_delete *)

Lemma hm_delete_spec fuel mem m csN csO key eq kn :
  Inv mem m csN csO → nodes mem !! key = Some kn →
  outcome (HMap.hm_delete fuel m key eq mem) (fuel_ok m fuel)
    (λ '((r, m'), mem'), ∃ m1 mem1 csN1 csO1 csN' csO',
       HMap.help_rehashing fuel m mem = Ok (m1, mem1) ∧
       migrated mem m csN csO mem1 m1 csN1 csO1 ∧
       Inv mem' m' csN' csO' ∧
       (∀ b, hcode <$> nodes mem' !! b = hcode <$> nodes mem !! b) ∧
       tab (newer m') = tab (newer m1) ∧ mask (newer m') = mask (newer m1) ∧
       tab (older m') = tab (older m1) ∧ mask (older m') = mask (older m1) ∧
       migrate_pos m' = migrate_pos m1 ∧
       ((r = 0 ∧ m' = m1 ∧ mem' = mem1 ∧ csN' = csN1 ∧ csO' = csO1 ∧
         ∀ x, x ∈ concat csN1 ++ concat csO1 → hmatch mem key eq x = false)
        ∨ (hmatch mem key eq r = true ∧
           concat csN1 ++ concat csO1 ≡ₚ r :: concat csN' ++ concat csO' ∧
           ((r ∈ concat csN1 ∧ size (newer m') = size (newer m1) - 1 ∧
             older m' = older m1)
            ∨ (r ∈ concat csO1 ∧ size (older m') = size (older m1) - 1 ∧
               newer m' = newer m1 ∧
               is_Some (arrays mem' !! tab (older m1))))))).
Proof.
  intros HI Hk. unfold HMap.hm_delete.
  pose proof (help_rehashing_spec fuel mem m csN csO HI) as Hhelp.
  unfold bind at 1.
  destruct (HMap.help_rehashing fuel m mem) as [[m1 mem1]| |]; simpl in Hhelp;
    [|done|by intros ?%(fuel_ok_help _ _ _ _ _ HI)].
  destruct Hhelp as (csN1 & csO1 & Hmg).
  pose proof (mg_inv _ _ _ _ _ _ _ _ Hmg) as HI1.
  pose proof (mg_hcode _ _ _ _ _ _ _ _ Hmg) as Hh.
  destruct (hcode_preserved mem mem1 key kn Hh Hk) as (kn1 & Hk1 & _).
  eapply outcome_bind.
  { eapply outcome_weaken;
      [apply (HTab_find_spec mem1 (newer m1) csN1 key eq kn1 fuel
                (inv_newer _ _ _ _ HI1) Hk1)| |done].
    intros Hf. by destruct (fuel_ok_chains _ _ _ _ _ _ _ _ fuel HI Hmg Hf). }
  intros [l|] mem2 [-> Hr].
  - (* unlink from the active table *)
    destruct Hr as (i & l1 & a & l2 & Hc & -> & Ha & _).
    destruct (Inv_detach_newer _ _ _ _ _ _ _ _ HI1 Hc)
      as (n' & mem' & Hdet & En' & HI' & Hh' & _).
    rewrite (bind_Ok _ _ _ _ _ Hdet). simpl.
    exists m1, mem1, csN1, csO1, (<[i := l1 ++ l2]> csN1), csO1.
    split_and!; try done; try (by subst n').
    + intros b. by rewrite Hh'.
    + right. rewrite <- (hmatch_hcode mem mem1) by done. split_and!; [done| |].
      * by rewrite (concat_remove_perm csN1 i l1 a l2 Hc).
      * left. split_and!; [|by subst n'|done].
        apply elem_of_concat_lookup. exists i, (l1 ++ a :: l2). split; [done|].
        apply elem_of_app. right. apply elem_of_cons. auto.
  - (* not there: try the retiring table *)
    eapply outcome_bind.
    { eapply outcome_weaken;
        [apply (HTab_find_spec mem1 (older m1) csO1 key eq kn1 fuel
                  (inv_older _ _ _ _ HI1) Hk1)| |done].
      intros Hf. by destruct (fuel_ok_chains _ _ _ _ _ _ _ _ fuel HI Hmg Hf) as (_ & ? & _). }
    intros [l|] mem2 [-> Hr'].
    + destruct Hr' as (i & l1 & a & l2 & Hc & -> & Ha & _).
      destruct (Inv_detach_older _ _ _ _ _ _ _ _ HI1 Hc)
        as (o' & mem' & Hdet & Eo' & HI' & Hh' & Halloc).
      rewrite (bind_Ok _ _ _ _ _ Hdet). simpl.
      exists m1, mem1, csN1, csO1, csN1, (<[i := l1 ++ l2]> csO1).
      split_and!; try done; try (by subst o').
      * intros b. by rewrite Hh'.
      * right. rewrite <- (hmatch_hcode mem mem1) by done. split_and!; [done| |].
        -- rewrite (concat_remove_perm csO1 i l1 a l2 Hc).
           by rewrite <- Permutation_middle.
        -- right. split_and!; [|by subst o'|done..].
           apply elem_of_concat_lookup. exists i, (l1 ++ a :: l2). split; [done|].
           apply elem_of_app. right. apply elem_of_cons. auto.
    + simpl. exists m1, mem1, csN1, csO1, csN1, csO1.
      split_and!; try done. left. split_and!; try done.
      intros x Hx. rewrite <- (hmatch_hcode mem mem1) by done.
      apply elem_of_app in Hx as [Hx|Hx]; auto.
Qed.

(** ** HMap::insert *)

Lemma concat_replicate_nil {A} n : concat (replicate n ([] : list A)) = [].
Proof. induction n; simpl; auto. Qed.

Lemma pow2_cap_range t :
  pow2_cap t → 4 ≤ mask t + 1 ≤ 2 ^ 63.
Proof.
  intros (k & Hk & ->). split.
  - change 4 with (2 ^ 2). apply Z.pow_le_mono_r; lia.
  - apply Z.pow_le_mono_r; lia.
Qed.

(** The lazy initialisation at the head of [insert]. *)
Lemma Inv_lazy_init mem m csN csO n0 mem0 :
  Inv mem m csN csO →
  (if decide (tab (newer m) = 0) then HTab.init 4 else ret (newer m)) mem
    = Ok (n0, mem0) →
  ∃ csN0,
    Inv mem0 {| newer := n0; older := older m; migrate_pos := migrate_pos m |}
      csN0 csO ∧
    concat csN0 = concat csN ∧ nodes mem0 = nodes mem ∧ tab n0 ≠ 0 ∧
    (tab (newer m) ≠ 0 → n0 = newer m ∧ mem0 = mem).
Proof.
  intros HI Hrun. destruct (decide (tab (newer m) = 0)) as [Hz|Hnz].
  - destruct (table_ok_null _ _ _ (inv_newer _ _ _ _ HI) Hz) as [EN ->].
    pose proof (inv_first _ _ _ _ HI Hz) as Ho.
    destruct (table_ok_null _ _ _ (inv_older _ _ _ _ HI) Ho) as [EO ->].
    destruct (HTab_init_rep 4 mem n0 mem0 Hrun ltac:(lia))
      as (Hrep & Ht & Hfresh & Hmask & Hsize & Hupd).
    apply HTab_init_Ok in Hrun as (_ & _ & Emem).
    exists (replicate (Z.to_nat 4) []).
    rewrite concat_replicate_nil. split_and!; try done; [|by subst mem0].
    split; simpl; try done.
    + subst mem0. simpl. apply (inv_addr _ _ _ _ HI).
    + by right.
    + left. by rewrite EO.
    + constructor.
    + intros _. exists 2. split; [lia|]. rewrite Hmask. done.
    + apply (inv_cursor _ _ _ _ HI).
  - unfold ret in Hrun. simplify_eq. exists csN. split_and!; try done.
    by destruct m.
Qed.

(** The insertion proper. *)
Lemma Inv_insert_newer mem m csN csO node n :
  Inv mem m csN csO → tab (newer m) ≠ 0 →
  nodes mem !! node = Some n → node ∉ concat csN ++ concat csO →
  ∃ n1 mem1 csN1,
    HTab.insert (newer m) node mem = Ok (n1, mem1) ∧
    n1 = {| tab := tab (newer m); mask := mask (newer m);
            size := size (newer m) + 1 |} ∧
    Inv mem1 {| newer := n1; older := older m; migrate_pos := migrate_pos m |}
      csN1 csO ∧
    concat csN1 ≡ₚ node :: concat csN ∧
    (∀ b, hcode <$> nodes mem1 !! b = hcode <$> nodes mem !! b).
Proof.
  intros HI Ht Hn Hfresh.
  pose proof (table_ok_rep _ _ _ (inv_newer _ _ _ _ HI) Ht) as HrN.
  destruct (inv_addr _ _ _ _ HI _ _ Hn) as [Hnz _].
  pose proof (Inv_bound_fresh _ _ _ _ _ _ HI Hn Hfresh) as Hbound.
  rewrite length_app in Hbound.
  apply not_elem_of_app in Hfresh as [HfN HfO].
  destruct (HTab_insert_spec mem (newer m) csN node n HrN Hn ltac:(lia) HfN ltac:(lia))
    as (n1 & mem1 & c & Hins & Hc & HrN1 & En1 & Hupd).
  exists n1, mem1, (<[Z.to_nat (HTab.get_position (newer m) (hcode n)) := node :: c]> csN).
  assert (concat (<[Z.to_nat (HTab.get_position (newer m) (hcode n)) := node :: c]> csN)
          ≡ₚ node :: concat csN) as Hperm.
  { destruct (concat_insert_perm csN _ _ (node :: c) Hc) as (rest & H1 & H2).
    by rewrite H1, H2. }
  split_and!; try done.
  - split; simpl.
    + eapply mem_update_addr; [done|]. apply (inv_addr _ _ _ _ HI).
    + by right.
    + destruct (decide (tab (older m) = 0)) as [Ho|Ho].
      * left. by apply (table_ok_null _ _ _ (inv_older _ _ _ _ HI)).
      * eapply table_ok_update; [apply (inv_older _ _ _ _ HI)|done| |].
        -- apply not_eq_sym. by apply (inv_tabs _ _ _ _ HI).
        -- by intros b ->%list_elem_of_singleton.
    + subst n1. simpl. apply (inv_first _ _ _ _ HI).
    + subst n1. simpl. apply (inv_tabs _ _ _ _ HI).
    + rewrite Hperm. simpl. apply list.NoDup_cons. split.
      * by apply not_elem_of_app.
      * apply (inv_nodup _ _ _ _ HI).
    + subst n1. simpl. apply (inv_capN _ _ _ _ HI).
    + apply (inv_capO _ _ _ _ HI).
    + apply (inv_cursor _ _ _ _ HI).
    + apply (inv_cursor_le _ _ _ _ HI).
    + apply (inv_drained _ _ _ _ HI).
  - apply (upd_hcode _ _ _ _ Hupd).
Qed.

(** ** HMap::trigger_rehashing *)

Lemma trigger_rehashing_Ok m mem m' mem' :
  pow2_cap (newer m) → HMap.trigger_rehashing m mem = Ok (m', mem') →
  tab (older m) = 0 ∧ 2 * (mask (newer m) + 1) < 2 ^ 64 ∧
  ∃ t, HTab.init (2 * (mask (newer m) + 1)) mem = Ok (t, mem') ∧
       m' = {| newer := t; older := newer m; migrate_pos := 0 |}.
Proof.
  intros Hcap Hrun. pose proof (pow2_cap_range _ Hcap) as Hr.
  unfold HMap.trigger_rehashing in Hrun.
  apply bind_Ok_inv in Hrun as ([] & mem1 & Hassert & Hrun).
  unfold assert in Hassert.
  destruct (Z.eqb_spec (tab (older m)) 0) as [Ho|]; [|done].
  unfold ret in Hassert. simplify_eq.
  apply bind_Ok_inv in Hrun as (t & mem2 & Hinit & Hret).
  unfold ret in Hret. simplify_eq.
  rewrite (wrap_small (mask (newer m) + 1)) in Hinit by lia.
  destruct (decide (mask (newer m) + 1 = 2 ^ 63)) as [E|E].
  - rewrite E in Hinit. by apply HTab_init_Ok in Hinit as [? _].
  - assert (mask (newer m) + 1 ≤ 2 ^ 62) as Hle.
    { destruct Hcap as (k & Hk & Ek). rewrite Ek in *.
      destruct (decide (k = 63)) as [->|]; [done|].
      apply Z.pow_le_mono_r; lia. }
    rewrite wrap_small in Hinit by lia.
    rewrite (Z.mul_comm _ 2) in Hinit. split_and!; [done|lia|]. eauto.
Qed.

Lemma Inv_trigger mem m csN csO m' mem' :
  Inv mem m csN csO → tab (newer m) ≠ 0 →
  HMap.trigger_rehashing m mem = Ok (m', mem') →
  Inv mem' m' (replicate (Z.to_nat (2 * (mask (newer m) + 1))) []) csN ∧
  csO = [] ∧ nodes mem' = nodes mem ∧
  older m' = newer m ∧ migrate_pos m' = 0 ∧ size (newer m') = 0 ∧
  mask (newer m') + 1 = 2 * (mask (newer m) + 1) ∧
  tab (newer m') ≠ tab (newer m).
Proof.
  intros HI Ht Hrun.
  pose proof (inv_capN _ _ _ _ HI Ht) as Hcap.
  pose proof (pow2_cap_range _ Hcap) as Hr.
  destruct (trigger_rehashing_Ok _ _ _ _ Hcap Hrun) as (Ho & Hlt & t & Hinit & Em').
  subst m'.
  destruct (table_ok_null _ _ _ (inv_older _ _ _ _ HI) Ho) as [EO EcsO].
  subst csO.
  destruct (HTab_init_rep _ mem t mem' Hinit Hlt)
    as (Hrep & Htz & Hfresh & Hmask & Hsize & Hupd).
  pose proof (table_ok_rep _ _ _ (inv_newer _ _ _ _ HI) Ht) as HrN.
  assert (tab t ≠ tab (newer m)) as Hne.
  { intros E. destruct (rep_slots _ _ _ HrN) as (slots & Hs & _). congruence. }
  apply HTab_init_Ok in Hinit as (_ & _ & Emem).
  simpl. split_and!; try done; [|by subst mem'|lia].
  split; simpl; try done.
  - subst mem'. simpl. apply (inv_addr _ _ _ _ HI).
  - by right.
  - right. eapply tab_rep_update; [exact HrN|exact Hupd|by apply not_eq_sym|].
    by intros ? ?%elem_of_nil.
  - rewrite concat_replicate_nil. simpl.
    pose proof (inv_nodup _ _ _ _ HI) as Hnd. simpl in Hnd.
    by rewrite app_nil_r in Hnd.
  - intros _. destruct Hcap as (k & Hk & Ek). exists (k + 1).
    rewrite Hmask, Z.pow_add_r, Ek by lia.
    split; [|lia]. destruct (decide (k = 63)) as [->|]; [|lia].
    rewrite Ek in Hlt. lia.
  - lia.
  - intros i c Hi _. exfalso. simpl in Hi. lia.
Qed.

Lemma HMap_insert_spec fuel mem m csN csO node n m' mem' :
  Inv mem m csN csO → nodes mem !! node = Some n →
  node ∉ concat csN ++ concat csO →
  HMap.insert fuel m node mem = Ok (m', mem') →
  ∃ csN' csO',
    Inv mem' m' csN' csO' ∧
    concat csN' ++ concat csO' ≡ₚ node :: concat csN ++ concat csO ∧
    (∀ b, hcode <$> nodes mem' !! b = hcode <$> nodes mem !! b) ∧
    (tab (older m) ≠ 0 →
       tab (newer m') = tab (newer m) ∧ mask (newer m') = mask (newer m)) ∧
    (tab (newer m) ≠ 0 → tab (newer m') ≠ tab (newer m) →
       tab (older m) = 0 ∧
       wrap (wrap (mask (newer m) + 1) * kMaxLoadFactor) ≤ size (newer m) + 1 ∧
       mask (newer m') + 1 = 2 * (mask (newer m) + 1)) ∧
    (tab (newer m) ≠ 0 → tab (newer m') = tab (newer m) →
       mask (newer m') = mask (newer m) ∧
       (tab (older m) = 0 →
        size (newer m) + 1 < wrap (wrap (mask (newer m) + 1) * kMaxLoadFactor))).
Proof.
  intros HI Hn Hfresh Hrun. unfold HMap.insert in Hrun.
  apply bind_Ok_inv in Hrun as (n0 & mem0 & Hinit & Hrun).
  destruct (Inv_lazy_init _ _ _ _ _ _ HI Hinit)
    as (csN0 & HI0 & Hcat0 & Hnd0 & Hn0 & Hsame).
  apply bind_Ok_inv in Hrun as (n1 & mem1 & Hins & Hrun).
  set (m0 := {| newer := n0; older := older m; migrate_pos := migrate_pos m |}) in *.
  destruct (Inv_insert_newer mem0 m0 csN0 csO node n HI0 Hn0)
    as (n1' & mem1' & csN1 & Hins' & En1 & HI1 & Hperm1 & Hh1).
  { by rewrite Hnd0. }
  { by rewrite Hcat0. }
  simpl in Hins'. rewrite Hins in Hins'. simplify_eq. simpl in *.
  set (n1 := {| tab := tab n0; mask := mask n0; size := size n0 + 1 |}) in *.
  set (m1 := {| newer := n1; older := older m; migrate_pos := migrate_pos m |}) in *.
  apply bind_Ok_inv in Hrun as (m2 & mem2 & Htrig & Hrun).
  assert (∃ csN2 csO2,
    Inv mem2 m2 csN2 csO2 ∧
    concat csN2 ++ concat csO2 ≡ₚ concat csN1 ++ concat csO ∧
    nodes mem2 = nodes mem1' ∧
    ((m2 = m1 ∧
      (tab (older m) = 0 →
       size n1 < wrap (wrap (mask n1 + 1) * kMaxLoadFactor)))
     ∨ (tab (older m) = 0 ∧
        wrap (wrap (mask n1 + 1) * kMaxLoadFactor) ≤ size n1 ∧
        mask (newer m2) + 1 = 2 * (mask n1 + 1) ∧
        tab (newer m2) ≠ tab n1))) as (csN2 & csO2 & HI2 & Hperm2 & Hnd2 & Hcase).
  { destruct (decide (tab (older m) = 0)) as [Ho|Ho];
      [destruct (Z.leb_spec (wrap (wrap (mask n0 + 1) * kMaxLoadFactor)) (size n0 + 1))
         as [Hth|Hth]|].
    - destruct (Inv_trigger _ _ _ _ _ _ HI1 Hn0 Htrig)
        as (HI2 & -> & Hnd2 & Eo & Epos & Esz & Ecap & Etab).
      eexists _, csN1. split_and!; [exact HI2| |done|].
      + rewrite concat_replicate_nil. simpl. by rewrite app_nil_r.
      + right. by split_and!.
    - unfold ret in Htrig. simplify_eq. exists csN1, csO.
      split_and!; try done. left. split; [done|]. intros _. subst n1. simpl. lia.
    - unfold ret in Htrig. simplify_eq. exists csN1, csO.
      split_and!; try done. left. done. }
  pose proof (help_rehashing_spec fuel mem2 m2 csN2 csO2 HI2) as Hhelp.
  rewrite Hrun in Hhelp. destruct Hhelp as (csN' & csO' & Hmg).
  exists csN', csO'. split_and!.
  - apply (mg_inv _ _ _ _ _ _ _ _ Hmg).
  - rewrite (mg_perm _ _ _ _ _ _ _ _ Hmg), Hperm2, Hperm1, Hcat0. done.
  - intros b. rewrite (mg_hcode _ _ _ _ _ _ _ _ Hmg), Hnd2, Hh1, Hnd0. done.
  - intros Ho. destruct (Hsame ltac:(intros E; by apply (inv_first _ _ _ _ HI) in E))
      as [-> ->].
    rewrite (mg_newer_tab _ _ _ _ _ _ _ _ Hmg), (mg_newer_mask _ _ _ _ _ _ _ _ Hmg).
    destruct Hcase as [[-> _]|[? _]]; done.
  - intros Ht Hne. destruct (Hsame Ht) as [-> ->].
    rewrite (mg_newer_tab _ _ _ _ _ _ _ _ Hmg) in Hne.
    rewrite (mg_newer_mask _ _ _ _ _ _ _ _ Hmg).
    destruct Hcase as [[-> _]|(? & ? & ? & ?)]; done.
  - intros Ht He. destruct (Hsame Ht) as [-> ->].
    rewrite (mg_newer_tab _ _ _ _ _ _ _ _ Hmg) in He.
    rewrite (mg_newer_mask _ _ _ _ _ _ _ _ Hmg).
    destruct Hcase as [[-> ?]|(? & ? & ? & ?)]; done.
Qed.

(** ** Reachable states are well formed *)

Lemma Inv_empty mem :
  (∀ a n, nodes mem !! a = Some n → 0 < a < 2 ^ 64) → Inv mem HMap0 [] [].
Proof.
  intros Haddr. split; simpl; try done.
  - by left.
  - by left.
  - constructor.
Qed.

Lemma reachable_Inv mem m live :
  reachable mem m live →
  ∃ csN csO, Inv mem m csN csO ∧ ∀ a, a ∈ live ↔ a ∈ concat csN ++ concat csO.
Proof.
  induction 1 as
    [mem Haddr
    |mem m live fuel node m' mem' _ (csN & csO & HI & Hlive) [n Hn] Hfresh Hrun
    |mem m live fuel key eq r m' mem' _ (csN & csO & HI & Hlive) [kn Hk] Hrun
    |mem m live fuel key eq r m' mem' _ (csN & csO & HI & Hlive) [kn Hk] Hrun].
  - exists [], []. split; [by apply Inv_empty|]. intros a. simpl.
    split; [by intros ?%elem_of_empty|by intros ?%elem_of_nil].
  - rewrite Hlive in Hfresh.
    destruct (HMap_insert_spec _ _ _ _ _ _ _ _ _ HI Hn Hfresh Hrun)
      as (csN' & csO' & HI' & Hperm & _).
    exists csN', csO'. split; [done|]. intros a.
    rewrite Hperm, elem_of_union, elem_of_singleton, elem_of_cons, Hlive. done.
  - pose proof (HMap_lookup_spec fuel mem m csN csO key eq kn HI Hk) as Hspec.
    rewrite Hrun in Hspec. destruct Hspec as (csN' & csO' & Hmg & _).
    exists csN', csO'. split; [apply (mg_inv _ _ _ _ _ _ _ _ Hmg)|].
    intros a. by rewrite (mg_perm _ _ _ _ _ _ _ _ Hmg).
  - pose proof (hm_delete_spec fuel mem m csN csO key eq kn HI Hk) as Hspec.
    rewrite Hrun in Hspec.
    destruct Hspec as (m1 & mem1 & csN1 & csO1 & csN' & csO' & _ & Hmg & HI' & _ & _
                       & _ & _ & _ & _ & Hcase).
    exists csN', csO'. split; [done|]. intros a.
    rewrite elem_of_difference, elem_of_singleton, Hlive.
    rewrite <- (mg_perm _ _ _ _ _ _ _ _ Hmg).
    destruct Hcase as [(-> & -> & -> & -> & -> & _)|(_ & Hperm & _)].
    + split; [by intros []|]. intros Ha. split; [done|].
      intros ->. destruct (Inv_valid _ _ _ _ _ HI' Ha). lia.
    + pose proof (mg_inv _ _ _ _ _ _ _ _ Hmg) as HI1.
      pose proof (inv_nodup _ _ _ _ HI1) as Hnd. rewrite Hperm in Hnd.
      apply list.NoDup_cons in Hnd as [Hr _].
      rewrite Hperm, elem_of_cons. split.
      * by intros [[->|?] ?].
      * intros Ha. split; [auto|]. by intros ->.
Qed.

(** ** HMap::foreach *)

Lemma table_foreach_spec {A} mem t cs (f : Z → A → bool * A) fuel arg :
  table_ok mem t cs → (tab t ≠ 0 → pow2_cap t) →
  outcome (HTab.foreach fuel t f arg mem)
    (length cs + length (concat cs) < fuel)%nat
    (λ r, r = (visit_list f (concat cs) arg, mem)).
Proof.
  intros [[-> ->]|Hrep] Hcap.
  - eapply outcome_weaken; [apply HTab_foreach_null|simpl; lia|done].
  - apply HTab_foreach_spec; [done|].
    pose proof (pow2_cap_range _ (Hcap (rep_tab _ _ _ Hrep))). lia.
Qed.

Lemma HMap_foreach_spec {A} mem m csN csO (f : Z → A → bool * A) fuel arg :
  Inv mem m csN csO →
  outcome (HMap.foreach fuel m f arg mem) (fuel_ok m fuel)
    (λ r, r = (snd (visit_list f (concat csN ++ concat csO) arg), mem)).
Proof.
  intros HI. unfold HMap.foreach.
  pose proof (table_ok_mask _ _ _ (inv_newer _ _ _ _ HI)) as HmN.
  pose proof (table_ok_mask _ _ _ (inv_older _ _ _ _ HI)) as HmO.
  pose proof (table_ok_size _ _ _ (inv_newer _ _ _ _ HI)) as HsN.
  pose proof (table_ok_size _ _ _ (inv_older _ _ _ _ HI)) as HsO.
  assert (Z.of_nat (length csN) ≤ mask (newer m) + 1) as HlN.
  { destruct (inv_newer _ _ _ _ HI) as [[_ ->]|Hrep]; [simpl; lia|].
    rewrite (rep_cap _ _ _ Hrep). lia. }
  assert (Z.of_nat (length csO) ≤ mask (older m) + 1) as HlO.
  { destruct (inv_older _ _ _ _ HI) as [[_ ->]|Hrep]; [simpl; lia|].
    rewrite (rep_cap _ _ _ Hrep). lia. }
  eapply outcome_bind.
  { eapply outcome_weaken;
      [apply (table_foreach_spec mem (newer m) csN f fuel arg
                (inv_newer _ _ _ _ HI) (inv_capN _ _ _ _ HI))| |done].
    unfold fuel_ok. lia. }
  intros [go arg1] mem1 [= Hv ->]. rewrite visit_list_app, <- Hv.
  destruct go; [|done].
  eapply outcome_bind.
  { eapply outcome_weaken;
      [apply (table_foreach_spec mem (older m) csO f fuel arg1
                (inv_older _ _ _ _ HI) (inv_capO _ _ _ _ HI))| |done].
    unfold fuel_ok. lia. }
  intros [go arg2] mem2 [= Hv2 ->]. simpl. by rewrite <- Hv2.
Qed.

Lemma visit_list_record l acc : visit_list record_node l acc = (true, acc ++ l).
Proof.
  revert acc. induction l as [|a l IH]; intros acc; simpl.
  - by rewrite app_nil_r.
  - rewrite IH. by rewrite <- app_assoc.
Qed.

(** ** Scenarios *)

Lemma insert_all_reachable fuel l :
  ∀ mem m live m' mem',
    reachable mem m live → NoDup l →
    Forall (λ a, (a ∉ live) ∧ is_Some (nodes mem !! a)) l →
    insert_all fuel m l mem = Ok (m', mem') →
    reachable mem' m' (list_to_set l ∪ live).
Proof.
  induction l as [|a l IH]; intros mem m live m' mem' Hr Hnd Hall Hrun.
  - simpl in *. unfold ret in Hrun. simplify_eq.
    by rewrite (left_id_L ∅ (∪)).
  - simpl in Hrun. apply bind_Ok_inv in Hrun as (m1 & mem1 & Hins & Hrun).
    apply list.NoDup_cons in Hnd as [Hal Hnd].
    apply list.Forall_cons in Hall as [[Ha [n Hn]] Hall].
    pose proof (reach_insert _ _ _ _ _ _ _ Hr (mk_is_Some _ _ Hn) Ha Hins) as Hr1.
    destruct (reachable_Inv _ _ _ Hr) as (csN & csO & HI & Hlive).
    assert (a ∉ concat csN ++ concat csO) as Ha'.
    { by rewrite <- Hlive. }
    destruct (HMap_insert_spec _ _ _ _ _ _ _ _ _ HI Hn Ha' Hins)
      as (_ & _ & _ & _ & Hh & _).
    replace (list_to_set (a :: l) ∪ live) with
      (list_to_set l ∪ ({[a]} ∪ live) : gset Z)
      by (simpl; by rewrite (comm_L (∪) {[a]} (list_to_set l)), <- (assoc_L (∪))).
    apply (IH mem1 m1); [done..| |done].
    rewrite list.Forall_forall in Hall |- *. intros b Hb.
    destruct (Hall b Hb) as [Hbl [nb Hnb]]. split.
    + rewrite not_elem_of_union, not_elem_of_singleton. split; [|done].
      by intros ->.
    + destruct (hcode_preserved _ _ _ _ Hh Hnb) as (nb' & Hnb' & _). eauto.
Qed.

Lemma inserted_reachable n k m mem :
  map_Forall (λ a _, 0 < a < 2 ^ 64) (nodes (scenario_mem n)) →
  NoDup (node_addr <$> seqZ 0 k) →
  Forall (λ a, is_Some (nodes (scenario_mem n) !! a)) (node_addr <$> seqZ 0 k) →
  inserted n k = Ok (m, mem) →
  reachable mem m (list_to_set (node_addr <$> seqZ 0 k)).
Proof.
  intros Haddr Hnd Hall Hrun.
  rewrite <- (right_id_L ∅ (∪) (list_to_set _)).
  eapply insert_all_reachable; [apply reach_empty| | |exact Hrun]; try done.
  rewrite list.Forall_forall in Hall |- *. intros a Ha. split; [|by apply Hall].
  apply not_elem_of_empty.
Qed.

Lemma final_Ok r m :
  final_map r = m → m ≠ HMap0 → r = Ok (final_map r, final_mem r).
Proof. destruct r as [[m' mem']| |]; simpl; congruence. Qed.

Lemma mapM_state :
  inserted 256 256 = Ok (mapM, memM) ∧
  mapM = {| newer := {| tab := 5; mask := 63; size := 128 |};
            older := {| tab := 4; mask := 31; size := 128 |};
            migrate_pos := 15 |}.
Proof.
  assert (mapM = {| newer := {| tab := 5; mask := 63; size := 128 |};
                    older := {| tab := 4; mask := 31; size := 128 |};
                    migrate_pos := 15 |}) as Hm by (vm_compute; reflexivity).
  split; [|done]. by apply (final_Ok _ _ Hm).
Qed.

Lemma mapM_reachable : reachable memM mapM liveM.
Proof.
  apply (inserted_reachable 256 256); [| | |apply mapM_state].
  - apply (bool_decide_unpack _). by vm_compute.
  - apply (bool_decide_unpack _). by vm_compute.
  - apply (bool_decide_unpack _). by vm_compute.
Qed.

Lemma reachable_size mem m live :
  reachable mem m live → HMap.size m = Z.of_nat (base.size live).
Proof.
  intros (csN & csO & HI & Hlive)%reachable_Inv.
  destruct (Inv_size _ _ _ _ HI) as [Hsz ->]. rewrite Hsz.
  assert (live = list_to_set (concat csN ++ concat csO)) as ->.
  { apply set_eq. intros a. by rewrite elem_of_list_to_set, Hlive. }
  rewrite size_list_to_set; [done|]. apply (inv_nodup _ _ _ _ HI).
Qed.

(** ** The hand-made migrating map is well formed *)

Lemma tab_insert_all_rep l :
  ∀ mem t cs,
    tab_rep mem t cs →
    (∀ a n, nodes mem !! a = Some n → 0 < a < 2 ^ 64) →
    NoDup (l ++ concat cs) →
    Forall (λ a, is_Some (nodes mem !! a)) l →
    ∃ t' mem' cs',
      tab_insert_all t l mem = Ok (t', mem') ∧
      tab_rep mem' t' cs' ∧ concat cs' ≡ₚ l ++ concat cs ∧
      tab t' = tab t ∧ mask t' = mask t ∧
      (∀ b, hcode <$> nodes mem' !! b = hcode <$> nodes mem !! b) ∧
      (∀ p, p ≠ tab t → arrays mem' !! p = arrays mem !! p).
Proof.
  induction l as [|a l IH]; intros mem t cs Hrep Haddr Hnd Hall.
  - exists t, mem, cs. by split_and!.
  - apply list.Forall_cons in Hall as [[n Hn] Hall].
    simpl in Hnd. pose proof Hnd as Hnd'.
    apply list.NoDup_cons in Hnd' as [Ha Hnd'].
    apply not_elem_of_app in Ha as [Hal Hac].
    destruct (Haddr _ _ Hn) as [Hnz _].
    assert (Z.of_nat (length (concat cs)) + 1 < 2 ^ 64) as Hbound.
    { pose proof (NoDup_bounded_length _ (2 ^ 64) Hnd) as Hb.
      simpl length in Hb. rewrite length_app in Hb.
      enough (Z.of_nat (S (length l + length (concat cs))) ≤ 2 ^ 64 - 1) by lia.
      etrans; [apply Hb|lia].
      intros b [->|[Hb'|Hb']%elem_of_app]%elem_of_cons.
      - by eapply Haddr.
      - rewrite list.Forall_forall in Hall.
        destruct (Hall b Hb') as [nb Hnb]. by eapply Haddr.
      - apply elem_of_concat_lookup in Hb' as (i & c & Hc & Hb').
        destruct (rep_home _ _ _ Hrep _ _ _ Hc Hb') as (nb & Hnb & _).
        by eapply Haddr. }
    destruct (HTab_insert_spec mem t cs a n Hrep Hn ltac:(lia) Hac Hbound)
      as (t1 & mem1 & c & Hins & Hc & Hrep1 & Et1 & Hupd).
    destruct (concat_insert_perm cs _ _ (a :: c) Hc) as (rest & H1 & H2).
    destruct (IH mem1 t1 _ Hrep1) as (t' & mem' & cs' & Hrun & Hrep' & Hperm & Et & Em & Hh & Harr).
    + by eapply mem_update_addr.
    + rewrite H2. simpl. rewrite <- Permutation_middle. rewrite <- H1. done.
    + rewrite list.Forall_forall in Hall |- *. intros b Hb.
      rewrite (mem_update_dom _ _ _ _ b Hupd). by apply Hall.
    + exists t', mem', cs'. simpl. rewrite (bind_Ok _ _ _ _ _ Hins).
      split_and!; try done.
      * rewrite Hperm, H2. simpl. rewrite <- Permutation_middle. by rewrite <- H1.
      * rewrite Et. by subst t1.
      * rewrite Em. by subst t1.
      * intros b. rewrite Hh. apply (upd_hcode _ _ _ _ Hupd).
      * intros p Hp. rewrite Harr by (by subst t1). by apply (upd_arrays _ _ _ _ Hupd).
Qed.

Lemma migrating_map_wf :
  ∃ m mem csN csO,
    migrating_map (scenario_mem 129) = Ok (m, mem) ∧ Inv mem m csN csO ∧
    size (older m) = 129.
Proof.
  assert (∀ a n, nodes (scenario_mem 129) !! a = Some n → 0 < a < 2 ^ 64) as Haddr.
  { apply (map_Forall_lookup (λ a _, 0 < a < 2 ^ 64)).
    apply (bool_decide_unpack _). by vm_compute. }
  unfold migrating_map.
  destruct (HTab.init 4 (scenario_mem 129)) as [[o0 mem0]| |] eqn:Hinit; [|done..].
  destruct (HTab_init_rep 4 _ _ _ Hinit ltac:(lia))
    as (Hrep0 & Ht0 & Hfresh0 & Hmask0 & Hsize0 & Hupd0).
  pose proof (mem_update_addr _ _ _ _ Hupd0 Haddr) as Haddr0.
  destruct (tab_insert_all_rep (node_addr <$> seqZ 0 129) mem0 o0 _ Hrep0 Haddr0)
    as (o & mem1 & csO & Hfill & HrepO & Hperm & Eto & Emo & Hh & Harr).
  { rewrite concat_replicate_nil, app_nil_r.
    apply (bool_decide_unpack _). by vm_compute. }
  { rewrite list.Forall_forall. intros b Hb.
    rewrite (mem_update_dom _ _ _ _ b Hupd0). revert b Hb.
    rewrite <- list.Forall_forall. apply (bool_decide_unpack _). by vm_compute. }
  rewrite concat_replicate_nil, app_nil_r in Hperm.
  assert (∀ a n, nodes mem1 !! a = Some n → 0 < a < 2 ^ 64) as Haddr1.
  { intros a n Hn. assert (is_Some (nodes mem0 !! a)) as [n0 Hn0].
    { rewrite <- (fmap_is_Some hcode), <- Hh, fmap_is_Some. eauto. }
    by eapply Haddr0. }
  destruct (HTab.init 8 mem1) as [[n8 mem2]| |] eqn:Hinit8.
  2,3: unfold HTab.init, bind, assert, calloc, ret in Hinit8; simpl in Hinit8; done.
  destruct (HTab_init_rep 8 _ _ _ Hinit8 ltac:(lia))
    as (HrepN & HtN & HfreshN & HmaskN & HsizeN & HupdN).
  exists {| newer := n8; older := o; migrate_pos := 0 |}, mem2,
    (replicate (Z.to_nat 8) []), csO.
  assert (tab n8 ≠ tab o) as Hne.
  { intros E. destruct (rep_slots _ _ _ HrepO) as (slots & Hs & _). congruence. }
  pose proof (tab_rep_update _ _ _ _ _ _ HrepO HupdN (not_eq_sym Hne)
                ltac:(by intros ? ?%elem_of_nil)) as HrepO2.
  split_and!.
  - rewrite (bind_Ok _ _ _ _ _ Hinit). rewrite (bind_Ok _ _ _ _ _ Hfill).
    by rewrite (bind_Ok _ _ _ _ _ Hinit8).
  - split; simpl; try done.
    + by eapply mem_update_addr.
    + by right.
    + by right.
    + rewrite ?concat_replicate_nil. simpl. rewrite Hperm.
      apply (bool_decide_unpack _). by vm_compute.
    + intros _. exists 3. split; [lia|]. by rewrite HmaskN.
    + intros _. exists 2. split; [lia|]. by rewrite Emo, Hmask0.
    + intros _. rewrite Emo, Hmask0. lia.
    + intros i c Hi. simpl in Hi. lia.
  - simpl. rewrite (rep_size _ _ _ HrepO), Hperm.
    rewrite length_fmap, length_seqZ. done.
Qed.

(** ** The shape of a lookup *)

Lemma read_node_mem a mem n mem' : read_node a mem = Ok (n, mem') → mem' = mem.
Proof. unfold read_node. destruct (nodes mem !! a); by intros [=]. Qed.

Lemma load_mem l mem p mem' : load l mem = Ok (p, mem') → mem' = mem.
Proof.
  destruct l as [base i|a]; simpl.
  - unfold read_slot. destruct (arrays mem !! base) as [slots|]; [|done].
    destruct (slots !! Z.to_nat i); by intros [=].
  - intros (n & mem1 & ->%read_node_mem & [=])%bind_Ok_inv. done.
Qed.

Lemma lookup_loop_mem fuel :
  ∀ from key eq mem r mem',
    HTab.lookup_loop fuel from key eq mem = Ok (r, mem') → mem' = mem.
Proof.
  induction fuel as [|fuel IH]; intros from key eq mem r mem'; simpl; [done|].
  intros (cur & mem1 & ->%load_mem & Hrun)%bind_Ok_inv.
  destruct (decide (cur = 0)); [by injection Hrun|].
  apply bind_Ok_inv in Hrun as (c & mem2 & ->%read_node_mem & Hrun).
  apply bind_Ok_inv in Hrun as (k & mem3 & ->%read_node_mem & Hrun).
  destruct ((hcode c =? hcode k) && eq cur key); [by injection Hrun|].
  by eapply IH.
Qed.

Lemma HTab_lookup_mem fuel t key eq mem r mem' :
  HTab.lookup fuel t key eq mem = Ok (r, mem') → mem' = mem.
Proof.
  unfold HTab.lookup. destruct (decide (tab t = 0)); [by intros [=]|].
  intros (k & mem1 & ->%read_node_mem & Hrun)%bind_Ok_inv.
  by eapply lookup_loop_mem.
Qed.

Lemma HMap_lookup_inv fuel m key eq mem r m' mem' :
  HMap.lookup fuel m key eq mem = Ok ((r, m'), mem') →
  HMap.help_rehashing fuel m mem = Ok (m', mem') ∧
  ((∃ l, HTab.lookup fuel (newer m') key eq mem' = Ok (Some l, mem') ∧
         load l mem' = Ok (r, mem'))
   ∨ (HTab.lookup fuel (newer m') key eq mem' = Ok (None, mem') ∧
      ((∃ l, HTab.lookup fuel (older m') key eq mem' = Ok (Some l, mem') ∧
             load l mem' = Ok (r, mem'))
       ∨ (HTab.lookup fuel (older m') key eq mem' = Ok (None, mem') ∧ r = 0)))).
Proof.
  unfold HMap.lookup.
  intros (m1 & mem1 & Hhelp & Hrun)%bind_Ok_inv.
  apply bind_Ok_inv in Hrun as (from1 & mem2 & Hnew & Hrun).
  pose proof (HTab_lookup_mem _ _ _ _ _ _ _ Hnew) as ->.
  apply bind_Ok_inv in Hrun as (from2 & mem3 & Hold & Hrun).
  destruct from1 as [l|].
  - unfold ret in Hold. simplify_eq.
    apply bind_Ok_inv in Hrun as (p & mem4 & Hload & Hret).
    pose proof (load_mem _ _ _ _ Hload) as ->.
    unfold ret in Hret. simplify_eq. split; [done|]. left. eauto.
  - pose proof (HTab_lookup_mem _ _ _ _ _ _ _ Hold) as ->.
    destruct from2 as [l|].
    + apply bind_Ok_inv in Hrun as (p & mem4 & Hload & Hret).
      pose proof (load_mem _ _ _ _ Hload) as ->.
      unfold ret in Hret. simplify_eq. split; [done|]. right. split; [done|].
      left. eauto.
    + unfold ret in Hrun. simplify_eq. split; [done|]. right. split; [done|].
      by right.
Qed.

Lemma inserted_33_31 :
  final_map (inserted 33 31)
  = {| newer := {| tab := 1; mask := 3; size := 31 |}; older := HTab0;
       migrate_pos := 0 |}.
Proof. vm_compute. reflexivity. Qed.

Lemma inserted_33_32 :
  final_map (inserted 33 32)
  = {| newer := {| tab := 2; mask := 7; size := 32 |}; older := HTab0;
       migrate_pos := 3 |}.
Proof. vm_compute. reflexivity. Qed.

Lemma inserted_33_33 :
  final_map (inserted 33 33)
  = {| newer := {| tab := 2; mask := 7; size := 33 |}; older := HTab0;
       migrate_pos := 3 |}.
Proof. vm_compute. reflexivity. Qed.

(** ** Why a record is linked at most once at a time *)

(** Inserting a record that is already in the map makes it its own
    successor: the live count is 2 for one node, and a traversal that is
    never told to stop does not come to an end, whatever the bound. *)
Lemma visit_self_loop {A} mem a n (f : Z → A → bool * A) :
  a ≠ 0 → nodes mem !! a = Some n → next n = a → (∀ x arg, fst (f x arg) = true) →
  ∀ fuel arg, HTab.visit_chain fuel a f arg mem = OutOfFuel.
Proof.
  intros Hnz Hn Hnext Hgo. induction fuel as [|fuel IH]; intros arg; [done|].
  simpl. rewrite decide_False by done.
  specialize (Hgo a arg). destruct (f a arg) as [go arg']. simpl in Hgo. subst go.
  unfold bind, read_node. rewrite Hn, Hnext. apply IH.
Qed.

Lemma insert_twice_self_loop :
  let r := insert_all 1000 HMap0 [node_addr 0; node_addr 0] (scenario_mem 1) in
  r = Ok (final_map r, final_mem r) ∧
  next <$> nodes (final_mem r) !! node_addr 0 = Some (node_addr 0) ∧
  HMap.size (final_map r) = 2 ∧
  ∀ fuel, HMap.foreach fuel (final_map r) record_node [] (final_mem r) = OutOfFuel.
Proof.
  intros r.
  assert (final_map r = {| newer := {| tab := 1; mask := 3; size := 2 |};
                           older := HTab0; migrate_pos := 0 |}) as Hm
    by (vm_compute; reflexivity).
  assert (arrays (final_mem r) !! 1 = Some [node_addr 0; 0; 0; 0]) as Harr
    by (vm_compute; reflexivity).
  assert (nodes (final_mem r) !! node_addr 0
          = Some {| next := node_addr 0; hcode := 0 |}) as Hn
    by (vm_compute; reflexivity).
  split_and!.
  - by apply (final_Ok _ _ Hm).
  - by rewrite Hn.
  - by rewrite Hm.
  - intros fuel. rewrite Hm. unfold HMap.foreach, HTab.foreach. simpl.
    destruct fuel as [|fuel]; [done|]. simpl.
    unfold bind, read_slot, read_node. rewrite Harr. simpl. rewrite Hn. simpl.
    by rewrite (visit_self_loop _ (node_addr 0) _ record_node ltac:(done) Hn eq_refl
                  ltac:(done) fuel).
Qed.


(** * The claims of the specification *)

(** ** Scenario A *)

(** C1, as stated, fails: after the 33 insertions of scenario A no rehash
    cycle is active.  There is no state in which the 33 records are in the
    map, the retiring table is non-empty and the active capacity is 8. *)
Lemma scenario_A_no_active_cycle :
  ¬ ∃ m mem,
      inserted 33 33 = Ok (m, mem) ∧ 0 < size (older m) ∧ mask (newer m) + 1 = 8.
Proof.
  intros (m & mem & Hrun & Hs & _).
  pose proof inserted_33_33 as Hm. rewrite Hrun in Hm. simpl in Hm.
  rewrite Hm in Hs. simpl in Hs. lia.
Qed.

(** C1, amended: in scenario A (initial capacity 4, load factor 8, quota
    128, hash codes 0..32 inserted in this order) the active table still has
    capacity 4 after 31 insertions; the 32nd insertion starts a cycle and
    drains it at once, so that it leaves capacity 8 and no retiring table;
    after the 33rd insertion the capacity is 8, no cycle is active and
    [size()] is 33; and each of 0 to 5 further lookups that find nothing
    returns [nullptr] and leaves [size() = 33] and no active cycle. *)
Theorem scenario_A :
  (∃ m mem, inserted 33 31 = Ok (m, mem) ∧
     mask (newer m) + 1 = 4 ∧ older m = HTab0 ∧ HMap.size m = 31) ∧
  (∃ m mem, inserted 33 32 = Ok (m, mem) ∧
     mask (newer m) + 1 = 8 ∧ older m = HTab0 ∧ HMap.size m = 32) ∧
  (∃ m mem, inserted 33 33 = Ok (m, mem) ∧
     mask (newer m) + 1 = 8 ∧ older m = HTab0 ∧ HMap.size m = 33 ∧
     Forall (λ k, ∃ m' mem',
               lookup_times 1000 k m probe (λ _ _, true) mem
                 = Ok ((replicate k 0, m'), mem') ∧
               older m' = HTab0 ∧ HMap.size m' = 33)
       (seq 0 6)).
Proof.
  split_and!.
  - exists (final_map (inserted 33 31)), (final_mem (inserted 33 31)).
    split; [by apply (final_Ok _ _ inserted_33_31)|].
    by rewrite inserted_33_31.
  - exists (final_map (inserted 33 32)), (final_mem (inserted 33 32)).
    split; [by apply (final_Ok _ _ inserted_33_32)|].
    by rewrite inserted_33_32.
  - exists (final_map (inserted 33 33)), (final_mem (inserted 33 33)).
    split; [by apply (final_Ok _ _ inserted_33_33)|].
    rewrite inserted_33_33. split_and!; [done..|].
    repeat constructor;
      exists {| newer := {| tab := 2; mask := 7; size := 33 |}; older := HTab0;
                migrate_pos := 3 |}, (final_mem (inserted 33 33));
      (split; [vm_compute; reflexivity|done]).
Qed.

(** ** The migration step *)

(** C2, as stated, fails where a delete empties the retiring table: the
    delete unlinks the node after its migration step has run, and frees
    nothing.  In this well-formed map, 129 nodes are retiring; the migration
    step of the delete moves 128 of them and the delete unlinks the last,
    which leaves the retiring table with no node, still initialised, and
    its array still allocated. *)
Lemma delete_leaves_drained_table :
  ∃ m mem csN csO r m' mem',
    migrating_map (scenario_mem 129) = Ok (m, mem) ∧
    Inv mem m csN csO ∧ size (older m) = 129 ∧
    HMap.hm_delete 1000 m (node_addr 3) same_node mem = Ok ((r, m'), mem') ∧
    r = node_addr 3 ∧ size (older m') = 0 ∧ older m' ≠ HTab0 ∧
    arrays mem' !! tab (older m') = Some [0; 0; 0; 0].
Proof.
  destruct migrating_map_wf as (m & mem & csN & csO & Hrun & HI & Hs).
  exists m, mem, csN, csO.
  assert (match HMap.hm_delete 1000 (final_map (migrating_map (scenario_mem 129)))
                  (node_addr 3) same_node
                  (final_mem (migrating_map (scenario_mem 129))) with
          | Ok ((r, m'), mem') =>
              Some (r, size (older m'), tab (older m'), arrays mem' !! tab (older m'))
          | _ => None
          end = Some (node_addr 3, 0, 1, Some [0; 0; 0; 0])) as Hdel.
  { vm_compute. reflexivity. }
  rewrite Hrun in Hdel. simpl final_map in Hdel. simpl final_mem in Hdel.
  destruct (HMap.hm_delete 1000 m (node_addr 3) same_node mem)
    as [[[r m'] mem']| |]; [|discriminate..].
  injection Hdel as Hr Hsz Htab Harr.
  exists r, m', mem'.
  split; [exact Hrun|]. split; [exact HI|]. split; [exact Hs|].
  split; [reflexivity|]. split; [exact Hr|]. split; [exact Hsz|].
  split; [|exact Harr].
  intros E. rewrite E in Htab. discriminate.
Qed.

(** C2, amended: in every well-formed map with a retiring table,
    - an iteration of the migration loop that finds the slot under the
      cursor empty advances the cursor and charges nothing; one that finds
      a node there unlinks this head node, pushes it on its slot of the
      active table and charges one unit, and leaves the cursor;
    - the migration step moves [min 128 count] nodes, never moves the
      cursor back, and frees the retiring array and resets the retiring
      table to [HTab{}] exactly if it ends with no node retiring, which
      includes the step that finds the table already emptied;
    - a delete frees the retiring array only in its migration step: the
      unlinking that follows leaves the table initialised and allocated. *)
Theorem migration_step mem m csN csO :
  Inv mem m csN csO → tab (older m) ≠ 0 →
  (∀ nwork, 0 ≤ nwork < kRehasingWork → 0 < size (older m) →
     ∃ c, csO !! Z.to_nat (migrate_pos m) = Some c ∧
       match c with
       | [] =>
           HMap.help_body m nwork mem
           = Ok (({| newer := newer m; older := older m;
                     migrate_pos := migrate_pos m + 1 |}, nwork), mem)
       | a :: c' =>
           ∃ n cN m' mem',
             nodes mem !! a = Some n ∧
             csN !! Z.to_nat (HTab.get_position (newer m) (hcode n)) = Some cN ∧
             HMap.help_body m nwork mem = Ok ((m', nwork + 1), mem') ∧
             Inv mem' m'
               (<[Z.to_nat (HTab.get_position (newer m) (hcode n)) := a :: cN]> csN)
               (<[Z.to_nat (migrate_pos m) := c']> csO) ∧
             migrate_pos m' = migrate_pos m ∧
             size (older m') = size (older m) - 1 ∧
             size (newer m') = size (newer m) + 1
       end) ∧
  (∀ fuel, fuel_ok m fuel →
     ∃ m' mem' csN' csO',
       HMap.help_rehashing fuel m mem = Ok (m', mem') ∧ Inv mem' m' csN' csO' ∧
       size (older m') = size (older m) - Z.min kRehasingWork (size (older m)) ∧
       size (newer m') = size (newer m) + Z.min kRehasingWork (size (older m)) ∧
       migrate_pos m ≤ migrate_pos m' ∧
       (size (older m) ≤ kRehasingWork →
          older m' = HTab0 ∧ arrays mem' !! tab (older m) = None) ∧
       (kRehasingWork < size (older m) →
          tab (older m') = tab (older m) ∧
          is_Some (arrays mem' !! tab (older m)))) ∧
  (∀ fuel key eq nk, nodes mem !! key = Some nk → fuel_ok m fuel →
     ∃ r m' mem' m1 mem1,
       HMap.hm_delete fuel m key eq mem = Ok ((r, m'), mem') ∧
       HMap.help_rehashing fuel m mem = Ok (m1, mem1) ∧
       tab (older m') = tab (older m1) ∧
       (tab (older m1) ≠ 0 → is_Some (arrays mem' !! tab (older m1)))).
Proof.
  intros HI Ho. split_and!.
  - intros nwork Hw Hs.
    destruct (help_body_spec mem m csN csO nwork HI Hs Hw) as (c & Hc & Hbody).
    exists c. split; [done|]. destruct c as [|a c'].
    + by destruct Hbody.
    + destruct Hbody as (n & cN & m' & mem' & Hn & HcN & Hrun & Hev & Hpos & Hso & Hsn).
      exists n, cN, m', mem'. split_and!; try done.
      apply (ev_inv _ _ _ _ _ _ _ _ Hev).
  - intros fuel Hfuel.
    destruct (outcome_total _ _ _ (help_rehashing_spec fuel mem m csN csO HI)
                (fuel_ok_help _ _ _ _ _ HI Hfuel))
      as ([m' mem'] & Hrun & csN' & csO' & Hmg).
    pose proof (mg_inv _ _ _ _ _ _ _ _ Hmg) as HI'.
    exists m', mem', csN', csO'. split_and!; try done.
    + apply (mg_older_size _ _ _ _ _ _ _ _ Hmg).
    + apply (mg_newer_size _ _ _ _ _ _ _ _ Hmg).
    + apply (mg_cursor _ _ _ _ _ _ _ _ Hmg).
    + intros Hle. destruct (mg_freed _ _ _ _ _ _ _ _ Hmg Hle) as (? & _ & Hfreed).
      split; [done|]. by apply Hfreed.
    + intros Hgt. destruct (mg_kept _ _ _ _ _ _ _ _ Hmg Hgt) as [Et Em].
      split; [done|]. rewrite <- Et.
      assert (tab (older m') ≠ 0) as Ho' by congruence.
      destruct (Inv_migrating _ _ _ _ HI' Ho') as (_ & HrO & _).
      destruct (rep_slots _ _ _ HrO) as (slots & -> & _). eauto.
  - intros fuel key eq nk Hk Hfuel.
    destruct (outcome_total _ _ _ (hm_delete_spec fuel mem m csN csO key eq nk HI Hk)
                Hfuel) as ([[r m'] mem'] & Hrun & Hpost).
    destruct Hpost as (m1 & mem1 & csN1 & csO1 & csN' & csO' & Hhelp & Hmg & HI' & _ & _
                       & _ & Et & _).
    exists r, m', mem', m1, mem1. split_and!; try done.
    intros Ho1. rewrite <- Et in Ho1 |- *.
    destruct (Inv_migrating _ _ _ _ HI' Ho1) as (_ & HrO & _).
    destruct (rep_slots _ _ _ HrO) as (slots & -> & _). eauto.
Qed.

(** The map after 256 inserts is in the middle of a cycle with 128
    retiring nodes: one step moves them all and frees the table. *)
Lemma migration_step_witness :
  ∃ csN csO,
    Inv memM mapM csN csO ∧ tab (older mapM) ≠ 0 ∧
    ∃ m' mem',
      HMap.help_rehashing 1000 mapM memM = Ok (m', mem') ∧
      size (newer m') = 256 ∧ older m' = HTab0 ∧
      arrays mem' !! tab (older mapM) = None.
Proof.
  destruct (reachable_Inv memM mapM liveM mapM_reachable) as (csN & csO & HI & _).
  assert (tab (older mapM) ≠ 0) as Ho.
  { rewrite (proj2 mapM_state). simpl. lia. }
  assert (fuel_ok mapM 1000) as Hfuel.
  { rewrite (proj2 mapM_state). unfold fuel_ok. simpl. lia. }
  exists csN, csO. split; [exact HI|]. split; [exact Ho|].
  destruct (migration_step memM mapM csN csO HI Ho) as (_ & Hstep & _).
  destruct (Hstep 1000%nat Hfuel)
    as (m' & mem' & _ & _ & Hrun & _ & _ & Hsn & _ & Hfreed & _).
  assert (size (newer mapM) = 128 ∧ size (older mapM) = 128) as [HsN HsO].
  { rewrite (proj2 mapM_state). split; reflexivity. }
  exists m', mem'. split; [exact Hrun|].
  rewrite HsN, HsO in Hsn. rewrite HsO in Hfreed.
  split; [exact Hsn|]. apply Hfreed. unfold kRehasingWork. lia.
Defined.

(** ** Lookup *)

(** C3: in every reachable state, if a node that was inserted and not
    deleted since has the hash code of the key and is [eq] to it, then
    [lookup] returns a node of the map with that hash code that is [eq] to
    the key.  The lookup is one migration step, after which the active
    table is probed, and the retiring table only if the active one has no
    match; the result is the node found, or [nullptr]. *)
Theorem lookup_finds mem m live fuel a key eq na nk :
  reachable mem m live → a ∈ live →
  nodes mem !! a = Some na → nodes mem !! key = Some nk →
  hcode na = hcode nk → eq a key = true → fuel_ok m fuel →
  ∃ r m' mem',
    HMap.lookup fuel m key eq mem = Ok ((r, m'), mem') ∧
    r ∈ live ∧
    (∃ nr, nodes mem !! r = Some nr ∧ hcode nr = hcode nk ∧ eq r key = true) ∧
    HMap.help_rehashing fuel m mem = Ok (m', mem') ∧
    ((∃ l, HTab.lookup fuel (newer m') key eq mem' = Ok (Some l, mem') ∧
           load l mem' = Ok (r, mem'))
     ∨ (HTab.lookup fuel (newer m') key eq mem' = Ok (None, mem') ∧
        ((∃ l, HTab.lookup fuel (older m') key eq mem' = Ok (Some l, mem') ∧
               load l mem' = Ok (r, mem'))
         ∨ (HTab.lookup fuel (older m') key eq mem' = Ok (None, mem') ∧ r = 0)))) ∧
    reachable mem' m' live.
Proof.
  intros Hr Ha Hna Hnk Hhc Heq Hfuel.
  destruct (reachable_Inv _ _ _ Hr) as (csN & csO & HI & Hlive).
  destruct (outcome_total _ _ _ (HMap_lookup_spec fuel mem m csN csO key eq nk HI Hnk)
              Hfuel) as ([[r m'] mem'] & Hrun & csN' & csO' & Hmg & Hcase).
  destruct (HMap_lookup_inv _ _ _ _ _ _ _ _ Hrun) as [Hhelp Hshape].
  assert (hmatch mem key eq a = true) as Hma.
  { unfold hmatch. rewrite Hna, Hnk, Heq, Hhc, Z.eqb_refl. done. }
  assert (r ∈ concat csN' ++ concat csO' ∧ hmatch mem key eq r = true) as [Hrin Hmr].
  { destruct Hcase as [[_ Hnone]|[[? ?]|(? & ? & _)]].
    - rewrite Hnone in Hma; [done|].
      rewrite (mg_perm _ _ _ _ _ _ _ _ Hmg). by apply Hlive.
    - split; [|done]. apply elem_of_app. auto.
    - split; [|done]. apply elem_of_app. auto. }
  exists r, m', mem'. split_and!; try done.
  - apply Hlive. by rewrite <- (mg_perm _ _ _ _ _ _ _ _ Hmg).
  - unfold hmatch in Hmr. rewrite Hnk in Hmr.
    destruct (nodes mem !! r) as [nr|]; [|done].
    apply andb_true_iff in Hmr as [?%Z.eqb_eq ?]. eauto.
  - by eapply reach_lookup.
Qed.

(** In the map after 256 inserts, the record with hash code 200 is found
    by a lookup with its own address as the key. *)
Lemma lookup_finds_witness :
  ∃ na,
    reachable memM mapM liveM ∧ node_addr 200 ∈ liveM ∧
    nodes memM !! node_addr 200 = Some na ∧ hcode na = 200 ∧
    same_node (node_addr 200) (node_addr 200) = true ∧ fuel_ok mapM 1000 ∧
    ∃ m' mem',
      HMap.lookup 1000 mapM (node_addr 200) same_node memM
        = Ok ((node_addr 200, m'), mem').
Proof.
  assert (fuel_ok mapM 1000) as Hfuel.
  { rewrite (proj2 mapM_state). unfold fuel_ok. simpl. lia. }
  assert (node_addr 200 ∈ liveM) as Hlive.
  { unfold liveM. apply elem_of_list_to_set, list_elem_of_fmap.
    exists 200. split; [done|]. apply elem_of_seqZ. lia. }
  destruct (nodes memM !! node_addr 200) as [na|] eqn:Hna;
    [|exfalso; vm_compute in Hna; discriminate].
  assert (hcode na = 200) as Hhc.
  { assert (hcode <$> nodes memM !! node_addr 200 = Some 200) as H
      by (vm_compute; reflexivity).
    rewrite Hna in H. by injection H. }
  exists na.
  split; [exact mapM_reachable|]. split; [exact Hlive|]. split; [reflexivity|].
  split; [exact Hhc|]. split; [reflexivity|]. split; [exact Hfuel|].
  destruct (lookup_finds memM mapM liveM 1000 (node_addr 200) (node_addr 200)
              same_node na na mapM_reachable Hlive Hna Hna eq_refl eq_refl Hfuel)
    as (r & m' & mem' & Hrun & _ & (nr & Hnr & _ & Hsame) & _).
  apply Z.eqb_eq in Hsame. subst r. exists m', mem'. exact Hrun.
Defined.

(** ** Growth *)



(** ** Size and traversal *)

(** C5: in every reachable state [size()] is the sum of the two live
    counts, and a full traversal visits exactly that many nodes, none of
    them twice: the nodes inserted and not deleted since. *)
Theorem size_counts_traversal mem m live fuel :
  reachable mem m live → fuel_ok m fuel →
  HMap.size m = size (newer m) + size (older m) ∧
  ∃ visited,
    HMap.foreach fuel m record_node [] mem = Ok (visited, mem) ∧
    Z.of_nat (length visited) = HMap.size m ∧
    NoDup visited ∧ ∀ a, a ∈ visited ↔ a ∈ live.
Proof.
  intros Hr Hfuel. destruct (reachable_Inv _ _ _ Hr) as (csN & csO & HI & Hlive).
  destruct (Inv_size _ _ _ _ HI) as [Hsz Hsize]. split; [done|].
  destruct (outcome_total _ _ _ (HMap_foreach_spec mem m csN csO record_node fuel [] HI)
              Hfuel) as (r & Hrun & ->).
  rewrite visit_list_record in Hrun. simpl in Hrun.
  exists (concat csN ++ concat csO). split_and!; [done|lia| |].
  - apply (inv_nodup _ _ _ _ HI).
  - intros a. by rewrite Hlive.
Qed.

(** The map after 256 inserts, in the middle of a cycle. *)
Lemma size_counts_traversal_witness :
  reachable memM mapM liveM ∧ fuel_ok mapM 1000 ∧
  HMap.size mapM = size (newer mapM) + size (older mapM) ∧
  ∃ visited,
    HMap.foreach 1000 mapM record_node [] memM = Ok (visited, memM) ∧
    Z.of_nat (length visited) = HMap.size mapM ∧
    NoDup visited ∧ ∀ a, a ∈ visited ↔ a ∈ liveM.
Proof.
  assert (fuel_ok mapM 1000) as Hfuel.
  { rewrite (proj2 mapM_state). unfold fuel_ok. simpl. lia. }
  split; [exact mapM_reachable|]. split; [exact Hfuel|].
  exact (size_counts_traversal memM mapM liveM 1000 mapM_reachable Hfuel).
Defined.

(** ** One cycle at a time *)

(** C6: in every reachable state, a lookup or a delete never replaces the
    active table, and neither does an insert while the retiring table holds
    a node, whatever the load; an insert that replaces an initialised
    active table found the retiring table uninitialised and the live count
    of the active table at the threshold, and doubled the capacity; an
    insert that keeps it found the count below the threshold, unless a
    retiring table was still there. *)
Theorem single_cycle mem m live :
  reachable mem m live →
  (∀ fuel key eq r m' mem',
     is_Some (nodes mem !! key) →
     HMap.lookup fuel m key eq mem = Ok ((r, m'), mem') →
     tab (newer m') = tab (newer m) ∧ mask (newer m') = mask (newer m)) ∧
  (∀ fuel key eq r m' mem',
     is_Some (nodes mem !! key) →
     HMap.hm_delete fuel m key eq mem = Ok ((r, m'), mem') →
     tab (newer m') = tab (newer m) ∧ mask (newer m') = mask (newer m)) ∧
  (∀ fuel node m' mem',
     is_Some (nodes mem !! node) → node ∉ live →
     HMap.insert fuel m node mem = Ok (m', mem') →
     (0 < size (older m) →
        tab (newer m') = tab (newer m) ∧ mask (newer m') = mask (newer m)) ∧
     (tab (newer m) ≠ 0 → tab (newer m') ≠ tab (newer m) →
        older m = HTab0 ∧
        wrap (wrap (mask (newer m) + 1) * kMaxLoadFactor) ≤ size (newer m) + 1 ∧
        mask (newer m') + 1 = 2 * (mask (newer m) + 1)) ∧
     (tab (newer m) ≠ 0 → tab (newer m') = tab (newer m) →
        mask (newer m') = mask (newer m) ∧
        (older m = HTab0 →
         size (newer m) + 1 < wrap (wrap (mask (newer m) + 1) * kMaxLoadFactor)))).
Proof.
  intros Hr. destruct (reachable_Inv _ _ _ Hr) as (csN & csO & HI & Hlive).
  split_and!.
  - intros fuel key eq r m' mem' [kn Hk] Hrun.
    pose proof (HMap_lookup_spec fuel mem m csN csO key eq kn HI Hk) as Hspec.
    rewrite Hrun in Hspec. destruct Hspec as (csN' & csO' & Hmg & _).
    split; [apply (mg_newer_tab _ _ _ _ _ _ _ _ Hmg)|apply (mg_newer_mask _ _ _ _ _ _ _ _ Hmg)].
  - intros fuel key eq r m' mem' [kn Hk] Hrun.
    pose proof (hm_delete_spec fuel mem m csN csO key eq kn HI Hk) as Hspec.
    rewrite Hrun in Hspec.
    destruct Hspec as (m1 & mem1 & csN1 & csO1 & csN' & csO' & _ & Hmg & _ & _ & Et & Em & _).
    rewrite Et, Em.
    split; [apply (mg_newer_tab _ _ _ _ _ _ _ _ Hmg)|apply (mg_newer_mask _ _ _ _ _ _ _ _ Hmg)].
  - intros fuel node m' mem' [n Hn] Hfresh Hrun.
    rewrite Hlive in Hfresh.
    destruct (HMap_insert_spec _ _ _ _ _ _ _ _ _ HI Hn Hfresh Hrun)
      as (csN' & csO' & _ & _ & _ & Hkeep & Hnew & Hsame).
    split_and!.
    + intros Hs. apply Hkeep. by eapply Inv_older_tab.
    + intros Ht Hne. destruct (Hnew Ht Hne) as (Ho & Hth & Hcap).
      split_and!; [|done..].
      by apply (table_ok_null _ _ _ (inv_older _ _ _ _ HI)).
    + intros Ht He. destruct (Hsame Ht He) as (Hm & Hth).
      split; [done|]. intros Ho. apply Hth. by rewrite Ho.
Qed.

(** In the middle of a cycle an insert keeps the active table. *)
Lemma single_cycle_witness :
  reachable memM mapM liveM ∧
  (∀ fuel node m' mem',
     is_Some (nodes memM !! node) → node ∉ liveM →
     HMap.insert fuel mapM node memM = Ok (m', mem') →
     tab (newer m') = tab (newer mapM) ∧ mask (newer m') = mask (newer mapM)).
Proof.
  split; [exact mapM_reachable|].
  intros fuel node m' mem' Hnode Hfresh Hrun.
  destruct (single_cycle memM mapM liveM mapM_reachable) as (_ & _ & Hins).
  destruct (Hins fuel node m' mem' Hnode Hfresh Hrun) as (Hkeep & _).
  apply Hkeep. rewrite (proj2 mapM_state). simpl. lia.
Defined.

(** ** Deleting an absent key *)

(** C7: in every reachable state, deleting a key that no node of the map
    matches (same hash code and [eq]) returns [nullptr] and leaves [size()]
    unchanged: the migration step it performs only moves nodes from the
    retiring to the active table. *)
Theorem delete_absent mem m live fuel key eq nk :
  reachable mem m live → nodes mem !! key = Some nk →
  (∀ a, a ∈ live → hmatch mem key eq a = false) → fuel_ok m fuel →
  ∃ m' mem',
    HMap.hm_delete fuel m key eq mem = Ok ((0, m'), mem') ∧
    HMap.help_rehashing fuel m mem = Ok (m', mem') ∧
    HMap.size m' = HMap.size m ∧
    size (newer m') + size (older m') = size (newer m) + size (older m) ∧
    reachable mem' m' live.
Proof.
  intros Hr Hk Habsent Hfuel.
  destruct (reachable_Inv _ _ _ Hr) as (csN & csO & HI & Hlive).
  destruct (outcome_total _ _ _ (hm_delete_spec fuel mem m csN csO key eq nk HI Hk)
              Hfuel) as ([[r m'] mem'] & Hrun & Hpost).
  destruct Hpost as (m1 & mem1 & csN1 & csO1 & csN' & csO' & Hhelp & Hmg & HI' & _ & _
                     & _ & _ & _ & _ & Hcase).
  assert (r = 0 ∧ m' = m1 ∧ mem' = mem1) as (-> & -> & ->).
  { destruct Hcase as [(? & ? & ? & _)|(Hm & Hperm & _)]; [done|].
    rewrite Habsent in Hm; [done|]. apply Hlive.
    rewrite <- (mg_perm _ _ _ _ _ _ _ _ Hmg), Hperm. apply elem_of_cons. auto. }
  exists m1, mem1.
  pose proof (reach_delete _ _ _ _ _ _ _ _ _ Hr (mk_is_Some _ _ Hk) Hrun) as Hr'.
  assert (live ∖ {[0]} = live) as Hl.
  { apply set_eq. intros a. rewrite elem_of_difference, elem_of_singleton.
    split; [by intros []|]. intros Ha. split; [done|]. intros ->.
    apply Hlive in Ha. destruct (Inv_valid _ _ _ _ _ HI Ha). lia. }
  rewrite Hl in Hr'.
  rewrite (reachable_size _ _ _ Hr), (reachable_size _ _ _ Hr').
  pose proof (mg_newer_size _ _ _ _ _ _ _ _ Hmg).
  pose proof (mg_older_size _ _ _ _ _ _ _ _ Hmg).
  split_and!; [done..|lia|done].
Qed.

(** Deleting the probe, whose hash code no record has, from the map
    after 256 inserts. *)
Lemma delete_absent_witness :
  reachable memM mapM liveM ∧
  nodes memM !! probe = Some {| next := 0; hcode := 2 ^ 32 |} ∧
  (∀ a, a ∈ liveM → hmatch memM probe same_node a = false) ∧
  fuel_ok mapM 1000 ∧
  ∃ m' mem',
    HMap.hm_delete 1000 mapM probe same_node memM = Ok ((0, m'), mem') ∧
    HMap.help_rehashing 1000 mapM memM = Ok (m', mem') ∧
    HMap.size m' = HMap.size mapM ∧
    size (newer m') + size (older m') = size (newer mapM) + size (older mapM) ∧
    reachable mem' m' liveM.
Proof.
  assert (fuel_ok mapM 1000) as Hfuel.
  { rewrite (proj2 mapM_state). unfold fuel_ok. simpl. lia. }
  assert (nodes memM !! probe = Some {| next := 0; hcode := 2 ^ 32 |}) as Hk
    by (vm_compute; reflexivity).
  assert (∀ a, a ∈ liveM → hmatch memM probe same_node a = false) as Habsent.
  { intros a Ha. unfold liveM in Ha. apply elem_of_list_to_set in Ha.
    revert a Ha. apply list.Forall_forall.
    apply (bool_decide_unpack _). by vm_compute. }
  split; [exact mapM_reachable|]. split; [exact Hk|].
  split; [exact Habsent|]. split; [exact Hfuel|].
  exact (delete_absent memM mapM liveM 1000 probe same_node _
           mapM_reachable Hk Habsent Hfuel).
Defined.

(** ** Traversal order *)

(** C8 holds for a table of capacity 4: after inserting [nodeA] and then
    [nodeB], which share slot 1, a full traversal visits [nodeB] first. *)
Lemma scenario_B_capacity_four :
  ∃ t mem,
    scenarioB 4 scenarioB_mem = Ok ((t, (true, [nodeB; nodeA])), mem) ∧
    size t = 2 ∧ mask t = 3.
Proof. eexists _, _. split; [vm_compute; reflexivity|done]. Qed.

(** C8 fails for a table of capacity 1, which [init] accepts: its mask is 0,
    and the loop of [foreach] takes a zero mask for an uninitialised table.
    After inserting [nodeA] and then [nodeB] the table holds two nodes, and
    a full traversal runs to completion without visiting either. *)
Theorem foreach_skips_capacity_one :
  ∃ t mem,
    scenarioB 1 scenarioB_mem = Ok ((t, (true, [])), mem) ∧
    size t = 2 ∧ mask t = 0 ∧
    ∃ slots b, arrays mem !! tab t = Some slots ∧ slots !! 0%nat = Some nodeB ∧
      nodes mem !! nodeB = Some b ∧ next b = nodeA.
Proof.
  eexists _, _. split; [vm_compute; reflexivity|]. split_and!; [done..|].
  eexists _, _. split_and!; [vm_compute; reflexivity|reflexivity..].
Qed.

(** ** The cursor *)

(** C9: in every reachable state whose retiring table holds a node, the
    cursor is at most the mask of that table, the slot under the cursor
    exists, and every slot below the cursor is empty; so the migration step
    never leaves the array: it never aborts, and with enough iterations it
    returns. *)
Theorem cursor_in_bounds mem m live :
  reachable mem m live → 0 < size (older m) →
  0 ≤ migrate_pos m ≤ mask (older m) ∧
  (∃ slots,
     arrays mem !! tab (older m) = Some slots ∧
     Z.of_nat (length slots) = mask (older m) + 1 ∧
     is_Some (slots !! Z.to_nat (migrate_pos m)) ∧
     ∀ i, (i < Z.to_nat (migrate_pos m))%nat → slots !! i = Some 0) ∧
  (∀ fuel, HMap.help_rehashing fuel m mem ≠ Abort) ∧
  (∀ fuel, fuel_ok m fuel → ∃ m' mem', HMap.help_rehashing fuel m mem = Ok (m', mem')).
Proof.
  intros Hr Hs. destruct (reachable_Inv _ _ _ Hr) as (csN & csO & HI & _).
  pose proof (Inv_older_tab _ _ _ _ HI Hs) as Ho.
  destruct (Inv_migrating _ _ _ _ HI Ho) as (_ & HrO & _).
  pose proof (inv_cursor _ _ _ _ HI) as Hcur.
  pose proof (inv_cursor_le _ _ _ _ HI Ho) as Hle.
  pose proof (rep_cap _ _ _ HrO) as Hcap.
  split_and!; [lia..| | |].
  - destruct (rep_slots _ _ _ HrO) as (slots & Hsl & Hch).
    assert (length slots = length csO) as Hlen by (by eapply Forall2_length).
    exists slots. split_and!; [done|lia| |].
    + apply lookup_lt_is_Some. lia.
    + intros i Hi.
      destruct (lookup_lt_is_Some_2 csO i ltac:(lia)) as [c Hc].
      destruct (Forall2_lookup_r _ _ _ _ _ Hch Hc) as (p & Hp & Hpc).
      rewrite (inv_drained _ _ _ _ HI i c Hi Hc) in Hpc.
      unfold chain in Hpc. simpl in Hpc. by subst p.
  - intros fuel Habort.
    pose proof (help_rehashing_spec fuel mem m csN csO HI) as Hspec.
    by rewrite Habort in Hspec.
  - intros fuel Hfuel.
    destruct (outcome_total _ _ _ (help_rehashing_spec fuel mem m csN csO HI)
                (fuel_ok_help _ _ _ _ _ HI Hfuel)) as ([m' mem'] & Hrun & _).
    eauto.
Qed.

(** The map after 256 inserts: the cursor is at slot 15 of 32. *)
Lemma cursor_in_bounds_witness :
  reachable memM mapM liveM ∧ 0 < size (older mapM) ∧
  0 ≤ migrate_pos mapM ≤ mask (older mapM) ∧
  (∃ slots,
     arrays memM !! tab (older mapM) = Some slots ∧
     Z.of_nat (length slots) = mask (older mapM) + 1 ∧
     is_Some (slots !! Z.to_nat (migrate_pos mapM)) ∧
     ∀ i, (i < Z.to_nat (migrate_pos mapM))%nat → slots !! i = Some 0) ∧
  (∀ fuel, HMap.help_rehashing fuel mapM memM ≠ Abort) ∧
  (∀ fuel, fuel_ok mapM fuel →
     ∃ m' mem', HMap.help_rehashing fuel mapM memM = Ok (m', mem')).
Proof.
  assert (0 < size (older mapM)) as Hs.
  { rewrite (proj2 mapM_state). simpl. lia. }
  split; [exact mapM_reachable|]. split; [exact Hs|].
  exact (cursor_in_bounds memM mapM liveM mapM_reachable Hs).
Defined.

(** ** Teardown *)

(** C10: [clear()] frees the slot arrays of both tables and changes nothing
    else: no node, no other array, and no field of the map, whose table
    pointers now dangle; [size()] of the map it leaves is still the number
    of nodes that were in it. *)
Theorem clear_frees_arrays_only mem m live :
  reachable mem m live →
  ∃ mem',
    HMap.clear m mem = Ok (m, mem') ∧
    nodes mem' = nodes mem ∧
    (∀ p, arrays mem' !! p =
          if decide (p ≠ 0 ∧ (p = tab (newer m) ∨ p = tab (older m)))
          then None else arrays mem !! p) ∧
    HMap.size m = Z.of_nat (base.size live).
Proof.
  intros Hr. pose proof (reachable_size _ _ _ Hr) as Hsize.
  destruct (reachable_Inv _ _ _ Hr) as (csN & csO & HI & _).
  unfold HMap.clear, bind, free, ret.
  destruct (decide (tab (newer m) = 0)) as [HN|HN];
    destruct (decide (tab (older m) = 0)) as [HO|HO]; simpl.
  - exists mem. split_and!; [done..| |done].
    intros p. rewrite HN, HO. case_decide as Hp; [|done].
    by destruct Hp as [? [?|?]].
  - by apply (inv_first _ _ _ _ HI) in HN.
  - destruct (rep_slots _ _ _ (table_ok_rep _ _ _ (inv_newer _ _ _ _ HI) HN))
      as (slots & -> & _).
    eexists. split_and!; [done..| |done]. simpl. intros p.
    case_decide as Hp.
    + destruct Hp as [Hp0 [->| ->]]; [apply lookup_delete_eq|congruence].
    + apply lookup_delete_ne. intros <-. apply Hp. auto.
  - destruct (Inv_migrating _ _ _ _ HI HO) as (HrN & HrO & Hne).
    destruct (rep_slots _ _ _ HrN) as (slotsN & -> & _).
    destruct (rep_slots _ _ _ HrO) as (slotsO & HsO & _). simpl.
    rewrite lookup_delete_ne by done. rewrite HsO.
    eexists. split_and!; [done..| |done]. simpl. intros p.
    case_decide as Hp.
    + destruct Hp as [Hp0 [->| ->]].
      * rewrite lookup_delete_ne by (by apply not_eq_sym).
        apply lookup_delete_eq.
      * apply lookup_delete_eq.
    + rewrite !lookup_delete_ne; [done|..]; intros <-; apply Hp; auto.
Qed.

(** Teardown of the map after 256 inserts, both tables allocated. *)
Lemma clear_frees_arrays_only_witness :
  reachable memM mapM liveM ∧
  ∃ mem',
    HMap.clear mapM memM = Ok (mapM, mem') ∧
    nodes mem' = nodes memM ∧
    (∀ p, arrays mem' !! p =
          if decide (p ≠ 0 ∧ (p = tab (newer mapM) ∨ p = tab (older mapM)))
          then None else arrays memM !! p) ∧
    HMap.size mapM = Z.of_nat (base.size liveM).
Proof.
  split; [exact mapM_reachable|].
  exact (clear_frees_arrays_only memM mapM liveM mapM_reachable).
Defined.
(** * Further properties of the code *)

(** ** HTab::init *)

Lemma land_pred_pow2 k : 0 ≤ k → Z.land (2 ^ k - 1) (2 ^ k) = 0.
Proof.
  intros Hk. replace (2 ^ k - 1) with (Z.ones k) by (rewrite Z.ones_equiv; lia).
  rewrite Z.land_comm, Z.land_ones by done. apply Z_mod_same_full.
Qed.



(** ** HTab::insert and HTab::detach *)

(** X2: detaching through the slot right after an insertion undoes it.
    The insertion of a record into a slot of a live array makes the record
    the head of the slot; [detach] through the address of the slot then
    returns this record and restores the table and the array.  What stays
    is the [next] field of the record, which holds the former head. *)
Theorem insert_then_detach mem t a n slots :
  nodes mem !! a = Some n → arrays mem !! tab t = Some slots →
  (Z.to_nat (HTab.get_position t (hcode n)) < length slots)%nat →
  0 ≤ size t < 2 ^ 64 →
  ∃ t1 mem1 head,
    slots !! Z.to_nat (HTab.get_position t (hcode n)) = Some head ∧
    HTab.insert t a mem = Ok (t1, mem1) ∧
    size t1 = wrap (size t + 1) ∧
    read_slot (tab t) (HTab.get_position t (hcode n)) mem1 = Ok (a, mem1) ∧
    HTab.detach t1 (SlotRef (tab t) (HTab.get_position t (hcode n))) mem1
      = Ok ((a, t),
            {| nodes := <[a := {| next := head; hcode := hcode n |}]> (nodes mem);
               arrays := arrays mem |}).
Proof.
  intros Hn Hsl Hpos Hsz.
  set (pos := HTab.get_position t (hcode n)) in *.
  destruct (lookup_lt_is_Some_2 slots (Z.to_nat pos) Hpos) as [head Hhead].
  exists {| tab := tab t; mask := mask t; size := wrap (size t + 1) |}.
  eexists _, head. split; [done|].
  assert (HTab.insert t a mem
          = Ok ({| tab := tab t; mask := mask t; size := wrap (size t + 1) |},
                {| nodes := <[a := {| next := head; hcode := hcode n |}]> (nodes mem);
                   arrays := <[tab t := <[Z.to_nat pos := a]> slots]> (arrays mem) |}))
    as Hins.
  { unfold HTab.insert, bind, read_node, read_slot, write_next, write_slot, ret.
    rewrite Hn. fold pos. rewrite Hsl, Hhead. simpl. rewrite Hn. simpl.
    rewrite Hsl. by rewrite decide_True by done. }
  split; [exact Hins|]. split; [done|].
  assert (<[Z.to_nat pos := a]> slots !! Z.to_nat pos = Some a) as Ha
    by (by apply list_lookup_insert_eq).
  split.
  { unfold read_slot. simpl. by rewrite lookup_insert_eq, Ha. }
  unfold HTab.detach, bind, load, store, read_slot, read_node, write_slot, ret.
  simpl. rewrite lookup_insert_eq, Ha. simpl. rewrite lookup_insert_eq. simpl.
  rewrite lookup_insert_eq, decide_True by (by rewrite length_insert).
  f_equal. f_equal.
  - f_equal. destruct t as [tb mk sz]. simpl in *. f_equal.
    unfold wrap. rewrite Zminus_mod_idemp_l.
    replace (sz + 1 - 1) with sz by lia. apply Z.mod_small. lia.
  - f_equal. rewrite insert_insert_eq, list_insert_insert_eq.
    rewrite (list_insert_id _ _ _ Hhead). by apply insert_id.
Qed.

(** Record B is pushed on a slot that holds record A, and taken off again;
    the live count wraps around and back. *)
Lemma insert_then_detach_witness :
  let t := {| tab := 1; mask := 3; size := 2 ^ 64 - 1 |} in
  let mem := {| nodes := nodes scenarioB_mem; arrays := {[1 := [0; nodeA; 0; 0]]} |} in
  ∃ t1 mem1,
    HTab.insert t nodeB mem = Ok (t1, mem1) ∧ size t1 = 0 ∧
    HTab.detach t1 (SlotRef 1 1) mem1
      = Ok ((nodeB, t),
            {| nodes := <[nodeB := {| next := nodeA; hcode := 5 |}]> (nodes mem);
               arrays := arrays mem |}).
Proof.
  intros t mem.
  assert (nodes mem !! nodeB = Some {| next := 0; hcode := 5 |}) as Hn
    by reflexivity.
  assert (arrays mem !! tab t = Some [0; nodeA; 0; 0]) as Hsl by reflexivity.
  assert (Z.to_nat (HTab.get_position t 5) < length [0; nodeA; 0; 0]%Z)%nat as Hpos
    by (vm_compute; lia).
  assert (0 ≤ size t < 2 ^ 64) as Hsz by (simpl; lia).
  destruct (insert_then_detach mem t nodeB _ _ Hn Hsl Hpos Hsz)
    as (t1 & mem1 & head & Hhead & Hins & Hs1 & _ & Hdet).
  exists t1, mem1. split; [exact Hins|]. split; [exact Hs1|].
  injection Hhead as <-. exact Hdet.
Defined.
(** ** The steps of HMap::insert *)

Lemma HTab_insert_nodes t a mem t' mem' :
  HTab.insert t a mem = Ok (t', mem') →
  ∀ b, b ≠ a → nodes mem' !! b = nodes mem !! b.
Proof.
  unfold HTab.insert, bind, read_node, read_slot, write_next, write_slot, ret.
  destruct (nodes mem !! a) as [n|] eqn:Hn; [|done].
  destruct (arrays mem !! tab t) as [slots|] eqn:Hsl; [|done].
  destruct (slots !! _) as [p|]; [|done]. simpl. rewrite Hn. simpl. rewrite Hsl.
  case_decide; [|done]. intros [= <- <-] b Hb. simpl. by rewrite lookup_insert_ne.
Qed.

(** The state [m2] in which [insert] calls [help_rehashing]: the record is
    in the active table, and either this table is still the one of the
    start, or it has just been retired, full, for an empty one of twice its
    capacity. *)
Lemma HMap_insert_run fuel mem m csN csO node n m' mem' :
  Inv mem m csN csO → nodes mem !! node = Some n →
  node ∉ concat csN ++ concat csO →
  HMap.insert fuel m node mem = Ok (m', mem') →
  ∃ m2 mem2 csN2 csO2 csN' csO',
    Inv mem2 m2 csN2 csO2 ∧
    HMap.help_rehashing fuel m2 mem2 = Ok (m', mem') ∧
    migrated mem2 m2 csN2 csO2 mem' m' csN' csO' ∧
    concat csN2 ++ concat csO2 ≡ₚ node :: concat csN ++ concat csO ∧
    (∀ b, b ≠ node → nodes mem2 !! b = nodes mem !! b) ∧
    ((older m2 = older m ∧ migrate_pos m2 = migrate_pos m ∧
      size (newer m2) = size (newer m) + 1 ∧
      (tab (newer m) ≠ 0 →
       tab (newer m2) = tab (newer m) ∧ mask (newer m2) = mask (newer m)) ∧
      (tab (newer m) = 0 → mask (newer m2) = 3) ∧
      (tab (older m) = 0 →
       size (newer m2) < wrap (wrap (mask (newer m2) + 1) * kMaxLoadFactor)))
     ∨ (tab (older m) = 0 ∧ tab (older m2) ≠ 0 ∧ migrate_pos m2 = 0 ∧
        size (newer m2) = 0 ∧ size (older m2) = size (newer m) + 1 ∧
        mask (newer m2) + 1 = 2 * (mask (older m2) + 1) ∧
        (tab (newer m) ≠ 0 →
         tab (older m2) = tab (newer m) ∧ mask (older m2) = mask (newer m)) ∧
        (tab (newer m) = 0 → mask (older m2) = 3) ∧
        wrap (wrap (mask (older m2) + 1) * kMaxLoadFactor) ≤ size (older m2))).
Proof.
  intros HI Hn Hfresh Hrun. unfold HMap.insert in Hrun.
  apply bind_Ok_inv in Hrun as (n0 & mem0 & Hinit & Hrun).
  destruct (Inv_lazy_init _ _ _ _ _ _ HI Hinit)
    as (csN0 & HI0 & Hcat0 & Hnd0 & Hn0 & Hsame).
  assert (size n0 = size (newer m) ∧
          (tab (newer m) = 0 → mask n0 = 3)) as [Hsz0 Hmask0].
  { destruct (decide (tab (newer m) = 0)) as [Hz|Hnz].
    - apply HTab_init_Ok in Hinit as (_ & -> & _).
      destruct (table_ok_null _ _ _ (inv_newer _ _ _ _ HI) Hz) as [-> _]. done.
    - destruct (Hsame Hnz) as [-> _]. done. }
  apply bind_Ok_inv in Hrun as (n1 & mem1 & Hins & Hrun).
  set (m0 := {| newer := n0; older := older m; migrate_pos := migrate_pos m |}) in *.
  destruct (Inv_insert_newer mem0 m0 csN0 csO node n HI0 Hn0)
    as (n1' & mem1' & csN1 & Hins' & En1 & HI1 & Hperm1 & Hh1).
  { by rewrite Hnd0. }
  { by rewrite Hcat0. }
  simpl in Hins'. rewrite Hins in Hins'. simplify_eq. simpl in *.
  pose proof (HTab_insert_nodes _ _ _ _ _ Hins) as Hfr1.
  set (n1 := {| tab := tab n0; mask := mask n0; size := size n0 + 1 |}) in *.
  set (m1 := {| newer := n1; older := older m; migrate_pos := migrate_pos m |}) in *.
  apply bind_Ok_inv in Hrun as (m2 & mem2 & Htrig & Hrun).
  assert (∃ csN2 csO2,
    Inv mem2 m2 csN2 csO2 ∧
    concat csN2 ++ concat csO2 ≡ₚ concat csN1 ++ concat csO ∧
    nodes mem2 = nodes mem1' ∧
    ((m2 = m1 ∧
      (tab (older m) = 0 →
       size n1 < wrap (wrap (mask n1 + 1) * kMaxLoadFactor)))
     ∨ (tab (older m) = 0 ∧
        wrap (wrap (mask n1 + 1) * kMaxLoadFactor) ≤ size n1 ∧
        mask (newer m2) + 1 = 2 * (mask n1 + 1) ∧
        older m2 = n1 ∧ migrate_pos m2 = 0 ∧ size (newer m2) = 0)))
    as (csN2 & csO2 & HI2 & Hperm2 & Hnd2 & Hcase).
  { destruct (decide (tab (older m) = 0)) as [Ho|Ho];
      [destruct (Z.leb_spec (wrap (wrap (mask n0 + 1) * kMaxLoadFactor)) (size n0 + 1))
         as [Hth|Hth]|].
    - destruct (Inv_trigger _ _ _ _ _ _ HI1 Hn0 Htrig)
        as (HI2 & -> & Hnd2 & Eo & Epos & Esz & Ecap & Etab).
      eexists _, csN1. split_and!; [exact HI2| |done|].
      + rewrite concat_replicate_nil. simpl. by rewrite app_nil_r.
      + right. by split_and!.
    - unfold ret in Htrig. simplify_eq. exists csN1, csO.
      split_and!; try done. left. split; [done|]. intros _. subst n1. simpl. lia.
    - unfold ret in Htrig. simplify_eq. exists csN1, csO.
      split_and!; try done. left. done. }
  pose proof (help_rehashing_spec fuel mem2 m2 csN2 csO2 HI2) as Hhelp.
  rewrite Hrun in Hhelp. destruct Hhelp as (csN' & csO' & Hmg).
  exists m2, mem2, csN2, csO2, csN', csO'. split_and!; try done.
  - rewrite Hperm2, Hperm1, Hcat0. done.
  - intros b Hb. rewrite Hnd2, Hfr1, Hnd0; done.
  - destruct Hcase as [[-> Hlt]|(Ho & Hth & Hcap & Eo & Epos & Esz)].
    + left. simpl. split_and!; [done|done|lia| |done|done].
      intros Ht. by destruct (Hsame Ht) as [-> _].
    + right. rewrite Eo. simpl. split_and!; try done; [lia|].
      intros Ht. by destruct (Hsame Ht) as [-> _].
Qed.
(** ** The load of the active table *)

Lemma wrap_le z : 0 ≤ z → wrap z ≤ z.
Proof. intros Hz. unfold wrap. apply Z.mod_le; lia. Qed.

Lemma wrap_nonneg z : 0 ≤ wrap z.
Proof. unfold wrap. apply Z.mod_pos_bound. lia. Qed.

Lemma Inv_newer_mask mem m csN csO :
  Inv mem m csN csO → tab (newer m) ≠ 0 → 0 ≤ mask (newer m).
Proof.
  intros HI Ht.
  pose proof (rep_mask _ _ _ (table_ok_rep _ _ _ (inv_newer _ _ _ _ HI) Ht)). lia.
Qed.

(** A migration step restores the margin after an insertion has used one
    unit of it. *)
Lemma load_ok_help mem m csN csO mem' m' csN' csO' :
  Inv mem m csN csO → migrated mem m csN csO mem' m' csN' csO' →
  (tab (older m) = 0 → tab (newer m) ≠ 0 →
   size (newer m) < kMaxLoadFactor * (mask (newer m) + 1)) →
  (tab (older m) ≠ 0 →
   mask (newer m) + 1 = 2 * (mask (older m) + 1) ∧
   ∃ q, 1 ≤ q ∧ size (older m) ≤ kRehasingWork * q ∧
        32 * (size (newer m) + size (older m) + q)
          ≤ 129 * (mask (newer m) + 1) + 64) →
  load_ok m'.
Proof.
  intros HI Hmg Hst Hcy.
  pose proof (Inv_older_size _ _ _ _ HI) as Hs0.
  pose proof (mg_newer_size _ _ _ _ _ _ _ _ Hmg) as HsN.
  pose proof (mg_older_size _ _ _ _ _ _ _ _ Hmg) as HsO.
  pose proof (mg_newer_tab _ _ _ _ _ _ _ _ Hmg) as HtN.
  pose proof (mg_newer_mask _ _ _ _ _ _ _ _ Hmg) as HmN.
  unfold kRehasingWork, kMaxLoadFactor in *.
  destruct (decide (size (older m) ≤ 128)) as [Hle|Hgt].
  - destruct (mg_freed _ _ _ _ _ _ _ _ Hmg Hle) as (Eo & _ & _).
    split; [|by rewrite Eo].
    intros _ Ht. rewrite HtN in Ht.
    pose proof (Inv_newer_mask _ _ _ _ HI Ht) as Hm.
    rewrite HsN, HmN. unfold kMaxLoadFactor.
    destruct (decide (tab (older m) = 0)) as [Ho|Ho].
    + destruct (table_ok_null _ _ _ (inv_older _ _ _ _ HI) Ho) as [E _].
      assert (size (older m) = 0) as Ez by (by rewrite E).
      specialize (Hst Ho Ht). lia.
    + destruct (Hcy Ho) as (_ & q & Hq & Hoq & Hsum). lia.
  - destruct (mg_kept _ _ _ _ _ _ _ _ Hmg ltac:(unfold kRehasingWork; lia))
      as [HtO HmO].
    assert (tab (older m) ≠ 0) as Ho by (apply (Inv_older_tab _ _ _ _ HI); lia).
    destruct (Hcy Ho) as (Hcap & q & Hq & Hoq & Hsum).
    split; [by rewrite HtO|]. intros _.
    rewrite HmN, HmO, HsN, HsO. split; [done|].
    exists (q - 1). unfold kRehasingWork. lia.
Qed.

Lemma reachable_load_ok mem m live : reachable mem m live → load_ok m.
Proof.
  induction 1 as
    [mem Haddr
    |mem m live fuel node m' mem' Hr IH [n Hn] Hfresh Hrun
    |mem m live fuel key eq r m' mem' Hr IH [kn Hk] Hrun
    |mem m live fuel key eq r m' mem' Hr IH [kn Hk] Hrun].
  - split; done.
  - destruct (reachable_Inv _ _ _ Hr) as (csN & csO & HI & Hlive).
    destruct (HMap_insert_run fuel mem m csN csO node n m' mem' HI Hn
                ltac:(by rewrite <- Hlive) Hrun)
      as (m2 & mem2 & csN2 & csO2 & csN' & csO' & HI2 & _ & Hmg & _ & _ & Hcase).
    apply (load_ok_help _ _ _ _ _ _ _ _ HI2 Hmg);
      destruct Hcase as [(Eo & _ & HsN & HtN & Hlazy & Hth)
                        |(Ho & Ho2 & _ & HsN & HsO & Hcap & HtO & Hlazy & Hth)].
    + intros Ho2 Ht2. rewrite Eo in Ho2. specialize (Hth Ho2).
      pose proof (Inv_newer_mask _ _ _ _ HI2 Ht2) as Hm.
      pose proof (wrap_le (mask (newer m2) + 1) ltac:(lia)).
      pose proof (wrap_nonneg (mask (newer m2) + 1)).
      pose proof (wrap_le (wrap (mask (newer m2) + 1) * kMaxLoadFactor)
                    ltac:(unfold kMaxLoadFactor; lia)).
      unfold kMaxLoadFactor in *. lia.
    + done.
    + intros Ho2. rewrite Eo in *.
      pose proof (inv_first _ _ _ _ HI) as Hfirst.
      assert (tab (newer m) ≠ 0) as Ht by (intros E; by apply Ho2, Hfirst).
      destruct (HtN Ht) as [_ Em]. rewrite Em, HsN.
      destruct (lo_cycle _ IH Ho2) as (Hcap & q & Hq & Hoq & Hsum).
      split; [done|]. exists q. lia.
    + intros _. split; [done|].
      pose proof (inv_capO _ _ _ _ HI2 Ho2) as (k & Hk & Epow).
      assert (size (older m2) ≤ 4 * (mask (newer m2) + 1)) as Hfull.
      { destruct (decide (tab (newer m) = 0)) as [Hz|Hnz].
        - destruct (table_ok_null _ _ _ (inv_newer _ _ _ _ HI) Hz) as [E _].
          rewrite E in HsO. simpl in HsO. rewrite (Hlazy Hz) in Hcap. lia.
        - destruct (HtO Hnz) as [_ Em].
          pose proof (lo_stable _ IH Ho Hnz) as Hlt.
          unfold kMaxLoadFactor in Hlt. lia. }
      exists ((mask (newer m2) + 1) / 32 + 1).
      pose proof (Z.mul_div_le (mask (newer m2) + 1) 32 ltac:(lia)).
      pose proof (Z.mul_succ_div_gt (mask (newer m2) + 1) 32 ltac:(lia)).
      pose proof (Z.div_pos (mask (newer m2) + 1) 32 ltac:(lia) ltac:(lia)).
      unfold kRehasingWork. lia.
  - destruct (reachable_Inv _ _ _ Hr) as (csN & csO & HI & Hlive).
    apply HMap_lookup_inv in Hrun as [Hhelp _].
    pose proof (help_rehashing_spec fuel mem m csN csO HI) as Hspec.
    rewrite Hhelp in Hspec. destruct Hspec as (csN' & csO' & Hmg).
    apply (load_ok_help _ _ _ _ _ _ _ _ HI Hmg); [apply IH|].
    intros Ho. destruct (lo_cycle _ IH Ho) as (Hcap & q & Hq & Hoq & Hsum).
    split; [done|]. exists q. lia.
  - destruct (reachable_Inv _ _ _ Hr) as (csN & csO & HI & Hlive).
    pose proof (hm_delete_spec fuel mem m csN csO key eq kn HI Hk) as Hspec.
    rewrite Hrun in Hspec.
    destruct Hspec as (m1 & mem1 & csN1 & csO1 & csN' & csO' & Hhelp & Hmg & HI'
                       & _ & HtN & HmN & HtO & HmO & _ & Hcase).
    assert (load_ok m1) as [Hst1 Hcy1].
    { apply (load_ok_help _ _ _ _ _ _ _ _ HI Hmg); [apply IH|].
      intros Ho. destruct (lo_cycle _ IH Ho) as (Hcap & q & Hq & Hoq & Hsum).
      split; [done|]. exists q. lia. }
    assert (size (newer m') ≤ size (newer m1) ∧ size (older m') ≤ size (older m1))
      as [HsN HsO].
    { destruct Hcase as [(_ & -> & _)|(_ & _ & [(_ & E & ->)|(_ & E & -> & _)])]; lia. }
    split.
    + intros Ho Ht. rewrite HtO in Ho. rewrite HtN in Ht. rewrite HmN.
      specialize (Hst1 Ho Ht). lia.
    + intros Ho. rewrite HtO in Ho. rewrite HmN, HmO.
      destruct (Hcy1 Ho) as (Hcap & q & Hq & Hoq & Hsum).
      split; [done|]. exists q. lia.
Qed.
(** ** Operations on reachable states *)

Lemma Inv_masks mem m csN csO :
  Inv mem m csN csO → 0 ≤ mask (newer m) ∧ 0 ≤ mask (older m).
Proof.
  intros HI. split.
  - destruct (inv_newer _ _ _ _ HI) as [[-> _]|Hrep]; [done|].
    pose proof (rep_mask _ _ _ Hrep). lia.
  - destruct (inv_older _ _ _ _ HI) as [[-> _]|Hrep]; [done|].
    pose proof (rep_mask _ _ _ Hrep). lia.
Qed.

Lemma Inv_newer_size mem m csN csO : Inv mem m csN csO → 0 ≤ size (newer m).
Proof.
  intros HI. rewrite (table_ok_size _ _ _ (inv_newer _ _ _ _ HI)). lia.
Qed.

(** A migration step needs no larger iteration bound afterwards. *)
Lemma fuel_ok_migrated mem m csN csO mem' m' csN' csO' fuel :
  Inv mem m csN csO → migrated mem m csN csO mem' m' csN' csO' →
  fuel_ok m fuel → fuel_ok m' fuel.
Proof.
  intros HI Hmg Hfuel. unfold fuel_ok in *.
  pose proof (Inv_older_size _ _ _ _ HI) as Hs0.
  pose proof (Inv_masks _ _ _ _ HI) as [_ HmO].
  rewrite (mg_newer_size _ _ _ _ _ _ _ _ Hmg), (mg_older_size _ _ _ _ _ _ _ _ Hmg),
    (mg_newer_mask _ _ _ _ _ _ _ _ Hmg).
  destruct (decide (size (older m) ≤ kRehasingWork)) as [Hle|Hgt].
  - destruct (mg_freed _ _ _ _ _ _ _ _ Hmg Hle) as (-> & _). simpl. lia.
  - destruct (mg_kept _ _ _ _ _ _ _ _ Hmg ltac:(lia)) as [_ ->]. lia.
Qed.

Lemma reachable_lookup_outcome mem m live fuel key eq kn :
  reachable mem m live → nodes mem !! key = Some kn →
  outcome (HMap.lookup fuel m key eq mem) (fuel_ok m fuel)
    (λ '((r, m'), mem'),
       reachable mem' m' live ∧ HMap.size m' = HMap.size m ∧
       (fuel_ok m fuel → fuel_ok m' fuel) ∧
       (∀ b, hcode <$> nodes mem' !! b = hcode <$> nodes mem !! b) ∧
       ((r = 0 ∧ ∀ a, a ∈ live → hmatch mem key eq a = false)
        ∨ (r ∈ live ∧ hmatch mem key eq r = true))).
Proof.
  intros Hr Hk.
  destruct (reachable_Inv _ _ _ Hr) as (csN & csO & HI & Hlive).
  pose proof (HMap_lookup_spec fuel mem m csN csO key eq kn HI Hk) as Hspec.
  destruct (HMap.lookup fuel m key eq mem) as [[[r m'] mem']| |] eqn:Hrun;
    [|done..].
  destruct Hspec as (csN' & csO' & Hmg & Hcase). simpl.
  pose proof (reach_lookup _ _ _ _ _ _ _ _ _ Hr (mk_is_Some _ _ Hk) Hrun) as Hr'.
  split_and!.
  - done.
  - by rewrite (reachable_size _ _ _ Hr), (reachable_size _ _ _ Hr').
  - by apply (fuel_ok_migrated _ _ _ _ _ _ _ _ _ HI Hmg).
  - apply (mg_hcode _ _ _ _ _ _ _ _ Hmg).
  - destruct Hcase as [[-> Hnone]|[[Hin Hm]|(Hin & Hm & _)]].
    + left. split; [done|]. intros a Ha. apply Hnone.
      rewrite (mg_perm _ _ _ _ _ _ _ _ Hmg). by apply Hlive.
    + right. split; [|done]. apply Hlive.
      rewrite <- (mg_perm _ _ _ _ _ _ _ _ Hmg). apply elem_of_app. auto.
    + right. split; [|done]. apply Hlive.
      rewrite <- (mg_perm _ _ _ _ _ _ _ _ Hmg). apply elem_of_app. auto.
Qed.

Lemma reachable_delete_outcome mem m live fuel key eq kn :
  reachable mem m live → nodes mem !! key = Some kn →
  outcome (HMap.hm_delete fuel m key eq mem) (fuel_ok m fuel)
    (λ '((r, m'), mem'),
       reachable mem' m' (live ∖ {[r]}) ∧
       (∀ b, hcode <$> nodes mem' !! b = hcode <$> nodes mem !! b) ∧
       (fuel_ok m fuel → fuel_ok m' fuel) ∧
       ((r = 0 ∧ HMap.size m' = HMap.size m ∧
         ∀ a, a ∈ live → hmatch mem key eq a = false)
        ∨ (r ∈ live ∧ hmatch mem key eq r = true ∧
           HMap.size m' = HMap.size m - 1))).
Proof.
  intros Hr Hk.
  destruct (reachable_Inv _ _ _ Hr) as (csN & csO & HI & Hlive).
  pose proof (hm_delete_spec fuel mem m csN csO key eq kn HI Hk) as Hspec.
  destruct (HMap.hm_delete fuel m key eq mem) as [[[r m'] mem']| |] eqn:Hrun;
    [|done..].
  destruct Hspec as (m1 & mem1 & csN1 & csO1 & csN' & csO' & Hhelp & Hmg & HI'
                     & Hhc & HtN & HmN & HtO & HmO & Hpos & Hcase). simpl.
  pose proof (reach_delete _ _ _ _ _ _ _ _ _ Hr (mk_is_Some _ _ Hk) Hrun) as Hr'.
  pose proof (mg_perm _ _ _ _ _ _ _ _ Hmg) as Hperm.
  pose proof (fuel_ok_migrated _ _ _ _ _ _ _ _ fuel HI Hmg) as Hf1.
  destruct (Inv_size _ _ _ _ HI) as [Hlen Hsize].
  destruct (Inv_size _ _ _ _ HI') as [Hlen' Hsize'].
  destruct (Inv_size _ _ _ _ (mg_inv _ _ _ _ _ _ _ _ Hmg)) as [Hlen1 Hsize1].
  split_and!; [done|done| |].
  - intros Hf. specialize (Hf1 Hf). unfold fuel_ok in *.
    rewrite HmN, HmO.
    destruct Hcase as [(_ & -> & _)|(_ & _ & [(_ & E & ->)|(_ & E & -> & _)])]; lia.
  - destruct Hcase as [(-> & -> & _ & _ & _ & Hnone)|(Hm & Hp & Hwhere)].
    + left. split_and!; [done| |].
      * rewrite Hsize1, Hsize, Hlen1, Hlen. by rewrite Hperm.
      * intros a Ha. apply Hnone. rewrite Hperm. by apply Hlive.
    + right. split_and!; [|done|].
      * apply Hlive. rewrite <- Hperm, Hp. apply elem_of_cons. auto.
      * rewrite Hsize', Hsize, Hlen', Hlen, <- Hperm, Hp. simpl. lia.
Qed.
Lemma HTab_init_run k mem :
  0 ≤ k < 64 →
  HTab.init (2 ^ k) mem
  = Ok ({| tab := fresh ({[0]} ∪ dom (arrays mem)); mask := 2 ^ k - 1; size := 0 |},
        {| nodes := nodes mem;
           arrays := <[fresh ({[0]} ∪ dom (arrays mem)) :=
                         replicate (Z.to_nat (2 ^ k)) 0]> (arrays mem) |}).
Proof.
  intros Hk. unfold HTab.init, bind, assert, calloc, ret.
  assert (0 < 2 ^ k < 2 ^ 64) as Hp.
  { split; [apply Z.pow_pos_nonneg; lia|]. apply Z.pow_lt_mono_r; lia. }
  rewrite wrap_small by lia. rewrite land_pred_pow2 by lia.
  rewrite bool_decide_true by lia. done.
Qed.

Lemma reachable_foreach_record mem m live fuel :
  reachable mem m live → fuel_ok m fuel →
  ∃ visited,
    HMap.foreach fuel m record_node [] mem = Ok (visited, mem) ∧
    NoDup visited ∧ ∀ a, a ∈ visited ↔ a ∈ live.
Proof.
  intros Hr Hfuel. destruct (reachable_Inv _ _ _ Hr) as (csN & csO & HI & Hlive).
  destruct (outcome_total _ _ _ (HMap_foreach_spec mem m csN csO record_node fuel [] HI)
              Hfuel) as (r & Hrun & ->).
  rewrite visit_list_record in Hrun. simpl in Hrun.
  exists (concat csN ++ concat csO). split_and!; [done| |].
  - apply (inv_nodup _ _ _ _ HI).
  - intros a. by rewrite Hlive.
Qed.

Lemma outcome_not_Abort {A} (r : res A) E (P : A → Prop) : outcome r E P → r ≠ Abort.
Proof. by destruct r. Qed.

Lemma hmatch_same_node mem key a :
  hmatch mem key same_node a = true → a = key.
Proof.
  unfold hmatch, same_node.
  destruct (nodes mem !! a), (nodes mem !! key); try done.
  intros [_ ?%Z.eqb_eq]%andb_true_iff. done.
Qed.

Lemma hmatch_self mem key n :
  nodes mem !! key = Some n → hmatch mem key same_node key = true.
Proof.
  intros Hn. unfold hmatch, same_node. by rewrite Hn, !Z.eqb_refl.
Qed.

(** ** Facts about the map after 256 insertions *)

Lemma mapM_fuel : fuel_ok mapM 1000.
Proof. rewrite (proj2 mapM_state). unfold fuel_ok. simpl. lia. Qed.

Lemma memM_probe : nodes memM !! probe = Some {| next := 0; hcode := 2 ^ 32 |}.
Proof. vm_compute. reflexivity. Qed.

Lemma probe_not_live : probe ∉ liveM.
Proof.
  unfold liveM. rewrite elem_of_list_to_set, list_elem_of_fmap.
  intros (i & Hi & _). unfold probe, node_addr in Hi. lia.
Qed.

Lemma node_live i : 0 ≤ i < 256 → node_addr i ∈ liveM.
Proof.
  intros Hi. unfold liveM. apply elem_of_list_to_set, list_elem_of_fmap.
  exists i. split; [done|]. apply elem_of_seqZ. lia.
Qed.

Lemma memM_node_200 : is_Some (nodes memM !! node_addr 200).
Proof.
  destruct (reachable_Inv _ _ _ mapM_reachable) as (csN & csO & HI & Hlive).
  apply (Inv_valid _ _ _ _ _ HI), Hlive, node_live. lia.
Qed.

(** ** HMap::insert *)



(** ** HMap::lookup *)

(** X4: in a reachable state a lookup never aborts, and it returns a
    node only if this node is in the map, has the hash code of the key and
    is [eq] to it; it returns [nullptr] only if no node of the map is such
    a match.  It leaves [size()] unchanged. *)
Theorem lookup_returns_match mem m live key eq kn :
  reachable mem m live → nodes mem !! key = Some kn →
  (∀ fuel, HMap.lookup fuel m key eq mem ≠ Abort) ∧
  (∀ fuel, fuel_ok m fuel →
     ∃ r m' mem',
       HMap.lookup fuel m key eq mem = Ok ((r, m'), mem') ∧
       HMap.size m' = HMap.size m ∧
       if decide (r = 0) then ∀ a, a ∈ live → hmatch mem key eq a = false
       else r ∈ live ∧ hmatch mem key eq r = true).
Proof.
  intros Hr Hk.
  destruct (reachable_Inv _ _ _ Hr) as (csN & csO & HI & Hlive).
  split.
  { intros fuel.
    apply (outcome_not_Abort _ _ _
             (reachable_lookup_outcome mem m live fuel key eq kn Hr Hk)). }
  intros fuel Hfuel.
  destruct (outcome_total _ _ _
              (reachable_lookup_outcome mem m live fuel key eq kn Hr Hk) Hfuel)
    as ([[r m'] mem'] & Hrun & _ & Hsize & _ & _ & Hcase).
  exists r, m', mem'. split_and!; [done..|].
  destruct Hcase as [[-> Hnone]|[Hin Hm]].
  - by rewrite decide_True.
  - rewrite decide_False; [done|]. intros ->.
    apply Hlive in Hin. destruct (Inv_valid _ _ _ _ _ HI Hin). lia.
Qed.

(** A lookup of record 200 in the map after 256 insertions. *)
Lemma lookup_returns_match_witness :
  ∃ kn,
    reachable memM mapM liveM ∧ nodes memM !! node_addr 200 = Some kn ∧
    (∀ fuel, HMap.lookup fuel mapM (node_addr 200) same_node memM ≠ Abort) ∧
    (∀ fuel, fuel_ok mapM fuel →
       ∃ r m' mem',
         HMap.lookup fuel mapM (node_addr 200) same_node memM = Ok ((r, m'), mem') ∧
         HMap.size m' = HMap.size mapM ∧
         if decide (r = 0)
         then ∀ a, a ∈ liveM → hmatch memM (node_addr 200) same_node a = false
         else r ∈ liveM ∧ hmatch memM (node_addr 200) same_node r = true).
Proof.
  destruct memM_node_200 as [kn Hk]. exists kn.
  split; [exact mapM_reachable|]. split; [exact Hk|].
  exact (lookup_returns_match memM mapM liveM (node_addr 200) same_node kn
           mapM_reachable Hk).
Defined.

(** ** HMap::hm_delete *)

(** X5: in a reachable state, deleting a key that some node of the map
    matches never aborts and returns a node of the map that matches the
    key; [size()] drops by exactly one, and a traversal afterwards visits
    the other nodes of the map, each once, and no longer the one
    returned. *)
Theorem delete_removes_match mem m live key eq kn a :
  reachable mem m live → nodes mem !! key = Some kn →
  a ∈ live → hmatch mem key eq a = true →
  (∀ fuel, HMap.hm_delete fuel m key eq mem ≠ Abort) ∧
  (∀ fuel, fuel_ok m fuel →
     ∃ r m' mem',
       HMap.hm_delete fuel m key eq mem = Ok ((r, m'), mem') ∧
       r ∈ live ∧ hmatch mem key eq r = true ∧
       HMap.size m' = HMap.size m - 1 ∧
       ∃ visited,
         HMap.foreach fuel m' record_node [] mem' = Ok (visited, mem') ∧
         NoDup visited ∧ ∀ b, b ∈ visited ↔ b ∈ live ∧ b ≠ r).
Proof.
  intros Hr Hk Ha Hma. split.
  { intros fuel.
    apply (outcome_not_Abort _ _ _
             (reachable_delete_outcome mem m live fuel key eq kn Hr Hk)). }
  intros fuel Hfuel.
  destruct (outcome_total _ _ _
              (reachable_delete_outcome mem m live fuel key eq kn Hr Hk) Hfuel)
    as ([[r m'] mem'] & Hrun & Hr' & _ & Hfuel' & Hcase).
  destruct Hcase as [(_ & _ & Hnone)|(Hin & Hm & Hsize)].
  { by rewrite (Hnone a Ha) in Hma. }
  exists r, m', mem'. split_and!; [done..|].
  destruct (reachable_foreach_record _ _ _ fuel Hr' (Hfuel' Hfuel))
    as (visited & Hvis & Hnd & Hall).
  exists visited. split_and!; [done..|].
  intros b. rewrite Hall, elem_of_difference, elem_of_singleton. done.
Qed.

(** Record 200 is deleted from the map after 256 insertions. *)
Lemma delete_removes_match_witness :
  ∃ kn,
    reachable memM mapM liveM ∧ nodes memM !! node_addr 200 = Some kn ∧
    node_addr 200 ∈ liveM ∧
    hmatch memM (node_addr 200) same_node (node_addr 200) = true ∧
    fuel_ok mapM 1000 ∧
    ∃ m' mem',
      HMap.hm_delete 1000 mapM (node_addr 200) same_node memM
        = Ok ((node_addr 200, m'), mem') ∧
      HMap.size m' = HMap.size mapM - 1.
Proof.
  destruct memM_node_200 as [kn Hk]. exists kn.
  assert (node_addr 200 ∈ liveM) as Hlive by (apply node_live; lia).
  pose proof (hmatch_self _ _ _ Hk) as Hm.
  split; [exact mapM_reachable|]. split; [exact Hk|]. split; [exact Hlive|].
  split; [exact Hm|]. split; [exact mapM_fuel|].
  destruct (delete_removes_match memM mapM liveM (node_addr 200) same_node kn _
              mapM_reachable Hk Hlive Hm) as [_ Hdel].
  destruct (Hdel 1000%nat mapM_fuel) as (r & m' & mem' & Hrun & _ & Hmr & Hsize & _).
  exists m', mem'. rewrite (hmatch_same_node _ _ _ Hmr) in Hrun.
  split; [exact Hrun|exact Hsize].
Defined.

(** X6: delete then miss.  In a reachable state in which at most one node
    matches the key, a delete with this key returns, and a lookup with the
    same key afterwards returns [nullptr], whether the delete found a node
    or not. *)
Theorem delete_then_miss mem m live key eq kn fuel :
  reachable mem m live → nodes mem !! key = Some kn →
  (∀ a b, a ∈ live → b ∈ live →
     hmatch mem key eq a = true → hmatch mem key eq b = true → a = b) →
  fuel_ok m fuel →
  ∃ r m' mem',
    HMap.hm_delete fuel m key eq mem = Ok ((r, m'), mem') ∧
    ∃ m'' mem'', HMap.lookup fuel m' key eq mem' = Ok ((0, m''), mem'').
Proof.
  intros Hr Hk Huniq Hfuel.
  destruct (outcome_total _ _ _
              (reachable_delete_outcome mem m live fuel key eq kn Hr Hk) Hfuel)
    as ([[r m'] mem'] & Hrun & Hr' & Hhc & Hfuel' & Hcase).
  exists r, m', mem'. split; [done|].
  destruct (hcode_preserved _ _ _ _ Hhc Hk) as (kn' & Hk' & _).
  destruct (outcome_total _ _ _
              (reachable_lookup_outcome mem' m' _ fuel key eq kn' Hr' Hk')
              (Hfuel' Hfuel))
    as ([[r2 m''] mem''] & Hlook & _ & _ & _ & _ & Hcase2).
  exists m'', mem''.
  destruct Hcase2 as [[-> _]|[Hin2 Hm2]]; [done|exfalso].
  rewrite (hmatch_hcode _ _ _ _ _ Hhc) in Hm2.
  apply elem_of_difference in Hin2 as [Hin2 Hne].
  destruct Hcase as [(_ & _ & Hnone)|(Hin & Hm & _)].
  - by rewrite (Hnone r2 Hin2) in Hm2.
  - apply Hne, elem_of_singleton. by apply Huniq.
Qed.

(** Record 200 is deleted from the map after 256 insertions, and looked up. *)
Lemma delete_then_miss_witness :
  ∃ kn,
    reachable memM mapM liveM ∧ nodes memM !! node_addr 200 = Some kn ∧
    (∀ a b, a ∈ liveM → b ∈ liveM →
       hmatch memM (node_addr 200) same_node a = true →
       hmatch memM (node_addr 200) same_node b = true → a = b) ∧
    fuel_ok mapM 1000 ∧
    ∃ r m' mem',
      HMap.hm_delete 1000 mapM (node_addr 200) same_node memM = Ok ((r, m'), mem') ∧
      ∃ m'' mem'',
        HMap.lookup 1000 m' (node_addr 200) same_node mem' = Ok ((0, m''), mem'').
Proof.
  destruct memM_node_200 as [kn Hk]. exists kn.
  assert (∀ a b, a ∈ liveM → b ∈ liveM →
            hmatch memM (node_addr 200) same_node a = true →
            hmatch memM (node_addr 200) same_node b = true → a = b) as Huniq.
  { intros a b _ _ Ha Hb.
    rewrite (hmatch_same_node _ _ _ Ha), (hmatch_same_node _ _ _ Hb).
    reflexivity. }
  split; [exact mapM_reachable|]. split; [exact Hk|]. split; [exact Huniq|].
  split; [exact mapM_fuel|].
  exact (delete_then_miss memM mapM liveM (node_addr 200) same_node kn 1000
           mapM_reachable Hk Huniq mapM_fuel).
Defined.
(** ** Load and capacities *)

(** X7: with the constants of the source (load factor 8, 128 nodes a call)
    the two tables together never hold as many as 8 nodes for each slot of
    the active table, and while a table is retiring there is room for one
    more.  So whenever an insertion brings the active table to its
    threshold no table is retiring, and the new cycle starts at once:
    growth is never put off. *)
Theorem load_below_maximum mem m live :
  reachable mem m live → tab (newer m) ≠ 0 →
  HMap.size m < kMaxLoadFactor * (mask (newer m) + 1) ∧
  (tab (older m) ≠ 0 →
   size (newer m) + size (older m) + 1 < kMaxLoadFactor * (mask (newer m) + 1)).
Proof.
  intros Hr Ht. destruct (reachable_Inv _ _ _ Hr) as (csN & csO & HI & _).
  destruct (reachable_load_ok _ _ _ Hr) as [Hst Hcy].
  destruct (Inv_size _ _ _ _ HI) as [_ ->].
  pose proof (Inv_newer_mask _ _ _ _ HI Ht) as Hm.
  pose proof (Inv_newer_size _ _ _ _ HI) as HsN.
  pose proof (Inv_older_size _ _ _ _ HI) as HsO.
  unfold kMaxLoadFactor, kRehasingWork in *.
  destruct (decide (tab (older m) = 0)) as [Ho|Ho].
  - split; [|done].
    destruct (table_ok_null _ _ _ (inv_older _ _ _ _ HI) Ho) as [E _].
    assert (size (older m) = 0) as Ez by (by rewrite E).
    specialize (Hst Ho Ht). lia.
  - destruct (Hcy Ho) as (_ & q & Hq & Hoq & Hsum). lia.
Qed.

(** The map after 256 insertions: 256 nodes, 64 slots in the active table. *)
Lemma load_below_maximum_witness :
  reachable memM mapM liveM ∧ tab (newer mapM) ≠ 0 ∧
  HMap.size mapM < 8 * 64 ∧
  (tab (older mapM) ≠ 0 →
   size (newer mapM) + size (older mapM) + 1 < 8 * 64).
Proof.
  assert (tab (newer mapM) ≠ 0) as Ht.
  { rewrite (proj2 mapM_state). simpl. lia. }
  assert (mask (newer mapM) = 63) as Em.
  { rewrite (proj2 mapM_state). reflexivity. }
  split; [exact mapM_reachable|]. split; [exact Ht|].
  pose proof (load_below_maximum memM mapM liveM mapM_reachable Ht) as H.
  rewrite Em in H. exact H.
Defined.

(** X8: in every reachable state the capacity of an initialised table is
    a power of two, at least 4, and its array is live and has exactly that
    many slots; while a table is retiring, the active table has exactly
    twice its capacity, and the two arrays are different blocks. *)
Theorem capacities_are_powers_of_two mem m live :
  reachable mem m live →
  (tab (newer m) ≠ 0 →
   ∃ k slots, 2 ≤ k ≤ 63 ∧ mask (newer m) + 1 = 2 ^ k ∧
     arrays mem !! tab (newer m) = Some slots ∧
     Z.of_nat (length slots) = 2 ^ k) ∧
  (tab (older m) ≠ 0 →
   ∃ k slots, 2 ≤ k ≤ 62 ∧ mask (older m) + 1 = 2 ^ k ∧
     arrays mem !! tab (older m) = Some slots ∧
     Z.of_nat (length slots) = 2 ^ k ∧
     mask (newer m) + 1 = 2 ^ (k + 1) ∧ tab (newer m) ≠ tab (older m)).
Proof.
  intros Hr. destruct (reachable_Inv _ _ _ Hr) as (csN & csO & HI & _).
  assert (∀ t cs, table_ok mem t cs → tab t ≠ 0 → pow2_cap t →
            ∃ k slots, 2 ≤ k ≤ 63 ∧ mask t + 1 = 2 ^ k ∧
              arrays mem !! tab t = Some slots ∧ Z.of_nat (length slots) = 2 ^ k)
    as Htab.
  { intros t cs Hok Ht (k & Hk & Epow).
    pose proof (table_ok_rep _ _ _ Hok Ht) as Hrep.
    destruct (rep_slots _ _ _ Hrep) as (slots & Hsl & Hch).
    exists k, slots. split_and!; [lia..|done|done|].
    assert (length slots = length cs) as -> by (by eapply Forall2_length).
    by rewrite (rep_cap _ _ _ Hrep). }
  split.
  - intros Ht. apply (Htab _ _ (inv_newer _ _ _ _ HI) Ht (inv_capN _ _ _ _ HI Ht)).
  - intros Ho.
    destruct (Htab _ _ (inv_older _ _ _ _ HI) Ho (inv_capO _ _ _ _ HI Ho))
      as (k & slots & Hk & Epow & Hsl & Hlen).
    destruct (lo_cycle _ (reachable_load_ok _ _ _ Hr) Ho) as [Hdbl _].
    assert (tab (newer m) ≠ 0) as Ht.
    { intros E. by apply Ho, (inv_first _ _ _ _ HI). }
    destruct (inv_capN _ _ _ _ HI Ht) as (k' & Hk' & Epow').
    assert (mask (newer m) + 1 = 2 ^ (k + 1)) as E2.
    { replace (k + 1) with (Z.succ k) by lia. rewrite Z.pow_succ_r by lia. lia. }
    assert (k' = k + 1) as ->.
    { apply (Z.pow_inj_r 2); [lia..|congruence]. }
    exists k, slots. split_and!; [lia|lia|done..|].
    apply (inv_tabs _ _ _ _ HI Ho).
Qed.

(** The map after 256 insertions: 64 active and 32 retiring slots. *)
Lemma capacities_are_powers_of_two_witness :
  reachable memM mapM liveM ∧
  ∃ k slots, 2 ≤ k ≤ 62 ∧ mask (older mapM) + 1 = 2 ^ k ∧
    arrays memM !! tab (older mapM) = Some slots ∧
    Z.of_nat (length slots) = 2 ^ k ∧
    mask (newer mapM) + 1 = 2 ^ (k + 1) ∧ tab (newer mapM) ≠ tab (older mapM).
Proof.
  assert (tab (older mapM) ≠ 0) as Ho.
  { rewrite (proj2 mapM_state). simpl. lia. }
  split; [exact mapM_reachable|].
  exact (proj2 (capacities_are_powers_of_two memM mapM liveM mapM_reachable) Ho).
Defined.
(** ** Lookups and the rehash cycle *)

Lemma help_rehashing_stable fuel m mem :
  older m = HTab0 → HMap.help_rehashing (S fuel) m mem = Ok (m, mem).
Proof.
  intros E. unfold HMap.help_rehashing. simpl. rewrite E. simpl.
  unfold bind, ret. by rewrite E.
Qed.

Lemma HMap_lookup_stable fuel mem m csN csO key eq r m' mem' :
  Inv mem m csN csO → tab (older m) = 0 →
  HMap.lookup fuel m key eq mem = Ok ((r, m'), mem') → m' = m ∧ mem' = mem.
Proof.
  intros HI Ho Hrun. apply HMap_lookup_inv in Hrun as [Hhelp _].
  destruct (table_ok_null _ _ _ (inv_older _ _ _ _ HI) Ho) as [E _].
  destruct fuel as [|fuel]; [done|].
  rewrite (help_rehashing_stable _ _ _ E) in Hhelp. by simplify_eq.
Qed.

Lemma lookup_times_drains k :
  ∀ fuel mem m csN csO key eq kn,
    Inv mem m csN csO → nodes mem !! key = Some kn → fuel_ok m fuel →
    size (older m) ≤ kRehasingWork * Z.of_nat k →
    (k = 0%nat → tab (older m) = 0) →
    ∃ rs m' mem',
      lookup_times fuel k m key eq mem = Ok ((rs, m'), mem') ∧
      older m' = HTab0 ∧
      size (newer m') = size (newer m) + size (older m) ∧
      (tab (older m) ≠ 0 → arrays mem' !! tab (older m) = None) ∧
      (tab (older m) = 0 → m' = m ∧ mem' = mem).
Proof.
  induction k as [|k IH]; intros fuel mem m csN csO key eq kn HI Hk Hfuel Hsz Hz.
  { destruct (table_ok_null _ _ _ (inv_older _ _ _ _ HI) (Hz eq_refl)) as [E _].
    exists [], m, mem. simpl. rewrite E. simpl. split_and!; try done. lia. }
  destruct (outcome_total _ _ _ (HMap_lookup_spec fuel mem m csN csO key eq kn HI Hk)
              Hfuel) as ([[r m1] mem1] & Hrun & csN1 & csO1 & Hmg & _).
  pose proof (mg_inv _ _ _ _ _ _ _ _ Hmg) as HI1.
  pose proof (fuel_ok_migrated _ _ _ _ _ _ _ _ _ HI Hmg Hfuel) as Hfuel1.
  destruct (hcode_preserved _ _ _ _ (mg_hcode _ _ _ _ _ _ _ _ Hmg) Hk)
    as (kn1 & Hk1 & _).
  pose proof (mg_newer_size _ _ _ _ _ _ _ _ Hmg) as HsN.
  pose proof (mg_older_size _ _ _ _ _ _ _ _ Hmg) as HsO.
  pose proof (Inv_older_size _ _ _ _ HI) as Hs0.
  destruct (IH fuel mem1 m1 csN1 csO1 key eq kn1 HI1 Hk1 Hfuel1)
    as (rs & m' & mem' & Hrest & Eo & Hsize & Hfreed & Hsame).
  { unfold kRehasingWork in *. lia. }
  { intros ->.
    destruct (mg_freed _ _ _ _ _ _ _ _ Hmg ltac:(lia)) as (-> & _). done. }
  exists (r :: rs), m', mem'. split_and!.
  - simpl. rewrite (bind_Ok _ _ _ _ _ Hrun). by rewrite (bind_Ok _ _ _ _ _ Hrest).
  - done.
  - lia.
  - intros Ho. destruct (decide (size (older m) ≤ kRehasingWork)) as [Hle|Hgt].
    + destruct (mg_freed _ _ _ _ _ _ _ _ Hmg Hle) as (E1 & _ & Hnone).
      destruct (Hsame ltac:(by rewrite E1)) as [_ ->]. by apply Hnone.
    + destruct (mg_kept _ _ _ _ _ _ _ _ Hmg ltac:(lia)) as [Et _].
      rewrite <- Et. apply Hfreed. by rewrite Et.
  - intros Ho.
    destruct (HMap_lookup_stable _ _ _ _ _ _ _ _ _ _ HI Ho Hrun) as [-> ->].
    by apply Hsame.
Qed.

(** X9: migration completes.  In a reachable state with [n] retiring
    nodes, [k >= 1] lookups with [128 * k >= n] return, whatever they look
    for, and leave no retiring table: all its nodes are in the active
    table, its array is freed and it is [HTab{}] again. *)
Theorem migration_completes mem m live key eq kn fuel k :
  reachable mem m live → nodes mem !! key = Some kn → fuel_ok m fuel →
  (1 ≤ k)%nat → size (older m) ≤ kRehasingWork * Z.of_nat k →
  ∃ rs m' mem',
    lookup_times fuel k m key eq mem = Ok ((rs, m'), mem') ∧
    older m' = HTab0 ∧
    size (newer m') = size (newer m) + size (older m) ∧
    (tab (older m) ≠ 0 → arrays mem' !! tab (older m) = None).
Proof.
  intros Hr Hk Hfuel Hk1 Hsz.
  destruct (reachable_Inv _ _ _ Hr) as (csN & csO & HI & _).
  destruct (lookup_times_drains k fuel mem m csN csO key eq kn HI Hk Hfuel Hsz
              ltac:(lia)) as (rs & m' & mem' & Hrun & Eo & Hsize & Hfreed & _).
  eauto 10.
Qed.

(** The map after 256 insertions has 128 retiring nodes: one lookup. *)
Lemma migration_completes_witness :
  reachable memM mapM liveM ∧
  nodes memM !! probe = Some {| next := 0; hcode := 2 ^ 32 |} ∧
  fuel_ok mapM 1000 ∧ (1 ≤ 1)%nat ∧
  size (older mapM) ≤ kRehasingWork * Z.of_nat 1 ∧
  ∃ rs m' mem',
    lookup_times 1000 1 mapM probe same_node memM = Ok ((rs, m'), mem') ∧
    older m' = HTab0 ∧
    size (newer m') = size (newer mapM) + size (older mapM) ∧
    (tab (older mapM) ≠ 0 → arrays mem' !! tab (older mapM) = None).
Proof.
  assert (size (older mapM) ≤ kRehasingWork * Z.of_nat 1) as Hsz.
  { rewrite (proj2 mapM_state). vm_compute. discriminate. }
  assert (1 ≤ 1)%nat as H1 by lia.
  split; [exact mapM_reachable|]. split; [exact memM_probe|].
  split; [exact mapM_fuel|]. split; [exact H1|]. split; [exact Hsz|].
  exact (migration_completes memM mapM liveM probe same_node _ 1000 1
           mapM_reachable memM_probe mapM_fuel H1 Hsz).
Defined.

(** X10: outside a rehash cycle a lookup is read-only.  In a reachable
    state with no retiring table, a lookup returns and leaves the map and
    the whole memory as they were. *)
Theorem lookup_read_only mem m live key eq kn fuel :
  reachable mem m live → nodes mem !! key = Some kn →
  tab (older m) = 0 → fuel_ok m fuel →
  ∃ r, HMap.lookup fuel m key eq mem = Ok ((r, m), mem).
Proof.
  intros Hr Hk Ho Hfuel.
  destruct (reachable_Inv _ _ _ Hr) as (csN & csO & HI & _).
  destruct (outcome_total _ _ _ (HMap_lookup_spec fuel mem m csN csO key eq kn HI Hk)
              Hfuel) as ([[r m1] mem1] & Hrun & _).
  destruct (HMap_lookup_stable _ _ _ _ _ _ _ _ _ _ HI Ho Hrun) as [-> ->].
  eauto.
Qed.
(** The map of scenario A after its 33 insertions. *)
Lemma mapS_reachable : reachable memS mapS liveS.
Proof.
  apply (inserted_reachable 33 33).
  - apply (bool_decide_unpack _). by vm_compute.
  - apply (bool_decide_unpack _). by vm_compute.
  - apply (bool_decide_unpack _). by vm_compute.
  - by apply (final_Ok _ _ inserted_33_33).
Qed.

(** A lookup in the map of scenario A after its 33 insertions. *)
Lemma lookup_read_only_witness :
  reachable memS mapS liveS ∧
  nodes memS !! probe = Some {| next := 0; hcode := 2 ^ 32 |} ∧
  tab (older mapS) = 0 ∧ fuel_ok mapS 1000 ∧
  ∃ r, HMap.lookup 1000 mapS probe same_node memS = Ok ((r, mapS), memS).
Proof.
  assert (nodes memS !! probe = Some {| next := 0; hcode := 2 ^ 32 |}) as Hk
    by (vm_compute; reflexivity).
  assert (tab (older mapS) = 0) as Ho.
  { unfold mapS. rewrite inserted_33_33. reflexivity. }
  assert (fuel_ok mapS 1000) as Hfuel.
  { unfold mapS. rewrite inserted_33_33. unfold fuel_ok. simpl. lia. }
  split; [exact mapS_reachable|]. split; [exact Hk|]. split; [exact Ho|].
  split; [exact Hfuel|].
  exact (lookup_read_only memS mapS liveS probe same_node _ 1000
           mapS_reachable Hk Ho Hfuel).
Defined.

(** ** HMap::foreach *)



(** ** HMap::clear *)

Lemma HMap_clear_run mem m csN csO :
  Inv mem m csN csO →
  ∃ mem',
    HMap.clear m mem = Ok (m, mem') ∧ nodes mem' = nodes mem ∧
    (tab (newer m) ≠ 0 → arrays mem' !! tab (newer m) = None) ∧
    (tab (older m) ≠ 0 → arrays mem' !! tab (older m) = None).
Proof.
  intros HI. unfold HMap.clear, bind, free, ret.
  destruct (decide (tab (newer m) = 0)) as [HN|HN];
    destruct (decide (tab (older m) = 0)) as [HO|HO]; simpl.
  - by exists mem.
  - by apply (inv_first _ _ _ _ HI) in HN.
  - destruct (rep_slots _ _ _ (table_ok_rep _ _ _ (inv_newer _ _ _ _ HI) HN))
      as (slots & -> & _).
    eexists. split_and!; [done..| |done]. intros _. apply lookup_delete_eq.
  - destruct (Inv_migrating _ _ _ _ HI HO) as (HrN & HrO & Hne).
    destruct (rep_slots _ _ _ HrN) as (slotsN & -> & _).
    destruct (rep_slots _ _ _ HrO) as (slotsO & HsO & _). simpl.
    rewrite lookup_delete_ne by done. rewrite HsO.
    eexists. split_and!; [done..| |]; intros _; simpl.
    + rewrite lookup_delete_ne by (by apply not_eq_sym). apply lookup_delete_eq.
    + apply lookup_delete_eq.
Qed.

Lemma bind_Abort {A B} (c : M A) (k : A → M B) mem :
  c mem = Abort → bind c k mem = Abort.
Proof. intros H. unfold bind. by rewrite H. Qed.

Lemma read_freed_slot mem p i : arrays mem !! p = None → read_slot p i mem = Abort.
Proof. intros H. unfold read_slot. by rewrite H. Qed.

Lemma help_rehashing_freed fuel mem m csN csO mem' :
  Inv mem m csN csO → nodes mem' = nodes mem →
  (tab (older m) ≠ 0 → arrays mem' !! tab (older m) = None) →
  HMap.help_rehashing (S fuel) m mem' = Abort
  ∨ (tab (older m) = 0 ∧ HMap.help_rehashing (S fuel) m mem' = Ok (m, mem')).
Proof.
  intros HI Hnd Hfreed.
  destruct (decide (tab (older m) = 0)) as [Ho|Ho].
  { right. split; [done|]. apply help_rehashing_stable.
    by destruct (table_ok_null _ _ _ (inv_older _ _ _ _ HI) Ho). }
  left. specialize (Hfreed Ho).
  pose proof (Inv_older_size _ _ _ _ HI) as Hs0.
  unfold HMap.help_rehashing. simpl.
  destruct (Z.ltb_spec 0 (size (older m))) as [Hs|Hs]; simpl.
  - unfold bind at 1 2. unfold HMap.help_body, bind, load.
    by rewrite (read_freed_slot _ _ _ Hfreed).
  - unfold bind at 1, ret at 1.
    assert (size (older m) = 0) as -> by lia. simpl.
    destruct (Z.eqb_spec (tab (older m)) 0) as [|_]; [done|]. simpl.
    unfold bind, free. rewrite decide_False by done. by rewrite Hfreed.
Qed.

(** X12: [clear()] leaves the map unusable.  After [clear()] on a
    reachable map with an initialised table, the map still holds the
    pointers to the freed arrays, and every further call reaches freed
    memory: a second [clear()] frees the active array again, and [insert],
    [lookup], [hm_delete] and [foreach] read a slot of a freed array. *)
Theorem use_after_clear mem m live :
  reachable mem m live → tab (newer m) ≠ 0 →
  ∃ mem',
    HMap.clear m mem = Ok (m, mem') ∧
    HMap.clear m mem' = Abort ∧
    (∀ fuel node, HMap.insert fuel m node mem' = Abort) ∧
    (∀ fuel key eq, is_Some (nodes mem !! key) →
       HMap.lookup (S fuel) m key eq mem' = Abort ∧
       HMap.hm_delete (S fuel) m key eq mem' = Abort) ∧
    (∀ A (f : Z → A → bool * A) (arg : A) fuel,
       HMap.foreach (S fuel) m f arg mem' = Abort).
Proof.
  intros Hr Ht. destruct (reachable_Inv _ _ _ Hr) as (csN & csO & HI & _).
  destruct (HMap_clear_run _ _ _ _ HI) as (mem' & Hclear & Hnd & HfN & HfO).
  specialize (HfN Ht). exists mem'. split; [done|].
  assert (∀ i, read_slot (tab (newer m)) i mem' = Abort) as Hread.
  { intros i. by apply read_freed_slot. }
  assert (∀ fuel key eq, is_Some (nodes mem !! key) →
            HTab.lookup (S fuel) (newer m) key eq mem' = Abort) as Hlook.
  { intros fuel key eq [kn Hk]. unfold HTab.lookup.
    rewrite decide_False by done. unfold bind, read_node. rewrite Hnd, Hk.
    simpl. unfold bind, load. by rewrite Hread. }
  split_and!.
  - unfold HMap.clear, bind, free. rewrite decide_False by done. by rewrite HfN.
  - intros fuel node. unfold HMap.insert. rewrite decide_False by done.
    unfold bind at 1 2, ret at 1. unfold HTab.insert, bind, read_node.
    destruct (nodes mem' !! node); [|done]. by rewrite Hread.
  - intros fuel key eq Hk.
    destruct (help_rehashing_freed fuel mem m csN csO mem' HI Hnd HfO)
      as [Hhelp|[_ Hhelp]].
    + split; [unfold HMap.lookup|unfold HMap.hm_delete]; by apply bind_Abort.
    + split; [unfold HMap.lookup|unfold HMap.hm_delete];
        rewrite (bind_Ok _ _ _ _ _ Hhelp); by apply bind_Abort, Hlook.
  - intros A f arg fuel. unfold HMap.foreach, bind, HTab.foreach. simpl.
    destruct (inv_capN _ _ _ _ HI Ht) as (k & Hk & Epow).
    assert (4 ≤ 2 ^ k) by (apply (Z.pow_le_mono_r 2 2 k); lia).
    destruct (Z.eqb_spec (mask (newer m)) 0) as [|_]; [lia|].
    destruct (Z.leb_spec 0 (mask (newer m))) as [_|]; [|lia]. simpl.
    unfold bind. by rewrite Hread.
Qed.

(** Teardown of the map after 256 insertions, and a second teardown. *)
Lemma use_after_clear_witness :
  reachable memM mapM liveM ∧ tab (newer mapM) ≠ 0 ∧
  ∃ mem',
    HMap.clear mapM memM = Ok (mapM, mem') ∧ HMap.clear mapM mem' = Abort ∧
    HMap.insert 1000 mapM probe mem' = Abort.
Proof.
  assert (tab (newer mapM) ≠ 0) as Ht.
  { rewrite (proj2 mapM_state). simpl. lia. }
  split; [exact mapM_reachable|]. split; [exact Ht|].
  destruct (use_after_clear memM mapM liveM mapM_reachable Ht)
    as (mem' & Hclear & Hagain & Hins & _).
  exists mem'. split; [exact Hclear|]. split; [exact Hagain|].
  exact (Hins 1000%nat probe).
Defined.
(** ** What the operations write *)

Lemma HTab_detach_inv t from mem a t' mem' :
  HTab.detach t from mem = Ok ((a, t'), mem') →
  load from mem = Ok (a, mem) ∧
  ∀ b, from ≠ NextRef b → nodes mem' !! b = nodes mem !! b.
Proof.
  unfold HTab.detach. intros Hrun.
  apply bind_Ok_inv in Hrun as (p & mem0 & Hload & Hrun).
  pose proof (load_mem _ _ _ _ Hload) as ->.
  apply bind_Ok_inv in Hrun as (n & mem0 & Hn & Hrun).
  pose proof (read_node_mem _ _ _ _ Hn) as ->.
  apply bind_Ok_inv in Hrun as ([] & mem1 & Hstore & Hrun).
  unfold ret in Hrun. simplify_eq. split; [done|]. intros b Hb.
  destruct from as [base i|q]; simpl in Hstore.
  - unfold write_slot in Hstore. destruct (arrays mem !! base); [|done].
    case_decide; [|done]. by simplify_eq.
  - unfold write_next in Hstore. destruct (nodes mem !! q); [|done].
    simplify_eq. simpl. apply lookup_insert_ne. congruence.
Qed.

Lemma help_body_nodes m nwork mem m' nw' mem' :
  HMap.help_body m nwork mem = Ok ((m', nw'), mem') →
  ∃ p, read_slot (tab (older m)) (migrate_pos m) mem = Ok (p, mem) ∧
       ∀ b, b ≠ p → nodes mem' !! b = nodes mem !! b.
Proof.
  unfold HMap.help_body. intros Hrun.
  apply bind_Ok_inv in Hrun as (p & mem0 & Hload & Hrun).
  pose proof (load_mem _ _ _ _ Hload) as ->. simpl in Hload.
  exists p. split; [done|]. intros b Hb.
  destruct (decide (p = 0)) as [Hz|Hnz].
  { unfold ret in Hrun. by simplify_eq. }
  apply bind_Ok_inv in Hrun as ([node o] & mem1 & Hdet & Hrun).
  apply HTab_detach_inv in Hdet as [Hload' Hfr1].
  simpl in Hload'. rewrite Hload in Hload'. simplify_eq.
  apply bind_Ok_inv in Hrun as (n & mem2 & Hins & Hrun).
  unfold ret in Hrun. simplify_eq.
  rewrite (HTab_insert_nodes _ _ _ _ _ Hins) by done. by apply Hfr1.
Qed.

Lemma help_loop_nodes fuel :
  ∀ mem m csN csO nwork m' mem',
    Inv mem m csN csO → 0 ≤ nwork ≤ kRehasingWork →
    HMap.help_loop fuel m nwork mem = Ok (m', mem') →
    ∀ b, b ∉ concat csO → nodes mem' !! b = nodes mem !! b.
Proof.
  induction fuel as [|fuel IH]; intros mem m csN csO nwork m' mem' HI Hw Hrun b Hb;
    [done|].
  simpl in Hrun.
  destruct (Z.ltb_spec nwork kRehasingWork) as [Hlt|Hge];
    [destruct (Z.ltb_spec 0 (size (older m))) as [Hs|Hs]|]; simpl in Hrun;
    [|unfold ret in Hrun; by simplify_eq..].
  destruct (help_body_spec mem m csN csO nwork HI Hs ltac:(lia)) as (c & Hc & Hbody).
  destruct c as [|a c'].
  - destruct Hbody as [Hbrun Hev]. rewrite (bind_Ok _ _ _ _ _ Hbrun) in Hrun.
    apply (IH _ _ _ _ _ _ _ (ev_inv _ _ _ _ _ _ _ _ Hev) Hw Hrun b Hb).
  - destruct Hbody as (n & cN & m1 & mem1 & Hn & HcN & Hbrun & Hev & _).
    rewrite (bind_Ok _ _ _ _ _ Hbrun) in Hrun.
    destruct (concat_insert_perm csO _ _ c' Hc) as (rest & Hp & Hp').
    assert (b ≠ a ∧ (b ∉ concat (<[Z.to_nat (migrate_pos m) := c']> csO)))
      as [Hba Hb'].
    { rewrite Hp in Hb. rewrite Hp'. simpl in Hb.
      apply not_elem_of_cons in Hb as [? ?]. done. }
    rewrite (IH _ _ _ _ (nwork + 1) _ _ (ev_inv _ _ _ _ _ _ _ _ Hev) ltac:(lia)
               Hrun b Hb').
    destruct (help_body_nodes _ _ _ _ _ _ Hbrun) as (p & Hread & Hfr).
    apply Hfr. intros ->.
    pose proof (Inv_older_tab _ _ _ _ HI Hs) as Ho.
    destruct (Inv_migrating _ _ _ _ HI Ho) as (_ & HrO & _).
    destruct (tab_rep_slot _ _ _ _ _ HrO Hc) as (slots & p' & Hsl & Hp'' & Hch & _).
    unfold read_slot in Hread. rewrite Hsl, Hp'' in Hread.
    destruct Hch as (-> & _). by simplify_eq.
Qed.

Lemma help_rehashing_nodes fuel mem m csN csO m' mem' :
  Inv mem m csN csO → HMap.help_rehashing fuel m mem = Ok (m', mem') →
  ∀ b, b ∉ concat csO → nodes mem' !! b = nodes mem !! b.
Proof.
  intros HI Hrun b Hb. unfold HMap.help_rehashing in Hrun.
  apply bind_Ok_inv in Hrun as (m1 & mem1 & Hloop & Hrun).
  rewrite <- (help_loop_nodes _ _ _ _ _ 0 _ _ HI ltac:(unfold kRehasingWork; lia)
                Hloop b Hb).
  destruct ((size (older m1) =? 0) && negb (tab (older m1) =? 0)).
  - apply bind_Ok_inv in Hrun as ([] & mem2 & Hfree & Hrun).
    unfold ret in Hrun. simplify_eq. unfold free in Hfree.
    case_decide; [by simplify_eq|].
    destruct (arrays mem1 !! tab (older m1)); by simplify_eq.
  - unfold ret in Hrun. by simplify_eq.
Qed.

Lemma hm_delete_inv fuel m key eq mem r m' mem' :
  HMap.hm_delete fuel m key eq mem = Ok ((r, m'), mem') →
  ∃ m1 mem1,
    HMap.help_rehashing fuel m mem = Ok (m1, mem1) ∧
    ((∃ l t', HTab.lookup fuel (newer m1) key eq mem1 = Ok (Some l, mem1) ∧
              HTab.detach (newer m1) l mem1 = Ok ((r, t'), mem'))
     ∨ (∃ l t', HTab.lookup fuel (older m1) key eq mem1 = Ok (Some l, mem1) ∧
                HTab.detach (older m1) l mem1 = Ok ((r, t'), mem'))
     ∨ mem' = mem1).
Proof.
  unfold HMap.hm_delete. intros Hrun.
  apply bind_Ok_inv in Hrun as (m1 & mem1 & Hhelp & Hrun).
  exists m1, mem1. split; [done|].
  apply bind_Ok_inv in Hrun as (from & mem2 & HlN & Hrun).
  pose proof (HTab_lookup_mem _ _ _ _ _ _ _ HlN) as ->.
  destruct from as [l|].
  { apply bind_Ok_inv in Hrun as ([node n] & mem3 & Hdet & Hrun).
    unfold ret in Hrun. simplify_eq. left. eauto. }
  apply bind_Ok_inv in Hrun as (from & mem2 & HlO & Hrun).
  pose proof (HTab_lookup_mem _ _ _ _ _ _ _ HlO) as ->.
  destruct from as [l|].
  { apply bind_Ok_inv in Hrun as ([node o] & mem3 & Hdet & Hrun).
    unfold ret in Hrun. simplify_eq. right. left. eauto. }
  unfold ret in Hrun. simplify_eq. right. by right.
Qed.

(** A link that a lookup in a table returns lies in the slot array or in a
    node of the table. *)
Lemma found_link_inside mem t cs key eq kn fuel l b :
  table_ok mem t cs → nodes mem !! key = Some kn →
  HTab.lookup fuel t key eq mem = Ok (Some l, mem) →
  b ∉ concat cs → l ≠ NextRef b.
Proof.
  intros Hok Hk Hrun Hb.
  pose proof (HTab_find_spec mem t cs key eq kn fuel Hok Hk) as Hspec.
  rewrite Hrun in Hspec. destruct Hspec as (_ & i & l1 & a & l2 & Hc & -> & _).
  unfold link_after. destruct (list.last l1) as [p|] eqn:Hlast; [|done].
  intros [= ->]. apply Hb, elem_of_concat_lookup. exists i, (l1 ++ a :: l2).
  split; [done|]. apply elem_of_app. left.
  apply last_Some in Hlast as [l' ->]. apply elem_of_app. right.
  by apply list_elem_of_singleton.
Qed.

(** X13: the map writes only to the records it holds.  In a reachable
    state, a record that is not in the map is left exactly as it is by a
    lookup, by a delete, and by the insertion of another record; and no
    operation ever changes the hash code of any record. *)
Theorem records_outside_untouched mem m live b :
  reachable mem m live → b ∉ live →
  (∀ fuel key eq r m' mem',
     is_Some (nodes mem !! key) →
     HMap.lookup fuel m key eq mem = Ok ((r, m'), mem') →
     nodes mem' !! b = nodes mem !! b ∧
     ∀ c, hcode <$> nodes mem' !! c = hcode <$> nodes mem !! c) ∧
  (∀ fuel key eq r m' mem',
     is_Some (nodes mem !! key) →
     HMap.hm_delete fuel m key eq mem = Ok ((r, m'), mem') →
     nodes mem' !! b = nodes mem !! b ∧
     ∀ c, hcode <$> nodes mem' !! c = hcode <$> nodes mem !! c) ∧
  (∀ fuel node m' mem',
     is_Some (nodes mem !! node) → node ∉ live → node ≠ b →
     HMap.insert fuel m node mem = Ok (m', mem') →
     nodes mem' !! b = nodes mem !! b ∧
     ∀ c, hcode <$> nodes mem' !! c = hcode <$> nodes mem !! c).
Proof.
  intros Hr Hb. destruct (reachable_Inv _ _ _ Hr) as (csN & csO & HI & Hlive).
  assert (b ∉ concat csN ++ concat csO) as Hb' by (by rewrite <- Hlive).
  assert (b ∉ concat csO) as HbO.
  { intros ?. apply Hb', elem_of_app. auto. }
  split_and!.
  - intros fuel key eq r m' mem' [kn Hk] Hrun.
    pose proof (HMap_lookup_spec fuel mem m csN csO key eq kn HI Hk) as Hspec.
    rewrite Hrun in Hspec. destruct Hspec as (csN' & csO' & Hmg & _).
    apply HMap_lookup_inv in Hrun as [Hhelp _].
    split; [|apply (mg_hcode _ _ _ _ _ _ _ _ Hmg)].
    by apply (help_rehashing_nodes _ _ _ _ _ _ _ HI Hhelp).
  - intros fuel key eq r m' mem' [kn Hk] Hrun.
    pose proof (hm_delete_spec fuel mem m csN csO key eq kn HI Hk) as Hspec.
    rewrite Hrun in Hspec.
    destruct Hspec as (m1 & mem1 & csN1 & csO1 & csN' & csO' & Hhelp & Hmg & _
                       & Hhc & _).
    split; [|done].
    apply hm_delete_inv in Hrun as (m1' & mem1' & Hhelp' & Hcase).
    rewrite Hhelp in Hhelp'. simplify_eq.
    rewrite <- (help_rehashing_nodes _ _ _ _ _ _ _ HI Hhelp b HbO).
    pose proof (mg_inv _ _ _ _ _ _ _ _ Hmg) as HI1.
    destruct (hcode_preserved _ _ _ _ (mg_hcode _ _ _ _ _ _ _ _ Hmg) Hk)
      as (kn1 & Hk1 & _).
    assert ((b ∉ concat csN1) ∧ (b ∉ concat csO1)) as [HbN1 HbO1].
    { rewrite <- (mg_perm _ _ _ _ _ _ _ _ Hmg) in Hb'.
      split; intros ?; apply Hb', elem_of_app; auto. }
    destruct Hcase as [(l & t' & Hlook & Hdet)|[(l & t' & Hlook & Hdet)| ->]];
      [| |done].
    + apply HTab_detach_inv in Hdet as [_ Hfr]. apply Hfr.
      apply (found_link_inside _ _ _ _ _ _ _ _ _ (inv_newer _ _ _ _ HI1) Hk1 Hlook HbN1).
    + apply HTab_detach_inv in Hdet as [_ Hfr]. apply Hfr.
      apply (found_link_inside _ _ _ _ _ _ _ _ _ (inv_older _ _ _ _ HI1) Hk1 Hlook HbO1).
  - intros fuel node m' mem' [n Hn] Hfresh Hne Hrun.
    assert (node ∉ concat csN ++ concat csO) as Hfresh' by (by rewrite <- Hlive).
    destruct (HMap_insert_spec _ _ _ _ _ _ _ _ _ HI Hn Hfresh' Hrun)
      as (_ & _ & _ & _ & Hhc & _).
    split; [|done].
    destruct (HMap_insert_run _ _ _ _ _ _ _ _ _ HI Hn Hfresh' Hrun)
      as (m2 & mem2 & csN2 & csO2 & _ & _ & HI2 & Hhelp & _ & Hperm & Hfr & _).
    rewrite <- (Hfr b) by done.
    apply (help_rehashing_nodes _ _ _ _ _ _ _ HI2 Hhelp).
    intros HbO2.
    assert (b ∈ node :: concat csN ++ concat csO) as Hin.
    { rewrite <- Hperm. apply elem_of_app. auto. }
    apply elem_of_cons in Hin as [->|Hin]; done.
Qed.

(** The probe record is not in the map after 256 insertions. *)
Lemma records_outside_untouched_witness :
  reachable memM mapM liveM ∧ (probe ∉ liveM) ∧
  ∀ fuel r m' mem',
    HMap.lookup fuel mapM (node_addr 200) same_node memM = Ok ((r, m'), mem') →
    nodes mem' !! probe = nodes memM !! probe.
Proof.
  split; [exact mapM_reachable|]. split; [exact probe_not_live|].
  intros fuel r m' mem' Hrun.
  destruct (records_outside_untouched memM mapM liveM probe
              mapM_reachable probe_not_live) as (Hlook & _).
  exact (proj1 (Hlook fuel (node_addr 200) same_node r m' mem' memM_node_200 Hrun)).
Defined.
(** ** Lookup, detach and traversal of one table *)

(** X14: a lookup finds the latest insertion first.  After a record is
    inserted into a well-formed table, a lookup with a key that has its
    hash code and is [eq] to it stops at the first step: it returns the
    address of the slot itself, which now points to this record, whatever
    else the chain holds. *)
Theorem lookup_finds_latest mem t cs a n key kn eq :
  tab_rep mem t cs → nodes mem !! a = Some n → a ≠ 0 → a ∉ concat cs →
  Z.of_nat (length (concat cs)) + 1 < 2 ^ 64 →
  nodes mem !! key = Some kn → hcode kn = hcode n → eq a key = true →
  ∃ t' mem',
    HTab.insert t a mem = Ok (t', mem') ∧
    load (SlotRef (tab t) (HTab.get_position t (hcode n))) mem' = Ok (a, mem') ∧
    ∀ fuel,
      HTab.lookup (S fuel) t' key eq mem'
      = Ok (Some (SlotRef (tab t) (HTab.get_position t (hcode n))), mem').
Proof.
  intros Hrep Hn Hnz Hfresh Hbound Hk Hhc Heq.
  destruct (HTab_insert_spec mem t cs a n Hrep Hn Hnz Hfresh Hbound)
    as (t' & mem' & c & Hins & Hc & Hrep' & Et' & Hupd).
  set (pos := HTab.get_position t (hcode n)) in *.
  assert (<[Z.to_nat pos := a :: c]> cs !! Z.to_nat pos = Some (a :: c)) as Hc'.
  { apply list_lookup_insert_eq. by eapply lookup_lt_Some. }
  destruct (tab_rep_slot _ _ _ _ _ Hrep' Hc') as (slots & p & Hsl & Hp & Hch & _).
  destruct Hch as (-> & _ & n' & Hn' & _).
  assert (tab t' = tab t ∧ mask t' = mask t) as [Et Em] by (by rewrite Et').
  rewrite Et in Hsl.
  assert (hcode n' = hcode n) as Hhc'.
  { pose proof (upd_hcode _ _ _ _ Hupd a) as H. rewrite Hn', Hn in H.
    by injection H. }
  destruct (hcode_preserved _ _ _ _ (upd_hcode _ _ _ _ Hupd) Hk) as (kn' & Hk' & Hhk).
  assert (load (SlotRef (tab t) pos) mem' = Ok (a, mem')) as Hload.
  { simpl. unfold read_slot. by rewrite Hsl, Hp. }
  exists t', mem'. split_and!; [done..|].
  intros fuel.
  assert (HTab.lookup_loop (S fuel) (SlotRef (tab t) pos) key eq mem'
          = Ok (Some (SlotRef (tab t) pos), mem')) as Hloop.
  { simpl. unfold bind, read_slot, read_node. rewrite Hsl, Hp.
    rewrite decide_False by done. rewrite Hn', Hk'.
    by rewrite Hhc', Hhk, Hhc, Z.eqb_refl, Heq. }
  unfold HTab.lookup. rewrite Et.
  rewrite decide_False by apply (rep_tab _ _ _ Hrep).
  unfold bind at 1, read_node at 1. rewrite Hk'.
  unfold HTab.get_position. rewrite Em, Hhk, Hhc.
  change (Z.land (hcode n) (mask t)) with pos. exact Hloop.
Qed.

Lemma table_with_rep l :
  NoDup l → Forall (λ a, a = nodeA ∨ a = nodeB) l →
  ∃ t mem cs,
    table_with l = Ok (t, mem) ∧ tab_rep mem t cs ∧ concat cs ≡ₚ l ∧ mask t = 3 ∧
    ∀ b, hcode <$> nodes mem !! b = hcode <$> nodes scenarioB_mem !! b.
Proof.
  intros Hnd Hall. unfold table_with.
  pose proof (HTab_init_run 2 scenarioB_mem ltac:(lia)) as Hinit.
  change (2 ^ 2) with 4 in Hinit.
  destruct (HTab_init_rep _ _ _ _ Hinit ltac:(lia)) as (Hrep & _ & _ & Hmask & _ & Hupd).
  destruct (tab_insert_all_rep l _ _ _ Hrep) as (t & mem & cs & Hrun & Hrep' & Hperm
                                               & _ & Hmask' & Hhc & _).
  { simpl. intros a n Hn.
    apply lookup_insert_Some in Hn as [[<- _]|[_ Hn]]; [done|].
    apply lookup_insert_Some in Hn as [[<- _]|[_ Hn]]; done. }
  { by rewrite concat_replicate_nil, app_nil_r. }
  { eapply list.Forall_impl; [exact Hall|]. by intros a [-> | ->]. }
  exists t, mem, cs. rewrite (bind_Ok _ _ _ _ _ Hinit). split_and!; [done..| | |].
  - by rewrite Hperm, concat_replicate_nil, app_nil_r.
  - by rewrite Hmask', Hmask.
  - done.
Qed.

(** Record B is inserted into a table that holds record A in the same
    slot, and looked up. *)
Lemma lookup_finds_latest_witness :
  ∃ t mem cs kn,
    table_with [nodeA] = Ok (t, mem) ∧
    tab_rep mem t cs ∧ nodes mem !! nodeB = Some kn ∧ nodeB ≠ 0 ∧
    (nodeB ∉ concat cs) ∧ Z.of_nat (length (concat cs)) + 1 < 2 ^ 64 ∧
    hcode kn = hcode kn ∧ same_node nodeB nodeB = true ∧
    ∃ t' mem',
      HTab.insert t nodeB mem = Ok (t', mem') ∧
      ∀ fuel,
        HTab.lookup (S fuel) t' nodeB same_node mem'
        = Ok (Some (SlotRef (tab t) (HTab.get_position t (hcode kn))), mem').
Proof.
  destruct (table_with_rep [nodeA]) as (t & mem & cs & Hrun & Hrep & Hperm & _ & Hhc).
  { apply NoDup_singleton. }
  { repeat constructor. }
  assert (is_Some (nodes mem !! nodeB)) as [kn Hk].
  { specialize (Hhc nodeB). destruct (nodes mem !! nodeB); [eauto|done]. }
  assert (nodeB ≠ 0) as Hnz by done.
  assert (nodeB ∉ concat cs) as Hfresh.
  { rewrite Hperm. by intros ?%list_elem_of_singleton. }
  assert (Z.of_nat (length (concat cs)) + 1 < 2 ^ 64) as Hbound.
  { rewrite Hperm. simpl. lia. }
  exists t, mem, cs, kn.
  split; [exact Hrun|]. split; [exact Hrep|]. split; [exact Hk|].
  split; [exact Hnz|]. split; [exact Hfresh|]. split; [exact Hbound|].
  split; [reflexivity|]. split; [reflexivity|].
  destruct (lookup_finds_latest mem t cs nodeB kn nodeB kn same_node
              Hrep Hk Hnz Hfresh Hbound Hk eq_refl eq_refl)
    as (t' & mem' & Hins & _ & Hlook).
  exists t', mem'. split; [exact Hins|exact Hlook].
Defined.

(** X15: removing a node through the link that a lookup returns keeps
    everything else in place.  In a well-formed table that holds a match
    of the key, [lookup] returns a link and [detach] through this link
    returns a node [r] that matches the key; the live count drops by one,
    and a traversal afterwards visits the nodes that it visited before, in
    the same order, without [r]. *)
Theorem detach_keeps_order mem t cs key eq kn a fuel :
  tab_rep mem t cs → NoDup (concat cs) → mask t ≠ 0 →
  nodes mem !! key = Some kn → a ∈ concat cs → hmatch mem key eq a = true →
  (length cs + length (concat cs) < fuel)%nat →
  ∃ l r t' mem' pre post,
    HTab.lookup fuel t key eq mem = Ok (Some l, mem) ∧
    HTab.detach t l mem = Ok ((r, t'), mem') ∧
    hmatch mem key eq r = true ∧ size t' = size t - 1 ∧
    HTab.foreach fuel t record_node [] mem = Ok ((true, pre ++ r :: post), mem) ∧
    HTab.foreach fuel t' record_node [] mem' = Ok ((true, pre ++ post), mem').
Proof.
  intros Hrep Hnd Hmask Hk Ha Hma Hfuel.
  assert (length (concat cs) < fuel)%nat as Hfuel1 by lia.
  destruct (outcome_total _ _ _
              (HTab_find_spec mem t cs key eq kn fuel (or_intror Hrep) Hk)
              Hfuel1) as ([[l|] mem1] & Hlook & -> & Hfound).
  2: { by rewrite (Hfound a Ha) in Hma. }
  destruct Hfound as (i & l1 & r & l2 & Hc & -> & Hmr & _).
  destruct (HTab_detach_spec mem t cs i l1 r l2 Hrep Hnd Hc)
    as (t' & mem' & Hdet & Hrep' & Et' & _).
  pose proof (lookup_lt_Some _ _ _ Hc) as Hi.
  assert (concat cs
          = (concat (take i cs) ++ l1) ++ r :: (l2 ++ concat (drop (S i) cs))) as Hbefore.
  { rewrite <- (take_drop_middle cs i _ Hc) at 1.
    rewrite concat_app, concat_cons, <- !app_assoc. done. }
  assert (concat (<[i := l1 ++ l2]> cs)
          = (concat (take i cs) ++ l1) ++ (l2 ++ concat (drop (S i) cs))) as Hafter.
  { rewrite insert_take_drop by done.
    rewrite concat_app, concat_cons, <- !app_assoc. done. }
  destruct (outcome_total _ _ _
              (HTab_foreach_spec mem t cs record_node fuel [] Hrep Hmask) Hfuel)
    as (r1 & Hrun1 & ->).
  assert (mask t' ≠ 0) as Hmask' by (by rewrite Et').
  assert (length (<[i := l1 ++ l2]> cs) + length (concat (<[i := l1 ++ l2]> cs))
          < fuel)%nat as Hfuel2.
  { rewrite length_insert, Hafter. rewrite Hbefore in Hfuel.
    rewrite !length_app, length_cons, length_app in Hfuel.
    rewrite !length_app. lia. }
  destruct (outcome_total _ _ _
              (HTab_foreach_spec mem' t' _ record_node fuel [] Hrep' Hmask') Hfuel2)
    as (r2 & Hrun2 & ->).
  rewrite visit_list_record in Hrun1, Hrun2. simpl in Hrun1, Hrun2.
  rewrite Hbefore in Hrun1. rewrite Hafter in Hrun2.
  exists (link_after (SlotRef (tab t) (Z.of_nat i)) l1), r, t', mem',
    (concat (take i cs) ++ l1), (l2 ++ concat (drop (S i) cs)).
  split_and!; [done..| |done|done]. by rewrite Et'.
Qed.

(** Record A is removed from a slot in which record B precedes it. *)
Lemma detach_keeps_order_witness :
  ∃ t mem cs kn,
    table_with [nodeA; nodeB] = Ok (t, mem) ∧
    tab_rep mem t cs ∧ NoDup (concat cs) ∧ mask t ≠ 0 ∧
    nodes mem !! nodeA = Some kn ∧ nodeA ∈ concat cs ∧
    hmatch mem nodeA same_node nodeA = true ∧
    (length cs + length (concat cs) < 100)%nat ∧
    ∃ l t' mem' pre post,
      HTab.lookup 100 t nodeA same_node mem = Ok (Some l, mem) ∧
      HTab.detach t l mem = Ok ((nodeA, t'), mem') ∧
      HTab.foreach 100 t record_node [] mem
        = Ok ((true, pre ++ nodeA :: post), mem) ∧
      HTab.foreach 100 t' record_node [] mem' = Ok ((true, pre ++ post), mem').
Proof.
  destruct (table_with_rep [nodeA; nodeB])
    as (t & mem & cs & Hrun & Hrep & Hperm & Hmask & Hhc).
  { apply (bool_decide_unpack _). by vm_compute. }
  { constructor; [by left|]. constructor; [by right|]. constructor. }
  assert (NoDup (concat cs)) as Hnd.
  { rewrite Hperm. apply (bool_decide_unpack _). by vm_compute. }
  assert (mask t ≠ 0) as Hm by (rewrite Hmask; lia).
  assert (is_Some (nodes mem !! nodeA)) as [kn Hk].
  { specialize (Hhc nodeA). destruct (nodes mem !! nodeA); [eauto|done]. }
  assert (nodeA ∈ concat cs) as Hin.
  { rewrite Hperm. apply elem_of_cons. auto. }
  pose proof (hmatch_self _ _ _ Hk) as Hma.
  assert (length cs + length (concat cs) < 100)%nat as Hfuel.
  { pose proof (rep_cap _ _ _ Hrep) as Hcap. rewrite Hperm. simpl. lia. }
  exists t, mem, cs, kn.
  split; [exact Hrun|]. split; [exact Hrep|]. split; [exact Hnd|].
  split; [exact Hm|]. split; [exact Hk|]. split; [exact Hin|].
  split; [exact Hma|]. split; [exact Hfuel|].
  destruct (detach_keeps_order mem t cs nodeA same_node kn nodeA 100
              Hrep Hnd Hm Hk Hin Hma Hfuel)
    as (l & r & t' & mem' & pre & post & Hlook & Hdet & Hmr & _ & Hb & Ha).
  rewrite (hmatch_same_node _ _ _ Hmr) in Hdet, Hb.
  exists l, t', mem', pre, post.
  split; [exact Hlook|]. split; [exact Hdet|]. split; [exact Hb|exact Ha].
Defined.
(** ** Inserting a record twice *)

Lemma visit_list_go {A} (f : Z → A → bool * A) l :
  (∀ x arg, fst (f x arg) = true) → ∀ arg, fst (visit_list f l arg) = true.
Proof.
  intros Hgo. induction l as [|a l IH]; intros arg; [done|]. simpl.
  specialize (Hgo a arg). destruct (f a arg) as [go arg']. simpl in Hgo.
  subst go. apply IH.
Qed.

Lemma foreach_loop_step {A} fuel t i (f : Z → A → bool * A) arg mem :
  HTab.foreach_loop (S fuel) t i f arg mem
  = if negb (mask t =? 0) && (i <=? mask t) then
      (let* head := read_slot (tab t) i in
       let* (go, arg') := HTab.visit_chain (S fuel) head f arg in
       if go : bool then HTab.foreach_loop fuel t (wrap (i + 1)) f arg'
       else ret (false, arg')) mem
    else ret (true, arg) mem.
Proof. simpl. by destruct (negb (mask t =? 0) && (i <=? mask t)). Qed.

(** A traversal that meets a node that is its own successor, after slots
    that hold well-formed chains, does not come to an end. *)
Lemma foreach_loop_self_loop {A} mem t slots pos a na (f : Z → A → bool * A) :
  mask t ≠ 0 → 0 ≤ mask t < 2 ^ 64 - 1 → (Z.of_nat pos ≤ mask t) →
  arrays mem !! tab t = Some slots → slots !! pos = Some a →
  a ≠ 0 → nodes mem !! a = Some na → next na = a →
  (∀ j, (j < pos)%nat → ∃ p c, slots !! j = Some p ∧ chain (nodes mem) p c) →
  (∀ x arg, fst (f x arg) = true) →
  ∀ fuel i arg, (i ≤ pos)%nat →
    HTab.foreach_loop fuel t (Z.of_nat i) f arg mem = OutOfFuel.
Proof.
  intros Hm0 Hm Hpos Hsl Ha Hnz Hna Hnext Hbefore Hgo.
  induction fuel as [|fuel IH]; intros i arg Hi; [done|].
  rewrite foreach_loop_step.
  destruct (Z.eqb_spec (mask t) 0) as [|_]; [done|].
  destruct (Z.leb_spec (Z.of_nat i) (mask t)) as [_|]; [|lia]. simpl negb.
  simpl andb. cbv iota.
  unfold bind at 1, read_slot. rewrite Hsl, Nat2Z.id.
  destruct (decide (i = pos)) as [->|Hne].
  - rewrite Ha. unfold bind.
    by rewrite (visit_self_loop mem a na f Hnz Hna Hnext Hgo (S fuel) arg).
  - destruct (Hbefore i ltac:(lia)) as (p & c & Hp & Hch). rewrite Hp.
    pose proof (visit_chain_spec mem f c p (S fuel) arg Hch) as Hspec.
    unfold bind.
    destruct (HTab.visit_chain (S fuel) p f arg mem) as [[[go arg'] mem']| |];
      [|done..].
    simpl in Hspec. injection Hspec as Hv ->.
    pose proof (visit_list_go f c Hgo arg) as Hgo'. rewrite <- Hv in Hgo'.
    simpl in Hgo'. subst go.
    rewrite wrap_small by lia.
    replace (Z.of_nat i + 1) with (Z.of_nat (S i)) by lia. apply IH. lia.
Qed.

(** X16: [insert] does not check whether the record is already linked.
    Inserting a record a second time, right after its insertion into a
    well-formed table, makes the record its own successor and counts it
    twice; from then on a traversal whose visitor never asks to stop does
    not terminate: it runs out of every iteration bound. *)
Theorem insert_twice_never_ends {A} mem t cs a n (f : Z → A → bool * A) :
  tab_rep mem t cs → mask t ≠ 0 →
  nodes mem !! a = Some n → a ≠ 0 → a ∉ concat cs →
  Z.of_nat (length (concat cs)) + 2 < 2 ^ 64 →
  (∀ x arg, fst (f x arg) = true) →
  ∃ t1 mem1 t2 mem2,
    HTab.insert t a mem = Ok (t1, mem1) ∧
    HTab.insert t1 a mem1 = Ok (t2, mem2) ∧
    size t2 = size t + 2 ∧
    next <$> nodes mem2 !! a = Some a ∧
    ∀ fuel arg, HTab.foreach fuel t2 f arg mem2 = OutOfFuel.
Proof.
  intros Hrep Hmask Hn Hnz Hfresh Hbound Hgo.
  destruct (HTab_insert_spec mem t cs a n Hrep Hn Hnz Hfresh ltac:(lia))
    as (t1 & mem1 & c & Hins & Hc & Hrep1 & Et1 & Hupd).
  set (pos := Z.to_nat (HTab.get_position t (hcode n))) in *.
  pose proof (lookup_lt_Some _ _ _ Hc) as Hpos.
  assert (<[pos := a :: c]> cs !! pos = Some (a :: c)) as Hc1
    by (by apply list_lookup_insert_eq).
  destruct (rep_slots _ _ _ Hrep1) as (slots & Hsl & Hchains).
  destruct (tab_rep_slot _ _ _ _ _ Hrep1 Hc1) as (slots' & p & Hsl' & Hp & Hch & Hlen).
  rewrite Hsl in Hsl'. injection Hsl' as <-.
  destruct Hch as (-> & _ & n1 & Hn1 & _).
  assert (hcode n1 = hcode n) as Hhc.
  { pose proof (upd_hcode _ _ _ _ Hupd a) as H. rewrite Hn1, Hn in H.
    by injection H. }
  assert (tab t1 = tab t ∧ mask t1 = mask t ∧ size t1 = size t + 1)
    as (Et & Em & Es) by (by rewrite Et1).
  pose proof (rep_mask _ _ _ Hrep) as Hm.
  pose proof (rep_size _ _ _ Hrep) as Hsz.
  pose proof (rep_cap _ _ _ Hrep) as Hcap.
  assert (Z.to_nat (HTab.get_position t1 (hcode n1)) = pos) as Epos.
  { unfold HTab.get_position. by rewrite Em, Hhc. }
  set (mem2 := {| nodes := <[a := {| next := a; hcode := hcode n1 |}]> (nodes mem1);
                  arrays := <[tab t1 := <[pos := a]> slots]> (arrays mem1) |}).
  assert (HTab.insert t1 a mem1
          = Ok ({| tab := tab t1; mask := mask t1; size := wrap (size t1 + 1) |}, mem2))
    as Hins2.
  { unfold HTab.insert, bind, read_node, read_slot, write_next, write_slot, ret.
    rewrite Hn1, Epos, Hsl, Hp. simpl. rewrite Hn1. simpl. rewrite Hsl.
    rewrite decide_True; [done|]. by eapply lookup_lt_Some. }
  eexists t1, mem1, _, mem2. split_and!; [done|exact Hins2| | |].
  - simpl. rewrite wrap_small; lia.
  - simpl. by rewrite lookup_insert_eq.
  - assert (mask t1 ≠ 0) as H1 by (by rewrite Em).
    assert (0 ≤ mask t1 < 2 ^ 64 - 1) as H2 by (rewrite Em; lia).
    assert (Z.of_nat pos ≤ mask t1) as H3 by (rewrite Em; lia).
    assert (arrays mem2 !! tab t1 = Some (<[pos := a]> slots)) as H4
      by (simpl; by rewrite lookup_insert_eq).
    assert (<[pos := a]> slots !! pos = Some a) as H5.
    { apply list_lookup_insert_eq. by eapply lookup_lt_Some. }
    assert (nodes mem2 !! a = Some {| next := a; hcode := hcode n1 |}) as H6
      by (simpl; by rewrite lookup_insert_eq).
    assert (∀ j, (j < pos)%nat →
              ∃ p c, <[pos := a]> slots !! j = Some p ∧ chain (nodes mem2) p c) as H7.
    { intros j Hj.
      destruct (lookup_lt_is_Some_2 slots j) as [pj Hpj].
      { rewrite Hlen, length_insert. lia. }
      destruct (Forall2_lookup_l _ _ _ _ _ Hchains Hpj) as (cj & Hcj & Hchj).
      rewrite list_lookup_insert_ne in Hcj by lia.
      exists pj, cj. split; [by rewrite list_lookup_insert_ne by lia|].
      eapply lseg_frame; [|exact Hchj]. intros b Hb. simpl.
      apply lookup_insert_ne. intros <-.
      apply Hfresh, elem_of_concat_lookup. by exists j, cj. }
    intros fuel arg.
    exact (foreach_loop_self_loop mem2
             {| tab := tab t1; mask := mask t1; size := wrap (size t1 + 1) |}
             _ pos a _ f H1 H2 H3 H4 H5 Hnz H6 eq_refl H7 Hgo fuel 0%nat arg
             (Nat.le_0_l _)).
Qed.

(** Record B is inserted twice into a table that holds record A. *)
Lemma insert_twice_never_ends_witness :
  ∃ t mem cs kn,
    table_with [nodeA] = Ok (t, mem) ∧
    tab_rep mem t cs ∧ mask t ≠ 0 ∧ nodes mem !! nodeB = Some kn ∧ nodeB ≠ 0 ∧
    (nodeB ∉ concat cs) ∧ Z.of_nat (length (concat cs)) + 2 < 2 ^ 64 ∧
    (∀ x arg, fst (record_node x arg) = true) ∧
    ∃ t1 mem1 t2 mem2,
      HTab.insert t nodeB mem = Ok (t1, mem1) ∧
      HTab.insert t1 nodeB mem1 = Ok (t2, mem2) ∧
      size t2 = size t + 2 ∧
      ∀ fuel, HTab.foreach fuel t2 record_node [] mem2 = OutOfFuel.
Proof.
  destruct (table_with_rep [nodeA])
    as (t & mem & cs & Hrun & Hrep & Hperm & Hmask & Hhc).
  { apply NoDup_singleton. }
  { repeat constructor. }
  assert (mask t ≠ 0) as Hm by (rewrite Hmask; lia).
  assert (is_Some (nodes mem !! nodeB)) as [kn Hk].
  { specialize (Hhc nodeB). destruct (nodes mem !! nodeB); [eauto|done]. }
  assert (nodeB ≠ 0) as Hnz by done.
  assert (nodeB ∉ concat cs) as Hfresh.
  { rewrite Hperm. by intros ?%list_elem_of_singleton. }
  assert (Z.of_nat (length (concat cs)) + 2 < 2 ^ 64) as Hbound.
  { rewrite Hperm. simpl. lia. }
  assert (∀ x arg, fst (record_node x arg) = true) as Hgo by reflexivity.
  exists t, mem, cs, kn.
  split; [exact Hrun|]. split; [exact Hrep|]. split; [exact Hm|].
  split; [exact Hk|]. split; [exact Hnz|]. split; [exact Hfresh|].
  split; [exact Hbound|]. split; [exact Hgo|].
  destruct (insert_twice_never_ends mem t cs nodeB kn record_node
              Hrep Hm Hk Hnz Hfresh Hbound Hgo)
    as (t1 & mem1 & t2 & mem2 & Hi1 & Hi2 & Hsz & _ & Hloop).
  exists t1, mem1, t2, mem2.
  split; [exact Hi1|]. split; [exact Hi2|]. split; [exact Hsz|].
  exact (λ fuel, Hloop fuel []).
Defined.

(** ** The empty map *)

(** X17: a map that was never inserted into owns no memory.  On [HMap{}]
    a lookup, a delete, a traversal and [clear()] return at once, change
    nothing and do not even read the key; [size()] is 0.  The first
    insertion allocates an array of 4 slots and links the record, with no
    successor, into slot [hcode & 3]; no table is retiring. *)
Theorem empty_map_is_lazy mem node n :
  nodes mem !! node = Some n →
  (∀ fuel key eq,
     HMap.lookup (S fuel) HMap0 key eq mem = Ok ((0, HMap0), mem) ∧
     HMap.hm_delete (S fuel) HMap0 key eq mem = Ok ((0, HMap0), mem)) ∧
  (∀ A (f : Z → A → bool * A) (arg : A) fuel,
     HMap.foreach (S fuel) HMap0 f arg mem = Ok (arg, mem)) ∧
  HMap.clear HMap0 mem = Ok (HMap0, mem) ∧ HMap.size HMap0 = 0 ∧
  ∃ p, p ≠ 0 ∧ arrays mem !! p = None ∧
    ∀ fuel,
      HMap.insert (S fuel) HMap0 node mem
      = Ok ({| newer := {| tab := p; mask := 3; size := 1 |}; older := HTab0;
               migrate_pos := 0 |},
            {| nodes := <[node := {| next := 0; hcode := hcode n |}]> (nodes mem);
               arrays := <[p := <[Z.to_nat (Z.land (hcode n) 3) := node]>
                                  [0; 0; 0; 0]]> (arrays mem) |}).
Proof.
  intros Hn. split_and!; try done.
  set (p := fresh ({[0]} ∪ dom (arrays mem))).
  assert (p ∉ {[0]} ∪ dom (arrays mem)) as Hp by apply is_fresh.
  exists p. split_and!.
  - intros E. apply Hp. rewrite E. by apply elem_of_union_l, elem_of_singleton.
  - apply not_elem_of_dom. intros E. apply Hp. by apply elem_of_union_r.
  - intros fuel. unfold HMap.insert. simpl.
    pose proof (HTab_init_run 2 mem ltac:(lia)) as Hinit.
    change (2 ^ 2) with 4 in Hinit. rewrite (bind_Ok _ _ _ _ _ Hinit). fold p.
    destruct (land_mask_range (hcode n) 3 ltac:(lia)) as [Hlo Hhi].
    assert (Z.to_nat (Z.land (hcode n) 3) < 4)%nat as Hpos by lia.
    destruct (lookup_lt_is_Some_2 [0; 0; 0; 0] (Z.to_nat (Z.land (hcode n) 3)) Hpos)
      as [h Hh].
    assert (h = 0) as ->.
    { apply list_elem_of_lookup_2 in Hh. rewrite !elem_of_cons, elem_of_nil in Hh.
      by destruct Hh as [?|[?|[?|[?|[]]]]]. }
    unfold bind at 1. unfold HTab.insert, bind, read_node, read_slot, write_next,
      write_slot, ret, HTab.get_position. simpl.
    rewrite Hn. simpl. rewrite lookup_insert_eq. change (4 - 1) with 3.
    rewrite Hh. simpl. rewrite Hn. simpl. rewrite lookup_insert_eq.
    rewrite decide_True by (simpl; lia). simpl. by rewrite insert_insert_eq.
Qed.

(** Record B is the first record of a map. *)
Lemma empty_map_is_lazy_witness :
  nodes scenarioB_mem !! nodeB = Some {| next := 0; hcode := 5 |} ∧
  ∃ p mem',
    HMap.insert 1 HMap0 nodeB scenarioB_mem
    = Ok ({| newer := {| tab := p; mask := 3; size := 1 |}; older := HTab0;
             migrate_pos := 0 |}, mem') ∧
    arrays mem' !! p = Some [0; nodeB; 0; 0].
Proof.
  assert (nodes scenarioB_mem !! nodeB = Some {| next := 0; hcode := 5 |}) as Hn
    by reflexivity.
  split; [exact Hn|].
  destruct (empty_map_is_lazy scenarioB_mem nodeB _ Hn)
    as (_ & _ & _ & _ & p & _ & _ & Hins).
  exists p. eexists. split; [exact (Hins 0%nat)|]. simpl.
  rewrite lookup_insert_eq. reflexivity.
Defined.

(** ** The migration cursor *)

(** X18: the cursor only moves forward within a cycle.  In a reachable
    state a lookup and a delete never move [migrate_pos] back, and an
    insertion moves it back only when it starts a cycle, that is, when no
    table was retiring and the active table is replaced. *)
Theorem cursor_never_moves_back mem m live :
  reachable mem m live →
  (∀ fuel key eq r m' mem',
     is_Some (nodes mem !! key) →
     HMap.lookup fuel m key eq mem = Ok ((r, m'), mem') →
     migrate_pos m ≤ migrate_pos m') ∧
  (∀ fuel key eq r m' mem',
     is_Some (nodes mem !! key) →
     HMap.hm_delete fuel m key eq mem = Ok ((r, m'), mem') →
     migrate_pos m ≤ migrate_pos m') ∧
  (∀ fuel node m' mem',
     is_Some (nodes mem !! node) → node ∉ live →
     HMap.insert fuel m node mem = Ok (m', mem') →
     migrate_pos m ≤ migrate_pos m'
     ∨ (tab (older m) = 0 ∧ tab (newer m) ≠ 0 ∧ tab (newer m') ≠ tab (newer m))).
Proof.
  intros Hr. destruct (reachable_Inv _ _ _ Hr) as (csN & csO & HI & Hlive).
  split_and!.
  - intros fuel key eq r m' mem' [kn Hk] Hrun.
    pose proof (HMap_lookup_spec fuel mem m csN csO key eq kn HI Hk) as Hspec.
    rewrite Hrun in Hspec. destruct Hspec as (csN' & csO' & Hmg & _).
    apply (mg_cursor _ _ _ _ _ _ _ _ Hmg).
  - intros fuel key eq r m' mem' [kn Hk] Hrun.
    pose proof (hm_delete_spec fuel mem m csN csO key eq kn HI Hk) as Hspec.
    rewrite Hrun in Hspec.
    destruct Hspec as (m1 & mem1 & csN1 & csO1 & csN' & csO' & _ & Hmg & _ & _ & _
                       & _ & _ & _ & -> & _).
    apply (mg_cursor _ _ _ _ _ _ _ _ Hmg).
  - intros fuel node m' mem' [n Hn] Hfresh Hrun.
    assert (node ∉ concat csN ++ concat csO) as Hfresh' by (by rewrite <- Hlive).
    destruct (HMap_insert_run _ _ _ _ _ _ _ _ _ HI Hn Hfresh' Hrun)
      as (m2 & mem2 & csN2 & csO2 & csN' & csO' & HI2 & _ & Hmg & _ & _ & Hcase).
    pose proof (mg_cursor _ _ _ _ _ _ _ _ Hmg) as Hcur.
    destruct Hcase as [(_ & Epos & _)
                      |(Ho & Ho2 & _ & _ & HsO & _ & HtO & Hlazy & Hth)].
    + left. lia.
    + right. split; [done|].
      assert (tab (newer m) ≠ 0) as Ht.
      { intros Hz.
        destruct (table_ok_null _ _ _ (inv_newer _ _ _ _ HI) Hz) as [E _].
        rewrite (Hlazy Hz), HsO, E in Hth. by vm_compute in Hth. }
      split; [done|]. destruct (HtO Ht) as [Et _].
      rewrite (mg_newer_tab _ _ _ _ _ _ _ _ Hmg), <- Et.
      apply (inv_tabs _ _ _ _ HI2 Ho2).
Qed.

(** One more lookup in the map after 256 insertions, whose cursor is 15. *)
Lemma cursor_never_moves_back_witness :
  reachable memM mapM liveM ∧
  ∀ fuel r m' mem',
    HMap.lookup fuel mapM probe same_node memM = Ok ((r, m'), mem') →
    15 ≤ migrate_pos m'.
Proof.
  split; [exact mapM_reachable|]. intros fuel r m' mem' Hrun.
  destruct (cursor_never_moves_back memM mapM liveM mapM_reachable) as (Hlook & _).
  pose proof (Hlook fuel probe same_node r m' mem'
                (mk_is_Some _ _ memM_probe) Hrun) as H.
  rewrite (proj2 mapM_state) in H. exact H.
Defined.
